(** * AnySwap: a multi-asset weighted AMM and its TypeScript clients

    A shallow embedding of the client library ([AnySwap], [AdminClient],
    [Client]), of the forms and the storage context of the documentation
    site and of the pool engine described by the specification, with the
    properties that the specification states about them and further
    properties of the clients. *)

From Stdlib Require Import ZArith List Lia Bool String Ascii Permutation.
From Stdlib.Strings Require Import Byte.
From Stdlib Require Import Reals Lra.
From Stdlib Require Import Uint63.
From Bignums Require Import BigZ.BigZ.
Import ListNotations.

Local Open Scope Z_scope.

(** ** Common data *)

(** A Solana public key is a buffer of 32 bytes. *)
Definition PublicKey := list byte.

(** [BN] values are arbitrary-precision integers. *)
Definition BN := Z.

(** An entry of [remainingAccounts]. *)
Record AccountMeta := mkMeta {
  pubkey : PublicKey;
  isWritable : bool;
  isSigner : bool
}.

(** A JavaScript call either returns or throws an [Error] with a message. *)
Inductive thrown (A : Type) : Type :=
| Returned (a : A)
| Thrown (message : string).
Arguments Returned {A} a.
Arguments Thrown {A} message.

(** ** The address derivation of [@solana/web3.js]

    [PublicKey.findProgramAddressSync] is library code that every vault
    derivation of the repository calls; it is embedded here from its
    published algorithm: SHA-256 over the seeds, the bump byte, the program
    id and a marker string, retried until the digest is not an Ed25519
    point. *)

Module Web3.

Definition byteZ (b : byte) : Z := Z.of_N (Byte.to_N b).

Definition Zbyte (z : Z) : byte :=
  match Byte.of_N (Z.to_N (z mod 256)) with
  | Some b => b
  | None => x00
  end.

(** [Buffer.from(str)] for an ASCII string. *)
Definition Buffer_from (s : string) : list byte := list_byte_of_string s.

(** *** SHA-256 (FIPS 180-4), words held in machine integers *)

Definition word := int.

Definition mask32 : word := 4294967295%uint63.
Definition wrap32 (x : word) : word := Uint63.land x mask32.
Definition plus32 (x y : word) : word := wrap32 (Uint63.add x y).
Definition rotr (n : word) (x : word) : word :=
  wrap32 (Uint63.lor (Uint63.lsr x n) (Uint63.lsl x (Uint63.sub 32%uint63 n))).
Definition choose (x y z : word) : word :=
  Uint63.lxor (Uint63.land x y) (Uint63.land (Uint63.lxor x mask32) z).
Definition majority (x y z : word) : word :=
  Uint63.lxor (Uint63.lxor (Uint63.land x y) (Uint63.land x z)) (Uint63.land y z).
Definition bigSigma0 (x : word) : word :=
  Uint63.lxor (Uint63.lxor (rotr 2%uint63 x) (rotr 13%uint63 x)) (rotr 22%uint63 x).
Definition bigSigma1 (x : word) : word :=
  Uint63.lxor (Uint63.lxor (rotr 6%uint63 x) (rotr 11%uint63 x)) (rotr 25%uint63 x).
Definition smallSigma0 (x : word) : word :=
  Uint63.lxor (Uint63.lxor (rotr 7%uint63 x) (rotr 18%uint63 x)) (Uint63.lsr x 3%uint63).
Definition smallSigma1 (x : word) : word :=
  Uint63.lxor (Uint63.lxor (rotr 17%uint63 x) (rotr 19%uint63 x)) (Uint63.lsr x 10%uint63).

(** The constants of the standard are fractional parts of roots of the
    first primes: of the cube roots of the first sixty-four for the
    rounds, of the square roots of the first eight for the initial hash. *)
Definition firstPrimes : list Z :=
  [2; 3; 5; 7; 11; 13; 17; 19; 23; 29; 31; 37; 41; 43; 47; 53;
   59; 61; 67; 71; 73; 79; 83; 89; 97; 101; 103; 107; 109; 113; 127; 131;
   137; 139; 149; 151; 157; 163; 167; 173; 179; 181; 191; 193; 197; 199; 211; 223;
   227; 229; 233; 239; 241; 251; 257; 263; 269; 271; 277; 281; 283; 293; 307; 311].

Fixpoint cubeRootBits (n : Z) (bits : nat) (acc : Z) : Z :=
  match bits with
  | O => acc
  | S bits' =>
      let candidate := acc + 2 ^ Z.of_nat bits' in
      if candidate * candidate * candidate <=? n
      then cubeRootBits n bits' candidate
      else cubeRootBits n bits' acc
  end.

Definition roundConstants : list word :=
  Eval vm_compute in
    map (fun q => Uint63.of_Z (cubeRootBits (q * 2 ^ 96) 40 0 mod 2 ^ 32)) firstPrimes.

Definition initialHash : list word :=
  Eval vm_compute in
    map (fun q => Uint63.of_Z (Z.sqrt (q * 2 ^ 64) mod 2 ^ 32)) (firstn 8 firstPrimes).

(** Padding: a [0x80] byte, zeros up to 56 modulo 64, and the bit length
    on eight bytes, most significant first. *)
Definition bigEndian (width : nat) (x : Z) : list Z :=
  map (fun i => (Z.shiftr x (8 * Z.of_nat (width - 1 - i))) mod 256) (seq 0 width).

Definition pad (msg : list Z) : list Z :=
  let len := Z.of_nat (List.length msg) in
  let zeros := Z.to_nat ((55 - len) mod 64) in
  msg ++ [128] ++ repeat 0 zeros ++ bigEndian 8 (8 * len).

Fixpoint words (n : nat) (bytes : list Z) : list word :=
  match n, bytes with
  | S n', b0 :: b1 :: b2 :: b3 :: rest =>
      Uint63.of_Z (b0 * 16777216 + b1 * 65536 + b2 * 256 + b3) :: words n' rest
  | _, _ => []
  end.

Fixpoint blocks (n : nat) (bytes : list Z) : list (list Z) :=
  match n with
  | O => []
  | S n' =>
      match bytes with
      | [] => []
      | _ => firstn 64 bytes :: blocks n' (skipn 64 bytes)
      end
  end.

(** The message schedule, kept most recent word first. *)
Fixpoint schedule (n : nat) (recent : list word) : list word :=
  match n with
  | O => recent
  | S n' =>
      let w := plus32 (plus32 (smallSigma1 (nth 1 recent 0%uint63)) (nth 6 recent 0%uint63))
                      (plus32 (smallSigma0 (nth 14 recent 0%uint63))
                              (nth 15 recent 0%uint63)) in
      schedule n' (w :: recent)
  end.

Record Working := mkWorking { va : word; vb : word; vc : word; vd : word;
                              ve : word; vf : word; vg : word; vh : word }.

Definition round (s : Working) (kw : word * word) : Working :=
  let t1 := plus32 (plus32 (plus32 (vh s) (bigSigma1 (ve s)))
                           (plus32 (choose (ve s) (vf s) (vg s)) (fst kw)))
                   (snd kw) in
  let t2 := plus32 (bigSigma0 (va s)) (majority (va s) (vb s) (vc s)) in
  mkWorking (plus32 t1 t2) (va s) (vb s) (vc s)
            (plus32 (vd s) t1) (ve s) (vf s) (vg s).

Definition compress (h : list word) (block : list Z) : list word :=
  let w := rev (schedule 48 (rev (words 16 block))) in
  let h n := nth n h 0%uint63 in
  let s0 := mkWorking (h 0%nat) (h 1%nat) (h 2%nat) (h 3%nat)
                      (h 4%nat) (h 5%nat) (h 6%nat) (h 7%nat) in
  let s := fold_left round (combine roundConstants w) s0 in
  map (fun p => plus32 (fst p) (snd p))
      (combine [h 0%nat; h 1%nat; h 2%nat; h 3%nat; h 4%nat; h 5%nat; h 6%nat; h 7%nat]
               [va s; vb s; vc s; vd s; ve s; vf s; vg s; vh s]).

Definition sha256 (msg : list byte) : list byte :=
  let padded := pad (map byteZ msg) in
  let h := fold_left compress (blocks (List.length padded) padded) initialHash in
  map Zbyte (flat_map (fun w => bigEndian 4 (Uint63.to_Z w)) h).

(** *** Ed25519 point validity, as [isOnCurve] decides it

    Field elements are big integers of the Bignums library, compared by
    value. *)

(** The field prime [2^255 - 19]. *)
Definition fieldPrime : bigZ := Eval vm_compute in BigZ.of_Z (2 ^ 255 - 19).
Definition curveD : bigZ :=
  Eval vm_compute in
    BigZ.of_Z 37095705934669439343138083508754565189542113879843219016388785533085940283555.
Definition sqrtMinusOne : bigZ :=
  Eval vm_compute in
    BigZ.of_Z 19681161376707505956807079304988542015446066515923890162744021073123829784752.
(** [(P - 5) / 8] *)
Definition exponent58 : positive :=
  Eval vm_compute in Z.to_pos ((2 ^ 255 - 19 - 5) / 8).

Definition modP (a : bigZ) : bigZ := BigZ.modulo a fieldPrime.
Definition mulP (a b : bigZ) : bigZ := modP (BigZ.mul a b).
Definition negP (a : bigZ) : bigZ := modP (BigZ.opp a).

Fixpoint powP (b : bigZ) (e : positive) : bigZ :=
  match e with
  | xH => modP b
  | xO e' => let r := powP b e' in mulP r r
  | xI e' => let r := powP b e' in mulP (mulP r r) b
  end.

Fixpoint littleEndian (bytes : list Z) : Z :=
  match bytes with
  | [] => 0
  | b :: rest => b + 256 * littleEndian rest
  end.

(** [uvRatio]: whether [u/v] is a square modulo the field prime, with the
    candidate root. *)
Definition uvRatio (u v : bigZ) : bool * bigZ :=
  let v3 := mulP (mulP v v) v in
  let v7 := mulP (mulP v3 v3) v in
  let x := mulP (mulP u v3) (powP (mulP u v7) exponent58) in
  let vx2 := mulP v (mulP x x) in
  let root1 := x in
  let root2 := mulP x sqrtMinusOne in
  let useRoot1 := BigZ.eqb vx2 u in
  let useRoot2 := BigZ.eqb vx2 (negP u) in
  let noRoot := BigZ.eqb vx2 (mulP (negP u) sqrtMinusOne) in
  let x' := if useRoot1 then root1 else if useRoot2 || noRoot then root2 else x in
  (useRoot1 || useRoot2, x').

Definition isOnCurve (key : list byte) : bool :=
  let n := littleEndian (map byteZ key) in
  let y := BigZ.of_Z (n mod 2 ^ 255) in
  let signBit := Z.testbit n 255 in
  if BigZ.leb fieldPrime y then false
  else
    let y2 := mulP y y in
    let u := modP (BigZ.sub y2 BigZ.one) in
    let v := modP (BigZ.add (mulP curveD y2) BigZ.one) in
    let (isValid, x) := uvRatio u v in
    isValid && negb (BigZ.eqb x BigZ.zero && signBit).

(** *** Program-derived addresses *)

Inductive PdaError := MaxSeedLengthExceeded | InvalidSeeds | NoViableNonce.

Definition createProgramAddressSync (seeds : list (list byte))
    (programId : PublicKey) : PublicKey + PdaError :=
  if existsb (fun seed => Nat.ltb 32 (List.length seed)) seeds
  then inr MaxSeedLengthExceeded
  else
    let buffer := List.concat seeds ++ programId ++ Buffer_from "ProgramDerivedAddress" in
    let hash := sha256 buffer in
    if isOnCurve hash then inr InvalidSeeds else inl hash.

Fixpoint findNonce (count : nat) (nonce : Z) (seeds : list (list byte))
    (programId : PublicKey) : (PublicKey * Z) + PdaError :=
  match count with
  | O => inr NoViableNonce
  | S count' =>
      match createProgramAddressSync (seeds ++ [[Zbyte nonce]]) programId with
      | inl address => inl (address, nonce)
      | inr MaxSeedLengthExceeded => inr MaxSeedLengthExceeded
      | inr _ => findNonce count' (nonce - 1) seeds programId
      end
  end.

(** The nonce runs from 255 down to 1. *)
Definition findProgramAddressSync (seeds : list (list byte))
    (programId : PublicKey) : (PublicKey * Z) + PdaError :=
  findNonce 255 255 seeds programId.

End Web3.

(** ** Instructions of the on-chain program, as the clients build them *)

(** The argument of a [modifyTokenWeight] method call: the class [AnySwap]
    passes an array of weights, [AdminClient] and the integration test pass
    one weight. *)
Inductive WeightArgs :=
| WeightArray (newWeights : list BN)
| WeightSingle (newWeight : BN).

Record ModifyTokenWeightCall := mkModifyTokenWeight {
  mw_args : WeightArgs;
  mw_pool : PublicKey;
  mw_mint : option PublicKey;
  mw_admin : PublicKey;
  mw_remainingAccounts : list AccountMeta
}.

(** [owner || this.provider.wallet.publicKey] *)
Definition orWallet (given : option PublicKey) (wallet : PublicKey) : PublicKey :=
  match given with
  | Some k => k
  | None => wallet
  end.

(** The first component of a derived address: [const [vault] = ...]. *)
Definition addressOf (r : (PublicKey * Z) + Web3.PdaError) : PublicKey + Web3.PdaError :=
  match r with
  | inl (address, _) => inl address
  | inr e => inr e
  end.

(** An entry of [remainingAccounts] whose key was read from an array by
    index: [arr[i]] is [undefined] past the end of the array. *)
Record IndexedMeta := mkIndexedMeta {
  indexedKey : option PublicKey;
  indexedWritable : bool;
  indexedSigner : bool
}.

(** [arr.map((x, index) => f(x, index))], counting from [index]. *)
Fixpoint mapIndexed {A B : Type} (f : A -> nat -> B) (index : nat) (arr : list A)
    : list B :=
  match arr with
  | [] => []
  | x :: rest => f x index :: mapIndexed f (S index) rest
  end.

(** A [modifyFee] method call. *)
Record ModifyFeeCall := mkModifyFee {
  mf_feeNumerator : BN;
  mf_feeDenominator : BN;
  mf_pool : PublicKey;
  mf_admin : PublicKey
}.

(** The arguments of an [addTokenToPool] method call: the class [AnySwap]
    passes a weight and a liquidity, [AdminClient] a weight. *)
Inductive AddTokenArgs :=
| WeightAndLiquidity (weight liquidity : BN)
| WeightOnly (weight : BN).

Record AddTokenToPoolCall := mkAddTokenToPool {
  at_args : AddTokenArgs;
  at_pool : PublicKey;
  at_mint : PublicKey;
  at_admin : PublicKey;
  at_payer : PublicKey;
  at_remainingAccounts : list AccountMeta
}.

(** [new BN(number)] for an integer-valued number: [bn.js] asserts that
    the magnitude is below 2^53. *)
Definition BN_ofNumber (number : Z) : option BN :=
  if Z.abs number <? 2 ^ 53 then Some number else None.

(** ** The helpers of [utils.ts] *)

Module Utils.

(** [getVault(program, pool, mint)] *)
Definition getVault (programId pool mint : PublicKey) : PublicKey + Web3.PdaError :=
  addressOf (Web3.findProgramAddressSync
               [Web3.Buffer_from "vault"; pool; mint] programId).

(** [getPoolAuthority(program, pool)] *)
Definition getPoolAuthority (programId pool : PublicKey)
    : (PublicKey * Z) + Web3.PdaError :=
  Web3.findProgramAddressSync [Web3.Buffer_from "anyswap_authority"; pool] programId.

(** [getPoolMint(program, pool)] *)
Definition getPoolMint (programId pool : PublicKey) : PublicKey + Web3.PdaError :=
  addressOf (Web3.findProgramAddressSync
               [Web3.Buffer_from "pool_mint"; pool] programId).

End Utils.

(** ** The [Client] class *)

Module Client.

Record AnySwapPoolToken := mkToken {
  vaultAccount : PublicKey;
  mintAccount : PublicKey;
  weight : BN
}.

(** The fetched pool account: the token array with its padding slots and
    the number of slots in use. *)
Record PoolAccount := mkPoolAccount {
  tokens : list AnySwapPoolToken;
  tokenCount : nat
}.

(** [getPool]: [poolAccount.tokens.slice(0, poolAccount.tokenCount)] *)
Definition getPool_tokens (poolAccount : PoolAccount) : list AnySwapPoolToken :=
  firstn (tokenCount poolAccount) (tokens poolAccount).

(** The loop of [calculateRequiredWSOLLiquidity]; [getAccount] reads the
    amount of a token account and is [None] where [token.getAccount]
    throws. *)
Fixpoint accumulateBase (getAccount : PublicKey -> option Z)
    (toks : list AnySwapPoolToken) (base : BN) : option BN :=
  match toks with
  | [] => Some base
  | tokenInfo :: rest =>
      match getAccount (vaultAccount tokenInfo) with
      | None => None
      | Some vaultAmount =>
          accumulateBase getAccount rest (base + vaultAmount * weight tokenInfo)
      end
  end.

(** [BN.div] truncates and fails on a zero divisor. *)
Definition BN_div (a b : BN) : option BN :=
  if b =? 0 then None else Some (Z.quot a b).

(** The body of [calculateRequiredWSOLLiquidity(pool, weight)] once the
    pool account has been fetched. *)
Definition calculateRequiredWSOLLiquidity (getAccount : PublicKey -> option Z)
    (poolAccount : PoolAccount) (weight : BN) : option BN :=
  match accumulateBase getAccount (getPool_tokens poolAccount) 0 with
  | None => None
  | Some base => BN_div base weight
  end.

(** What [getPool] returns, without the fields that are copied from the
    account and not read here (admin, fee, LP supply). *)
Record AnySwapPool := mkAnySwapPool {
  pool_address : PublicKey;
  pool_lpMint : PublicKey;
  pool_tokens : list AnySwapPoolToken;
  pool_tokenCount : nat
}.

(** [async getPool(pool)]; [fetch] is
    [this.program.account.anySwapPool.fetch], [None] where it throws. *)
Definition getPool (fetch : PublicKey -> option PoolAccount)
    (programId pool : PublicKey) : option AnySwapPool :=
  match fetch pool with
  | None => None
  | Some poolAccount =>
      let tokens := getPool_tokens poolAccount in
      match Utils.getPoolMint programId pool with
      | inr _ => None
      | inl lpMint =>
          Some (mkAnySwapPool pool lpMint tokens (tokenCount poolAccount))
      end
  end.

(** [async calculateRequiredWSOLLiquidity(pool, weight)], from the call
    of [getPool] on. *)
Definition calculateRequiredWSOLLiquidity_of
    (fetch : PublicKey -> option PoolAccount) (getAccount : PublicKey -> option Z)
    (programId pool : PublicKey) (weight : BN) : option BN :=
  match getPool fetch programId pool with
  | None => None
  | Some poolAccount =>
      match accumulateBase getAccount (pool_tokens poolAccount) 0 with
      | None => None
      | Some base => BN_div base weight
      end
  end.

(** The loop of [addLiquidity] and of [removeLiquidity]: for every index of
    [params.userTokenAccounts], two entries are pushed. *)
Definition liquidityAccounts (userTokenAccounts vaultAccounts : list PublicKey)
    : list IndexedMeta :=
  fold_left
    (fun remainingAccounts i =>
       remainingAccounts
       ++ [mkIndexedMeta (nth_error userTokenAccounts i) true false]
       ++ [mkIndexedMeta (nth_error vaultAccounts i) true false])
    (seq 0 (List.length userTokenAccounts)) [].

End Client.

(** ** The [AnySwap] client class *)

Module AnySwap.

(** An element of [inlets] or of [outlets]. *)
Record Leg := mkLeg {
  amount : BN;
  vault : PublicKey;
  user : PublicKey
}.

(** An element of the local array [intos]. *)
Record Into := mkInto {
  into_amount : BN;
  into_vault : PublicKey;
  into_user : PublicKey;
  isIn : bool
}.

(** The transaction that [swap] hands to [rpc()]: the [swapAnyswap]
    instruction with its arguments and accounts, preceded by the
    [setComputeUnitLimit] instruction. *)
Record SwapTx := mkSwapTx {
  tx_pool : PublicKey;
  tx_owner : PublicKey;
  amounts_tolerance : list BN;
  is_in_token : list bool;
  remainingAccounts : list AccountMeta;
  units : Z
}.

Definition intos_of (inlets outlets : list Leg) : list Into :=
  map (fun inlet => mkInto (amount inlet) (vault inlet) (user inlet) true) inlets
  ++ map (fun outlet => mkInto (amount outlet) (vault outlet) (user outlet) false) outlets.

Definition accounts_of (intos : list Into) : list AccountMeta :=
  flat_map (fun item => [mkMeta (into_user item) true false;
                         mkMeta (into_vault item) true false]) intos.

(** The compute-unit limit chosen by [swap], or the exception. *)
Definition cu_of (n : nat) : thrown Z :=
  if Nat.eqb n 2 then Returned 400000
  else if Nat.leb n 6 then Returned (400000 + 200000 * Z.of_nat n)
  else Thrown "Too many tokens to swap".

(** [async swap(pool, inlets, outlets, owner?)]; [wallet] is
    [this.provider.wallet!.publicKey]. *)
Definition swap (wallet : PublicKey) (pool : PublicKey)
    (inlets outlets : list Leg) (owner : option PublicKey) : thrown SwapTx :=
  let ownerPubkey := orWallet owner wallet in
  let intos := intos_of inlets outlets in
  let amounts_tolerance := map into_amount intos in
  let is_in_token := map isIn intos in
  let remainingAccounts := accounts_of intos in
  match cu_of (List.length intos) with
  | Thrown msg => Thrown msg
  | Returned cu =>
      Returned (mkSwapTx pool ownerPubkey amounts_tolerance is_in_token
                         remainingAccounts cu)
  end.

(** [getVault(pool, mint)], with [this.program.programId] as [programId]. *)
Definition getVault (programId pool mint : PublicKey) : PublicKey + Web3.PdaError :=
  addressOf (Web3.findProgramAddressSync
               [Web3.Buffer_from "vault"; pool; mint] programId).

(** [async modifyTokenWeight(pool, newWeights, mints = [], admin?)] *)
Definition modifyTokenWeight (wallet pool : PublicKey) (newWeights : list BN)
    (mints : list PublicKey) (admin : option PublicKey) : ModifyTokenWeightCall :=
  let adminPubkey := orWallet admin wallet in
  mkModifyTokenWeight (WeightArray newWeights) pool None adminPubkey
    (map (fun mint => mkMeta mint false false) mints).

(** [getPoolAuthority(pool)]: the address and its bump. *)
Definition getPoolAuthority (programId pool : PublicKey)
    : (PublicKey * Z) + Web3.PdaError :=
  Web3.findProgramAddressSync [Web3.Buffer_from "anyswap_authority"; pool] programId.

(** [getPoolMint(pool)] *)
Definition getPoolMint (programId pool : PublicKey) : PublicKey + Web3.PdaError :=
  addressOf (Web3.findProgramAddressSync
               [Web3.Buffer_from "pool_mint"; pool] programId).

(** [async addTokenToPool(pool, mint, weight, liquidity, existingVaults = [],
    admin?)] *)
Definition addTokenToPool (wallet pool mint : PublicKey) (weight liquidity : BN)
    (existingVaults : list PublicKey) (admin : option PublicKey)
    : AddTokenToPoolCall :=
  let adminPubkey := orWallet admin wallet in
  let remainingAccounts :=
    flat_map (fun vault => [mkMeta vault false false]) existingVaults in
  mkAddTokenToPool (WeightAndLiquidity weight liquidity) pool mint adminPubkey
    wallet remainingAccounts.

(** The [remainingAccounts] that [addLiquidity] and [removeLiquidity]
    build: [userTokenAccounts.map((userAccount, index) => [...]).flat()]. *)
Definition liquidityAccounts (userTokenAccounts vaultAccounts : list PublicKey)
    : list IndexedMeta :=
  List.concat
    (mapIndexed
       (fun userAccount index =>
          [mkIndexedMeta (Some userAccount) true false;
           mkIndexedMeta (nth_error vaultAccounts index) true false])
       0%nat userTokenAccounts).

(** [async modifyFee(pool, feeNumerator, feeDenominator, admin?)] *)
Definition modifyFee (wallet pool : PublicKey) (feeNumerator feeDenominator : BN)
    (admin : option PublicKey) : ModifyFeeCall :=
  let adminPubkey := orWallet admin wallet in
  mkModifyFee feeNumerator feeDenominator pool adminPubkey.

(** [getPoolInfo]: [poolInfo.tokens.slice(0, poolInfo.tokenCount)] *)
Definition getPoolInfo_tokens (poolInfo : Client.PoolAccount)
    : list Client.AnySwapPoolToken :=
  firstn (Client.tokenCount poolInfo) (Client.tokens poolInfo).

End AnySwap.

(** ** The [AdminClient] class *)

Module AdminClient.

(** [async modifyTokenWeight(pool, mint, newWeight, admin?)] *)
Definition modifyTokenWeight (wallet pool mint : PublicKey) (newWeight : BN)
    (admin : option PublicKey) : ModifyTokenWeightCall :=
  let adminPubkey := orWallet admin wallet in
  mkModifyTokenWeight (WeightSingle newWeight) pool (Some mint) adminPubkey [].

(** The vault list that [addTokenToPool] settles on; [fetched] is the
    result of [this.program.account.anySwapPool.fetch(pool)], [None] where
    it throws. *)
Definition vaultAccountsOf (existingVaults : list PublicKey)
    (fetched : option Client.PoolAccount) : list PublicKey :=
  if Nat.eqb (List.length existingVaults) 0
  then
    match fetched with
    | Some poolAccount =>
        map Client.vaultAccount
            (firstn (Client.tokenCount poolAccount) (Client.tokens poolAccount))
    | None => []
    end
  else existingVaults.

(** The [remainingAccounts] of [addTokenToPool]. *)
Definition addTokenToPool_remainingAccounts (existingVaults : list PublicKey)
    (fetched : option Client.PoolAccount) : list AccountMeta :=
  map (fun vault => mkMeta vault false false) (vaultAccountsOf existingVaults fetched).

(** [async modifyFee(pool, feeNumerator, feeDenominator, admin?)] *)
Definition modifyFee (wallet pool : PublicKey) (feeNumerator feeDenominator : BN)
    (admin : option PublicKey) : ModifyFeeCall :=
  let adminPubkey := orWallet admin wallet in
  mkModifyFee feeNumerator feeDenominator pool adminPubkey.

End AdminClient.

(** ** The 250-token performance test *)

Module PerfTest.

(** The vault address computed in the set-up loop of the
    100-in-100-out test. *)
Definition vault (programId pool mint : PublicKey) : PublicKey + Web3.PdaError :=
  addressOf (Web3.findProgramAddressSync
               [Web3.Buffer_from "anyswap_vault"; pool; mint] programId).

End PerfTest.

(** ** The swap form of the documentation site ([Swap.tsx]) *)

Module SwapForm.

Inductive Status := input | output | none.

Definition Status_eqb (a b : Status) : bool :=
  match a, b with
  | input, input | output, output | none, none => true
  | _, _ => false
  end.

Record TokenSwapItem := mkItem {
  mint : string;
  decimals : Z;
  weight : string;
  status : Status;
  amount : string
}.

(** What [useAnySwap] provides: the program id and the wallet key that
    the [AnySwap] instance works with. *)
Record ClientHandle := mkClient {
  programId : PublicKey;
  wallet : PublicKey
}.

Record FormState := mkForm {
  client : option ClientHandle;
  publicKey : option PublicKey;
  poolAddress : string;
  connection : bool;
  tokens : list TokenSwapItem
}.

(** The result of one click on the button. *)
Inductive Outcome :=
| MissingFields                      (* first early return *)
| NeedInputAndOutput                 (* second early return *)
| SwapFailed                         (* an exception reached [catch] *)
| Submitted (tx : AnySwap.SwapTx).   (* [client.swap] sent the transaction *)

(** [handleStatusChange(mint, status)] *)
Definition handleStatusChange (m : string) (st : Status)
    (prev : list TokenSwapItem) : list TokenSwapItem :=
  map (fun t =>
         if String.eqb (mint t) m
         then mkItem (mint t) (decimals t) (weight t) st
                     (if Status_eqb st none then EmptyString else amount t)
         else t) prev.

(** [handleAmountChange(mint, value)] *)
Definition handleAmountChange (m : string) (value : string)
    (prev : list TokenSwapItem) : list TokenSwapItem :=
  map (fun t =>
         if String.eqb (mint t) m
         then mkItem (mint t) (decimals t) (weight t) (status t) value
         else t) prev.

(** The items that [loadPoolTokens] builds: every token starts out of the
    swap. *)
Definition loadedItem (m : string) (d : Z) (w : string) : TokenSwapItem :=
  mkItem m d w none EmptyString.

(** After a successful swap the amounts are cleared. *)
Definition clearAmounts (prev : list TokenSwapItem) : list TokenSwapItem :=
  map (fun t => mkItem (mint t) (decimals t) (weight t) (status t) EmptyString) prev.

Section Environment.

(** JavaScript numbers and the built-ins applied to them. *)
Variable Number : Type.
Variable parseFloat : string -> Number.
Variable isPositive : Number -> bool.            (* [x > 0] *)
Variable scaleFloor : Number -> Z -> Z.          (* [Math.floor(x * Math.pow(10, d))] *)
(** [new PublicKey(str)], which throws on a malformed address. *)
Variable newPublicKey : string -> option PublicKey.
(** [token.getAssociatedTokenAddress(mint, owner)] *)
Variable getAssociatedTokenAddress : PublicKey -> PublicKey -> option PublicKey.

(** [t.amount && parseFloat(t.amount) > 0] *)
Definition hasAmount (t : TokenSwapItem) : bool :=
  negb (String.eqb (amount t) EmptyString) && isPositive (parseFloat (amount t)).

Definition inputTokens (ts : list TokenSwapItem) : list TokenSwapItem :=
  filter (fun t => Status_eqb (status t) input && hasAmount t) ts.

Definition outputTokens (ts : list TokenSwapItem) : list TokenSwapItem :=
  filter (fun t => Status_eqb (status t) output && hasAmount t) ts.

(** The body of either [for] loop: one leg, or [None] when a call
    throws; [new BN(amountInSmallestUnit)] is evaluated when the leg is
    pushed, after the two addresses. *)
Definition legOf (c : ClientHandle) (owner pool : PublicKey)
    (t : TokenSwapItem) : option AnySwap.Leg :=
  match newPublicKey (mint t) with
  | None => None
  | Some mintKey =>
      let amountInSmallestUnit := scaleFloor (parseFloat (amount t)) (decimals t) in
      match getAssociatedTokenAddress mintKey owner with
      | None => None
      | Some userAccount =>
          match AnySwap.getVault (programId c) pool mintKey with
          | inr _ => None
          | inl vault =>
              match BN_ofNumber amountInSmallestUnit with
              | None => None
              | Some amountBN => Some (AnySwap.mkLeg amountBN vault userAccount)
              end
          end
      end
  end.

Fixpoint legsOf (c : ClientHandle) (owner pool : PublicKey)
    (ts : list TokenSwapItem) : option (list AnySwap.Leg) :=
  match ts with
  | [] => Some []
  | t :: rest =>
      match legOf c owner pool t with
      | None => None
      | Some leg =>
          match legsOf c owner pool rest with
          | None => None
          | Some legs => Some (leg :: legs)
          end
      end
  end.

(** [handleSwap] *)
Definition handleSwap (s : FormState) : Outcome :=
  match client s, publicKey s with
  | Some c, Some owner =>
      if String.eqb (poolAddress s) EmptyString || negb (connection s)
      then MissingFields
      else
        let ins := inputTokens (tokens s) in
        let outs := outputTokens (tokens s) in
        if Nat.eqb (List.length ins) 0 || Nat.eqb (List.length outs) 0
        then NeedInputAndOutput
        else
          match newPublicKey (poolAddress s) with
          | None => SwapFailed
          | Some pool =>
              match legsOf c owner pool ins with
              | None => SwapFailed
              | Some inlets =>
                  match legsOf c owner pool outs with
                  | None => SwapFailed
                  | Some outlets =>
                      match AnySwap.swap (wallet c) pool inlets outlets None with
                      | Thrown _ => SwapFailed
                      | Returned tx => Submitted tx
                      end
                  end
              end
          end
  | _, _ => MissingFields
  end.

End Environment.

(** The token lists that the form can hold: loaded from a pool, then
    edited through the two handlers and cleared after a swap. *)
Inductive reachable : list TokenSwapItem -> Prop :=
| reach_load (infos : list (string * Z * string)) :
    reachable (map (fun i => loadedItem (fst (fst i)) (snd (fst i)) (snd i)) infos)
| reach_status m st ts :
    reachable ts -> reachable (handleStatusChange m st ts)
| reach_amount m v ts :
    reachable ts -> reachable (handleAmountChange m v ts)
| reach_clear ts :
    reachable ts -> reachable (clearAmounts ts).

End SwapForm.

(** ** The fee form of the documentation site ([ModifyFee.tsx]) *)

Module ModifyFeeForm.

Record FormState := mkForm {
  client : option SwapForm.ClientHandle;
  publicKey : option PublicKey;
  poolAddress : string;
  feeNumerator : string;
  feeDenominator : string
}.

Inductive Outcome :=
| MissingFields                       (* first early return *)
| InvalidFee                          (* second early return *)
| ModifyFailed                        (* an exception reached [catch] *)
| Submitted (call : ModifyFeeCall).   (* [client.modifyFee] sent the call *)

Section Environment.

(** [parseInt(str)], [None] for [NaN]. *)
Variable parseInt : string -> option Z.
(** [new PublicKey(str)], which throws on a malformed address. *)
Variable newPublicKey : string -> option PublicKey.

(** [handleModifyFee] *)
Definition handleModifyFee (s : FormState) : Outcome :=
  match client s, publicKey s with
  | Some c, Some _ =>
      if String.eqb (poolAddress s) EmptyString
      then MissingFields
      else
        match parseInt (feeNumerator s), parseInt (feeDenominator s) with
        | Some numerator, Some denominator =>
            if (numerator <? 0) || (denominator <=? 0)
            then InvalidFee
            else
              match newPublicKey (poolAddress s) with
              | None => ModifyFailed
              | Some pool =>
                  match BN_ofNumber numerator, BN_ofNumber denominator with
                  | Some n, Some d =>
                      Submitted (AnySwap.modifyFee (SwapForm.wallet c) pool n d None)
                  | _, _ => ModifyFailed
                  end
              end
        | _, _ => InvalidFee
        end
  | _, _ => MissingFields
  end.

End Environment.

End ModifyFeeForm.

(** ** The weight form of the documentation site ([ModifyTokenWeight.tsx]) *)

Module ModifyWeightForm.

Record FormState := mkForm {
  client : option SwapForm.ClientHandle;
  publicKey : option PublicKey;
  poolAddress : string;
  selectedMint : string;
  newWeight : string
}.

Inductive Outcome :=
| MissingFields
| InvalidWeight
| ModifyFailed
| Submitted (call : ModifyTokenWeightCall).

Section Environment.

Variable parseInt : string -> option Z.
Variable newPublicKey : string -> option PublicKey.

(** [handleModifyWeight] *)
Definition handleModifyWeight (s : FormState) : Outcome :=
  match client s, publicKey s with
  | Some c, Some _ =>
      if String.eqb (poolAddress s) EmptyString
         || String.eqb (selectedMint s) EmptyString
         || String.eqb (newWeight s) EmptyString
      then MissingFields
      else
        match parseInt (newWeight s) with
        | None => InvalidWeight
        | Some weightNum =>
            if weightNum <=? 0
            then InvalidWeight
            else
              match newPublicKey (selectedMint s) with
              | None => ModifyFailed
              | Some mint =>
                  match newPublicKey (poolAddress s) with
                  | None => ModifyFailed
                  | Some pool =>
                      match BN_ofNumber weightNum with
                      | None => ModifyFailed
                      | Some weight =>
                          Submitted (AnySwap.modifyTokenWeight (SwapForm.wallet c)
                                       pool [weight] [mint] None)
                      end
                  end
              end
        end
  | _, _ => MissingFields
  end.

End Environment.

End ModifyWeightForm.

(** ** The token form of the documentation site ([AddTokenToPool.tsx]) *)

Module AddTokenForm.

Record FormState := mkForm {
  client : option SwapForm.ClientHandle;
  publicKey : option PublicKey;
  poolAddress : string;
  connection : bool;
  selectedMint : string;
  customMint : string;
  weight : string;
  liquidity : string
}.

Inductive Outcome :=
| MissingFields
| MissingMint
| InvalidNumbers
| AddFailed
| Submitted (call : AddTokenToPoolCall).

Section Environment.

Variable Number : Type.
Variable parseInt : string -> option Z.
Variable parseFloat : string -> Number.
Variable isNaN : Number -> bool.
Variable isNegative : Number -> bool.            (* [x < 0] *)
Variable scaleFloor : Number -> Z -> Z.          (* [Math.floor(x * Math.pow(10, d))] *)
Variable newPublicKey : string -> option PublicKey.
(** The decimals that [token.getMint] reads. *)
Variable getMint : PublicKey -> option Z.
(** The pool account that [client.getPoolInfo(pool)] fetches, [None] where
    the call throws. *)
Variable fetchPool : PublicKey -> option Client.PoolAccount.

(** [customMint || selectedMint] *)
Definition mintAddressOf (s : FormState) : string :=
  if String.eqb (customMint s) EmptyString then selectedMint s else customMint s.

(** [handleAddToken] *)
Definition handleAddToken (s : FormState) : Outcome :=
  match client s, publicKey s with
  | Some c, Some _ =>
      if String.eqb (poolAddress s) EmptyString || negb (connection s)
      then MissingFields
      else
        let mintAddress := mintAddressOf s in
        if String.eqb mintAddress EmptyString
        then MissingMint
        else
          let liquidityNum := parseFloat (liquidity s) in
          match parseInt (weight s) with
          | None => InvalidNumbers
          | Some weightNum =>
              if isNaN liquidityNum || (weightNum <=? 0) || isNegative liquidityNum
              then InvalidNumbers
              else
                match newPublicKey mintAddress with
                | None => AddFailed
                | Some mint =>
                    match newPublicKey (poolAddress s) with
                    | None => AddFailed
                    | Some pool =>
                        match getMint mint with
                        | None => AddFailed
                        | Some decimals =>
                            let liquidityInSmallestUnit :=
                              scaleFloor liquidityNum decimals in
                            match fetchPool pool with
                            | None => AddFailed
                            | Some poolInfo =>
                                let existingVaults :=
                                  map Client.vaultAccount
                                      (AnySwap.getPoolInfo_tokens poolInfo) in
                                match BN_ofNumber weightNum,
                                      BN_ofNumber liquidityInSmallestUnit with
                                | Some w, Some l =>
                                    Submitted
                                      (AnySwap.addTokenToPool (SwapForm.wallet c)
                                         pool mint w l existingVaults None)
                                | _, _ => AddFailed
                                end
                            end
                        end
                    end
                end
          end
  | _, _ => MissingFields
  end.

End Environment.

End AddTokenForm.

(** ** The liquidity form of the documentation site ([AddLiquidity]) *)

Module AddLiquidityForm.

Record TokenInput := mkInput {
  mint : string;
  amount : string;
  decimals : Z;
  weight : string
}.

Record FormState := mkForm {
  client : option SwapForm.ClientHandle;
  publicKey : option PublicKey;
  poolAddress : string;
  connection : bool;
  signTransaction : bool;
  tokenInputs : list TokenInput
}.

(** The arguments of the call [client.addLiquidity(pool, amounts,
    userTokenAccounts, vaultAccounts)]. *)
Record AddLiquidityArgs := mkArgs {
  al_pool : PublicKey;
  al_amounts : list BN;
  al_userTokenAccounts : list PublicKey;
  al_vaultAccounts : list PublicKey
}.

Inductive Outcome :=
| MissingFields
| InvalidAmounts
| AddFailed
| Called (args : AddLiquidityArgs).

Section Environment.

Variable Number : Type.
Variable parseFloat : string -> Number.
Variable isNonPositive : Number -> bool.         (* [x <= 0] *)
Variable scaleFloor : Number -> Z -> Z.          (* [Math.floor(x * Math.pow(10, d))] *)
Variable newPublicKey : string -> option PublicKey.
Variable getAssociatedTokenAddress : PublicKey -> PublicKey -> option PublicKey.
(** Whether the account of the LP token is there or its creation goes
    through; [false] where a step throws. *)
Variable lpAccountReady : PublicKey -> bool.

(** [tokenInputs.some(t => !t.amount || parseFloat(t.amount) <= 0)] *)
Definition hasEmptyAmount (inputs : list TokenInput) : bool :=
  existsb (fun t => String.eqb (amount t) EmptyString
                    || isNonPositive (parseFloat (amount t))) inputs.

(** The loop that fills [amounts], [userTokenAccounts] and
    [vaultAccounts]; [None] when a call throws. *)
Fixpoint collect (c : SwapForm.ClientHandle) (owner pool : PublicKey)
    (inputs : list TokenInput)
    : option (list BN * list PublicKey * list PublicKey) :=
  match inputs with
  | [] => Some ([], [], [])
  | input :: rest =>
      match newPublicKey (mint input) with
      | None => None
      | Some mintKey =>
          let amountInSmallestUnit :=
            scaleFloor (parseFloat (amount input)) (decimals input) in
          match BN_ofNumber amountInSmallestUnit with
          | None => None
          | Some amountBN =>
              match getAssociatedTokenAddress mintKey owner with
              | None => None
              | Some userTokenAccount =>
                  match AnySwap.getVault (SwapForm.programId c) pool mintKey with
                  | inr _ => None
                  | inl vault =>
                      match collect c owner pool rest with
                      | None => None
                      | Some (amounts, userTokenAccounts, vaultAccounts) =>
                          Some (amountBN :: amounts,
                                userTokenAccount :: userTokenAccounts,
                                vault :: vaultAccounts)
                      end
                  end
              end
          end
      end
  end.

(** [handleAddLiquidity] *)
Definition handleAddLiquidity (s : FormState) : Outcome :=
  match client s, publicKey s with
  | Some c, Some owner =>
      if String.eqb (poolAddress s) EmptyString || negb (connection s)
         || negb (signTransaction s)
      then MissingFields
      else if hasEmptyAmount (tokenInputs s)
      then InvalidAmounts
      else
        match newPublicKey (poolAddress s) with
        | None => AddFailed
        | Some pool =>
            match AnySwap.getPoolMint (SwapForm.programId c) pool with
            | inr _ => AddFailed
            | inl poolMint =>
                match getAssociatedTokenAddress poolMint owner with
                | None => AddFailed
                | Some userPoolAta =>
                    if lpAccountReady userPoolAta
                    then
                      match collect c owner pool (tokenInputs s) with
                      | None => AddFailed
                      | Some (amounts, userTokenAccounts, vaultAccounts) =>
                          Called (mkArgs pool amounts userTokenAccounts vaultAccounts)
                      end
                    else AddFailed
                end
            end
        end
  | _, _ => MissingFields
  end.

End Environment.

End AddLiquidityForm.

(** ** The storage context of the documentation site
    ([StorageContext.tsx]) *)

Module Storage.

Record CreatedTokenInfo := mkCreatedToken {
  name : string;
  symbol : string;
  decimals : Z;
  mint : string
}.

(** The two React states and the two [localStorage] items of one tab; an
    item holds the list that [JSON.stringify] wrote, [None] where it is
    absent. The listener for the [storage] events of other tabs is not
    part of the model. *)
Record State := mkState {
  pools : list string;
  tokens : list CreatedTokenInfo;
  savedPools : option (list string);
  savedTokens : option (list CreatedTokenInfo)
}.

(** The state after the first effect has read the two items. *)
Definition mount (storedPools : option (list string))
    (storedTokens : option (list CreatedTokenInfo)) : State :=
  mkState match storedPools with Some l => l | None => [] end
          match storedTokens with Some l => l | None => [] end
          storedPools storedTokens.

(** The updater that [addPool(pool)] hands to [setPools]: from the list
    [prev] that React passes in, the list it returns and the list it gives
    to [localStorage.setItem], if it writes. *)
Definition addPoolUpdater (pool : string) (prev : list string)
    : list string * option (list string) :=
  if existsb (fun p => String.eqb p pool) prev
  then (prev, None)
  else
    let updated := prev ++ [pool] in
    (updated, Some updated).

(** [addPool(pool)] as the only call of its event: React runs the updater
    on the list of the state before the next event begins, so the write of
    the updater lands before any later call. (Several calls within one
    event are outside this definition: React may run a queued updater, and
    with it [setItem], after the [removeItem] of a later [clearPools].) *)
Definition addPool (pool : string) (st : State) : State :=
  match addPoolUpdater pool (pools st) with
  | (_, None) => st
  | (updated, Some written) =>
      mkState updated (tokens st) (Some written) (savedTokens st)
  end.

(** [clearPools()]: [setPools([])], then [removeItem] at once. *)
Definition clearPools (st : State) : State :=
  mkState [] (tokens st) None (savedTokens st).

(** The updater that [addToken(token)] hands to [setTokens]. *)
Definition addTokenUpdater (token : CreatedTokenInfo) (prev : list CreatedTokenInfo)
    : list CreatedTokenInfo * option (list CreatedTokenInfo) :=
  if existsb (fun t => String.eqb (mint t) (mint token)) prev
  then (prev, None)
  else
    let updated := prev ++ [token] in
    (updated, Some updated).

(** [addToken(token)] as the only call of its event, as [addPool]. *)
Definition addToken (token : CreatedTokenInfo) (st : State) : State :=
  match addTokenUpdater token (tokens st) with
  | (_, None) => st
  | (updated, Some written) =>
      mkState (pools st) updated (savedPools st) (Some written)
  end.

(** [clearTokens()]: [setTokens([])], then [removeItem] at once. *)
Definition clearTokens (st : State) : State :=
  mkState (pools st) [] (savedPools st) None.

(** The operations that the context hands to the components. The
    components call one of them per event: [CreatePool] calls [addPool]
    once a pool has been created, [CreateToken] calls [addToken] once a
    mint has been created, [PoolList] and [TokenList] call [clearPools]
    and [clearTokens] from a button. *)
Inductive Action :=
| AddPool (pool : string)
| ClearPools
| AddToken (token : CreatedTokenInfo)
| ClearTokens.

(** One event with one call. *)
Definition step (st : State) (a : Action) : State :=
  match a with
  | AddPool pool => addPool pool st
  | ClearPools => clearPools st
  | AddToken token => addToken token st
  | ClearTokens => clearTokens st
  end.

(** A sequence of events, one call each. *)
Definition run (actions : list Action) (st : State) : State :=
  fold_left step actions st.

End Storage.

(** ** The pool engine

    The on-chain program is not part of the sources; only its clients and
    its tests are.  The engine is therefore embedded from the
    specification (sections 3, 4 and 7). *)

Module Engine.

Definition AssetId := nat.
Definition Identity := nat.

(** The pool account of the clients reserves room for 1024 slots of 72
    bytes ([poolSpace]). *)
Definition CAPACITY : nat := 1024.

Inductive Error :=
| UnknownAsset | DuplicateAsset | ToleranceViolated | InvariantUnsolvable
| BudgetExceeded | Unauthorized | NonEmptyVault | InsufficientReserve
| InvalidParameter.

(** An operation commits with a value or is rejected with an error, in
    which case no state is produced. *)
Inductive result (A : Type) : Type :=
| Ok (a : A)
| Err (e : Error).
Arguments Ok {A} a.
Arguments Err {A} e.

(** Modelled from the spec: the pool account layout of the on-chain
    program is missing; this is the slot [{assetId, vaultRef, weight}] of
    section 3. Each slot maps 1:1 to a Vault, so the balance of the Vault
    is kept in the slot as [reserve]. *)
Record Slot := mkSlot {
  assetId : AssetId;
  weight : Z;
  reserve : Z
}.

(** Modelled from the spec: the pool account of the on-chain program is
    missing; this is the Pool record of section 3; [assetCount]
    is the length of [assets]. *)
Record Pool := mkPool {
  admin : Identity;
  feeNumerator : Z;
  feeDenominator : Z;
  assets : list Slot;
  lpShareSupply : Z
}.

Definition assetCount (p : Pool) : nat := List.length (assets p).

Definition withAssets (p : Pool) (slots : list Slot) : Pool :=
  mkPool (admin p) (feeNumerator p) (feeDenominator p) slots (lpShareSupply p).

Definition withReserve (s : Slot) (r : Z) : Slot :=
  mkSlot (assetId s) (weight s) r.

Definition findSlot (a : AssetId) (slots : list Slot) : option Slot :=
  find (fun s => Nat.eqb (assetId s) a) slots.

(** The balance of the Vault of asset [a]. *)
Definition reserveOf (p : Pool) (a : AssetId) : option Z :=
  option_map reserve (findSlot a (assets p)).

Definition registered (p : Pool) (a : AssetId) : bool :=
  match findSlot a (assets p) with Some _ => true | None => false end.

(** The invariants of the data model (section 3). *)
Record wf_pool (p : Pool) : Prop := {
  wf_fee_num : 0 <= feeNumerator p;
  wf_fee_den : 0 < feeDenominator p;
  wf_count : (assetCount p <= CAPACITY)%nat;
  wf_unique : NoDup (map assetId (assets p));
  wf_weight : Forall (fun s => 0 < weight s) (assets p);
  wf_reserve : Forall (fun s => 0 <= reserve s) (assets p);
  wf_supply : 0 <= lpShareSupply p
}.

(** *** The invariant *)

(** Modelled from the spec: the invariant of the on-chain program is
    missing; this is [K], the product over the slots of
    [reserve ^ weight] (section 4.1). *)
Definition invariantProduct (slots : list Slot) : Z :=
  fold_right (fun s acc => reserve s ^ weight s * acc) 1 slots.

(** Modelled from the spec: the invariant of the on-chain program is
    missing; this is [log K], the sum over the slots of
    [weight * ln reserve] (section 4.1).  [ln] is the logarithm of the
    standard library, which is [0] at [0]. *)
Definition logInvariant (slots : list Slot) : R :=
  fold_right (fun s acc => (IZR (weight s) * ln (IZR (reserve s)) + acc)%R) 0%R slots.

(** *** The swap *)

(** Modelled from the spec: the fee computation of the on-chain swap is
    missing; this is the fee on an input amount,
    [amountIn * feeNumerator / feeDenominator], truncating. *)
Definition feeOf (p : Pool) (amountIn : Z) : Z :=
  amountIn * feeNumerator p / feeDenominator p.

Definition netOf (p : Pool) (amountIn : Z) : Z := amountIn - feeOf p amountIn.

(** An output entry either carries its amount or is the one to solve
    for, with the minimum that the caller accepts. *)
Inductive OutputSpec :=
| Exact (amount : Z)
| Solve (minimum : Z).

Record SwapRequest := mkRequest {
  inputs : list (AssetId * Z);
  outputs : list (AssetId * OutputSpec)
}.

Inductive Role :=
| RoleIn (gross : Z)
| RoleExact (amount : Z)
| RoleSolve (minimum : Z).

Definition roleOf (req : SwapRequest) (a : AssetId) : option Role :=
  match find (fun e => Nat.eqb (fst e) a) (inputs req) with
  | Some (_, gross) => Some (RoleIn gross)
  | None =>
      match find (fun e => Nat.eqb (fst e) a) (outputs req) with
      | Some (_, Exact amount) => Some (RoleExact amount)
      | Some (_, Solve minimum) => Some (RoleSolve minimum)
      | None => None
      end
  end.

Definition participants (req : SwapRequest) : list AssetId :=
  map fst (inputs req) ++ map fst (outputs req).

Definition isSolve (o : AssetId * OutputSpec) : bool :=
  match snd o with Solve _ => true | Exact _ => false end.

Definition specAmount (o : OutputSpec) : Z :=
  match o with Exact x => x | Solve m => m end.

Fixpoint distinct (l : list AssetId) : bool :=
  match l with
  | [] => true
  | a :: rest => negb (existsb (Nat.eqb a) rest) && distinct rest
  end.

(** Modelled from the spec: the checks of the on-chain instruction
    [swapAnyswap] are missing; this is the Validate step of section 4.2, in the
    order of its sentence, after the shape of the request (amounts are
    unsigned, at most one output is left to solve). *)
Definition validate (budget : nat) (p : Pool) (req : SwapRequest) : option Error :=
  if Nat.eqb (List.length (inputs req)) 0 || Nat.eqb (List.length (outputs req)) 0
  then Some InvalidParameter
  else if negb (forallb (fun e => 0 <=? snd e) (inputs req))
          || negb (forallb (fun e => 0 <=? specAmount (snd e)) (outputs req))
          || Nat.ltb 1 (List.length (filter isSolve (outputs req)))
  then Some InvalidParameter
  else if negb (distinct (participants req)) then Some DuplicateAsset
  else if negb (forallb (registered p) (participants req)) then Some UnknownAsset
  else if Nat.ltb budget (List.length (participants req)) then Some BudgetExceeded
  else None.

(** The slots that the request touches. *)
Definition touched (req : SwapRequest) (slots : list Slot) : list Slot :=
  filter (fun s => match roleOf req (assetId s) with Some _ => true | None => false end)
         slots.

(** The working reserve of a slot: inputs are credited net of fee,
    specified outputs are debited, the solved output holds [y]. *)
Definition newReserve (p : Pool) (req : SwapRequest) (y : Z) (s : Slot) : Z :=
  match roleOf req (assetId s) with
  | Some (RoleIn gross) => reserve s + netOf p gross
  | Some (RoleExact amount) => reserve s - amount
  | Some (RoleSolve _) => y
  | None => reserve s
  end.

Definition working (p : Pool) (req : SwapRequest) (y : Z) (slots : list Slot) : list Slot :=
  map (fun s => withReserve s (newReserve p req y s)) slots.

(** Whether the invariant over the working reserves, with [y] as the
    reserve of the solved output, is at least the invariant before the
    swap.  Only the touched slots are evaluated. *)
Definition preserves (p : Pool) (req : SwapRequest) (y : Z) : bool :=
  invariantProduct (touched req (assets p))
  <=? invariantProduct (working p req y (touched req (assets p))).

(** Bounded bisection for the least value in [lo..hi] that satisfies a
    monotone test which holds at [hi]. *)
Fixpoint bisect (ok : Z -> bool) (fuel : nat) (lo hi : Z) : Z :=
  match fuel with
  | O => hi
  | S fuel' =>
      if lo <? hi then
        let mid := (lo + hi) / 2 in
        if ok mid then bisect ok fuel' lo mid else bisect ok fuel' (mid + 1) hi
      else hi
  end.

Definition leastReserve (ok : Z -> bool) (hi : Z) : Z :=
  bisect ok (S (Z.to_nat (Z.log2_up hi))) 1 hi.

Definition solveTarget (req : SwapRequest) : option (AssetId * Z) :=
  match find isSolve (outputs req) with
  | Some (a, spec) => Some (a, specAmount spec)
  | None => None
  end.

(** Modelled from the spec: the solver of the on-chain instruction
    [swapAnyswap] is missing; this is [quoteSwap] (section 4.1).  The result is the
    reserve that the solved output is left with; without a solved output
    it is not used.  An input whose fee exceeds its amount has no unsigned
    net amount; the logarithm needs every touched reserve, before and
    after, to be positive; the payout of the solved output is the largest
    one that does not lower the invariant, that is, it is rounded down. *)
Definition quoteSwap (p : Pool) (req : SwapRequest) : result Z :=
  if negb (forallb (fun e => 0 <=? netOf p (snd e)) (inputs req))
  then Err InvalidParameter
  else if negb (forallb (fun s => 0 <? reserve s) (touched req (assets p)))
  then Err InvariantUnsolvable
  else
    match solveTarget req with
    | None =>
        if negb (forallb (fun s => 0 <? reserve s)
                         (working p req 0 (touched req (assets p))))
        then Err InsufficientReserve
        else if preserves p req 0 then Ok 0 else Err InvariantUnsolvable
    | Some (a, minimum) =>
        match reserveOf p a with
        | None => Err UnknownAsset
        | Some r =>
            if negb (forallb (fun s => 0 <? reserve s)
                             (working p req r (touched req (assets p))))
            then Err InsufficientReserve
            else if preserves p req r
            then Ok (leastReserve (preserves p req) r)
            else Err InvariantUnsolvable
        end
    end.

(** The amount that an output entry settles at. *)
Definition settledOf (p : Pool) (y : Z) (o : AssetId * OutputSpec) : AssetId * Z :=
  match snd o with
  | Exact amount => (fst o, amount)
  | Solve _ =>
      (fst o, match reserveOf p (fst o) with Some r => r - y | None => 0 end)
  end.

Definition meetsTolerance (settled : Z) (o : AssetId * OutputSpec) : bool :=
  match snd o with
  | Exact _ => true
  | Solve minimum => minimum <=? settled
  end.

(** Modelled from the spec: the on-chain instruction [swapAnyswap] is
    missing; this is the Swap Engine of section 4.2,
    [Validate], [Solve], [Settle], [Commit].  A rejected call yields no
    pool. *)
Definition swap (budget : nat) (p : Pool) (req : SwapRequest)
    : result (Pool * list (AssetId * Z)) :=
  match validate budget p req with
  | Some e => Err e
  | None =>
      match quoteSwap p req with
      | Err e => Err e
      | Ok y =>
          let settled := map (settledOf p y) (outputs req) in
          if forallb (fun o => meetsTolerance (snd (settledOf p y o)) o) (outputs req)
          then Ok (withAssets p (working p req y (assets p)), settled)
          else Err ToleranceViolated
      end
  end.

(** A sequence of swap calls; a rejected call leaves the pool as it
    was. *)
Fixpoint swaps (budget : nat) (p : Pool) (reqs : list SwapRequest) : Pool :=
  match reqs with
  | [] => p
  | req :: rest =>
      match swap budget p req with
      | Ok (p', _) => swaps budget p' rest
      | Err _ => swaps budget p rest
      end
  end.

(** *** Liquidity *)

Fixpoint minimum (l : list Z) : option Z :=
  match l with
  | [] => None
  | x :: rest =>
      match minimum rest with
      | None => Some x
      | Some m => Some (Z.min x m)
      end
  end.

(** The shares that each contribution would earn on its own:
    [amount * lpShareSupply / reserve], rounded down.  An asset without
    reserve has no ratio. *)
Fixpoint shareRatios (supply : Z) (slots : list Slot) (amounts : list Z) : list Z :=
  match slots, amounts with
  | s :: slots', c :: amounts' =>
      if 0 <? reserve s
      then c * supply / reserve s :: shareRatios supply slots' amounts'
      else shareRatios supply slots' amounts'
  | _, _ => []
  end.

Fixpoint deposit (slots : list Slot) (amounts : list Z) : list Slot :=
  match slots, amounts with
  | s :: slots', c :: amounts' =>
      withReserve s (reserve s + c) :: deposit slots' amounts'
  | _, _ => slots
  end.

(** Modelled from the spec: the on-chain instruction [removeLiquidity] is
    missing; this is [quoteLiquidityDelta] for a burn,
    [withdraw_i = reserve_i * burnShares / lpShareSupply], rounded
    down. *)
Definition quoteWithdrawals (p : Pool) (burnShares : Z) : list Z :=
  map (fun s => reserve s * burnShares / lpShareSupply p) (assets p).

Fixpoint withdraw (slots : list Slot) (amounts : list Z) : list Slot :=
  match slots, amounts with
  | s :: slots', w :: amounts' =>
      withReserve s (reserve s - w) :: withdraw slots' amounts'
  | _, _ => slots
  end.

Section Liquidity.

(** The shares of the first contribution to an empty pool: "a
    normalized function of the contributed reserves", which the
    specification leaves open. *)
Variable initialShares : list Slot -> list Z -> Z.

(** Modelled from the spec: the share computation of the on-chain
    instruction [addLiquidity] is missing; this is [quoteLiquidityDelta]
    for a contribution,
    the minimum proportional ratio achieved across the assets. *)
Definition quoteMintedShares (p : Pool) (amounts : list Z) : option Z :=
  if lpShareSupply p =? 0
  then Some (initialShares (assets p) amounts)
  else minimum (shareRatios (lpShareSupply p) (assets p) amounts).

(** Modelled from the spec: the on-chain instruction [addLiquidity] is
    missing; this is [addLiquidity] of section 4.3: an amount for
    every occupied slot is pulled into its Vault and the quoted shares
    are minted. *)
Definition addLiquidity (p : Pool) (amounts : list Z) : result (Pool * Z) :=
  if negb (Nat.eqb (List.length amounts) (assetCount p))
     || negb (forallb (fun c => 0 <=? c) amounts)
  then Err InvalidParameter
  else
    match quoteMintedShares p amounts with
    | None => Err InvalidParameter
    | Some minted =>
        Ok (mkPool (admin p) (feeNumerator p) (feeDenominator p)
                   (deposit (assets p) amounts) (lpShareSupply p + minted),
            minted)
    end.

End Liquidity.

(** Modelled from the spec: the on-chain instruction [removeLiquidity] is
    missing; this is [removeLiquidity] of section 4.3: the shares
    are burned and the proportional amount of every Vault is
    withdrawn. *)
Definition removeLiquidity (p : Pool) (burnShares : Z) : result (Pool * list Z) :=
  if (burnShares <? 0) || (lpShareSupply p <=? 0)
  then Err InvalidParameter
  else if lpShareSupply p <? burnShares
  then Err InsufficientReserve
  else
    let amounts := quoteWithdrawals p burnShares in
    Ok (mkPool (admin p) (feeNumerator p) (feeDenominator p)
               (withdraw (assets p) amounts) (lpShareSupply p - burnShares),
        amounts).

(** Contributions in the proportion [n : d] of the reserves. *)
Definition proportional (slots : list Slot) (amounts : list Z) : Prop :=
  exists n d, 0 <= n /\ 0 < d /\
    Forall2 (fun s c => c * d = reserve s * n) slots amounts.

(** *** Registration of an asset *)



Section Governance.

(** Modelled from the spec: the seed computation of the on-chain
    instruction [addTokenToPool] is missing; this is [quoteSeedLiquidity]
    (section 4.1), the
    reserve that a new asset of the given weight must be seeded with;
    the specification names the invariant family and gives no
    formula. *)
Variable quoteSeedLiquidity : list Slot -> Z -> Z.


End Governance.

End Engine.

(** * Properties *)

(** ** The compute budget of [AnySwap.swap] *)

Lemma intos_length (inlets outlets : list AnySwap.Leg) :
  List.length (AnySwap.intos_of inlets outlets)
  = (List.length inlets + List.length outlets)%nat.
Proof.
  unfold AnySwap.intos_of. now rewrite length_app, !length_map.
Qed.

Lemma swap_by_count wallet pool inlets outlets owner :
  AnySwap.swap wallet pool inlets outlets owner
  = match AnySwap.cu_of (List.length inlets + List.length outlets) with
    | Thrown msg => Thrown msg
    | Returned cu =>
        Returned (AnySwap.mkSwapTx pool (orWallet owner wallet)
                    (map AnySwap.into_amount (AnySwap.intos_of inlets outlets))
                    (map AnySwap.isIn (AnySwap.intos_of inlets outlets))
                    (AnySwap.accounts_of (AnySwap.intos_of inlets outlets)) cu)
    end.
Proof.
  unfold AnySwap.swap. now rewrite intos_length.
Qed.

Lemma Returned_inj (A : Type) (a b : A) : Returned a = Returned b -> a = b.
Proof. intros H. injection H. auto. Qed.

Lemma BN_ofNumber_Some (number : Z) (value : BN) :
  BN_ofNumber number = Some value -> value = number /\ Z.abs number < 2 ^ 53.
Proof.
  unfold BN_ofNumber.
  destruct (Z.ltb_spec (Z.abs number) (2 ^ 53)) as [Hlt|]; [|discriminate].
  intros E. injection E as <-. split; [reflexivity|exact Hlt].
Qed.

Lemma NoDup_snoc (A : Type) (l : list A) (x : A) :
  NoDup l -> ~ In x l -> NoDup (l ++ [x]).
Proof.
  intros Hl Hx. apply NoDup_app; [exact Hl|repeat constructor; auto|].
  intros y Hy [<-|[]]. contradiction.
Qed.

Lemma cu_of_two : AnySwap.cu_of 2 = Returned 400000.
Proof. reflexivity. Qed.

Lemma cu_of_three_to_six (n : nat) :
  (3 <= n <= 6)%nat ->
  AnySwap.cu_of n = Returned (400000 + 200000 * Z.of_nat n).
Proof.
  intros Hn. unfold AnySwap.cu_of.
  destruct (Nat.eqb n 2) eqn:E2.
  - apply Nat.eqb_eq in E2. lia.
  - destruct (Nat.leb n 6) eqn:E6; [reflexivity|].
    apply Nat.leb_gt in E6. lia.
Qed.

Lemma cu_of_above_six (n : nat) :
  (6 < n)%nat -> AnySwap.cu_of n = Thrown "Too many tokens to swap".
Proof.
  intros Hn. unfold AnySwap.cu_of.
  destruct (Nat.eqb n 2) eqn:E2.
  - apply Nat.eqb_eq in E2. lia.
  - destruct (Nat.leb n 6) eqn:E6; [|reflexivity].
    apply Nat.leb_le in E6. lia.
Qed.

(** C9. [AnySwap.swap] with more than six participating tokens throws
    "Too many tokens to swap" and hands no transaction over; with exactly
    two tokens the transaction carries a compute-unit limit of 400000, with
    three to six tokens a limit of 400000 + 200000 * count. *)
Theorem swap_compute_unit_limit :
  forall (wallet pool : PublicKey) (inlets outlets : list AnySwap.Leg)
         (owner : option PublicKey) (n : nat),
    n = (List.length inlets + List.length outlets)%nat ->
    ((6 < n)%nat ->
       AnySwap.swap wallet pool inlets outlets owner
       = Thrown "Too many tokens to swap") /\
    (n = 2%nat ->
       exists tx, AnySwap.swap wallet pool inlets outlets owner = Returned tx
                  /\ AnySwap.units tx = 400000) /\
    ((3 <= n <= 6)%nat ->
       exists tx, AnySwap.swap wallet pool inlets outlets owner = Returned tx
                  /\ AnySwap.units tx = 400000 + 200000 * Z.of_nat n).
Proof.
  intros wallet pool inlets outlets owner n Hn.
  rewrite swap_by_count, <- Hn.
  split; [|split].
  - intros Hgt. now rewrite (cu_of_above_six n Hgt).
  - intros ->. rewrite cu_of_two. eexists. split; reflexivity.
  - intros Hmid. rewrite (cu_of_three_to_six n Hmid).
    eexists. split; reflexivity.
Qed.

Definition sampleLeg : AnySwap.Leg := AnySwap.mkLeg 5 [x01] [x02].

Lemma swap_compute_unit_limit_witness :
  AnySwap.swap [x09] [x08] (repeat sampleLeg 4) (repeat sampleLeg 3) None
  = Thrown "Too many tokens to swap"
  /\ (exists tx, AnySwap.swap [x09] [x08] [sampleLeg] [sampleLeg] None = Returned tx
                 /\ AnySwap.units tx = 400000)
  /\ (exists tx, AnySwap.swap [x09] [x08] (repeat sampleLeg 2) (repeat sampleLeg 3) None
                 = Returned tx
                 /\ AnySwap.units tx = 400000 + 200000 * Z.of_nat 5).
Proof.
  split; [|split].
  - apply (proj1 (swap_compute_unit_limit [x09] [x08] (repeat sampleLeg 4)
                    (repeat sampleLeg 3) None 7%nat eq_refl)).
    simpl. lia.
  - apply (proj1 (proj2 (swap_compute_unit_limit [x09] [x08] [sampleLeg]
                           [sampleLeg] None 2%nat eq_refl))).
    reflexivity.
  - apply (proj2 (proj2 (swap_compute_unit_limit [x09] [x08] (repeat sampleLeg 2)
                           (repeat sampleLeg 3) None 5%nat eq_refl))).
    simpl. lia.
Defined.

(** The limit for every count, including the counts below two that the
    method does not refuse. *)
Lemma swap_units_all_counts wallet pool inlets outlets owner tx :
  AnySwap.swap wallet pool inlets outlets owner = Returned tx ->
  AnySwap.cu_of (List.length inlets + List.length outlets)
  = Returned (AnySwap.units tx).
Proof.
  rewrite swap_by_count.
  destruct (AnySwap.cu_of _) as [cu|msg]; [|discriminate].
  intros H. apply Returned_inj in H. now rewrite <- H.
Qed.

(** ** The two forms of [modifyTokenWeight] *)

(** A call is batched when its argument is an array of weights. *)
Definition batched (c : ModifyTokenWeightCall) : Prop :=
  exists newWeights, mw_args c = WeightArray newWeights.

(** C7, as stated, fails: the [AdminClient] builds a single-asset call. *)
Lemma adminClient_modifyTokenWeight_single :
  ~ (forall wallet pool mint newWeight admin,
       batched (AdminClient.modifyTokenWeight wallet pool mint newWeight admin)).
Proof.
  intros H. destruct (H [x01] [x02] [x03] 40 None) as [ws Hws].
  discriminate Hws.
Qed.

(** C7, amended. [AnySwap.modifyTokenWeight] is batched: it passes the
    array of weights as the argument and the mints, in the same order and
    of any number, as remaining accounts, naming no mint account; the
    [AdminClient] method is a single-asset form, with one weight as the
    argument and the mint as a named account. *)
Theorem modifyTokenWeight_forms :
  forall (wallet pool : PublicKey) (newWeights : list BN)
         (mints : list PublicKey) (admin : option PublicKey)
         (mint : PublicKey) (newWeight : BN),
    let batch := AnySwap.modifyTokenWeight wallet pool newWeights mints admin in
    let single := AdminClient.modifyTokenWeight wallet pool mint newWeight admin in
    batched batch
    /\ mw_args batch = WeightArray newWeights
    /\ map pubkey (mw_remainingAccounts batch) = mints
    /\ mw_mint batch = None
    /\ mw_args single = WeightSingle newWeight
    /\ mw_mint single = Some mint
    /\ mw_remainingAccounts single = []
    /\ ~ batched single.
Proof.
  intros. subst batch single. simpl.
  repeat split.
  - now exists newWeights.
  - rewrite map_map. simpl. apply map_id.
  - intros [ws Hws]. discriminate Hws.
Qed.

(** ** The seed liquidity that the client computes *)

(** The weighted product of the vault balances of a pool, the invariant
    that the swap path documents. *)
Definition vaultProduct (getAccount : PublicKey -> option Z)
    (toks : list Client.AnySwapPoolToken) : Z :=
  fold_right
    (fun t acc =>
       match getAccount (Client.vaultAccount t) with
       | Some balance => balance ^ Client.weight t * acc
       | None => 0
       end) 1 toks.

(** The seed is derived from the product invariant when two states of the
    vaults of one pool with the same product call for the same seed. *)
Definition seed_follows_product_invariant : Prop :=
  forall (getAccount getAccount' : PublicKey -> option Z)
         (poolAccount : Client.PoolAccount) (weight : BN),
    vaultProduct getAccount (Client.getPool_tokens poolAccount)
    = vaultProduct getAccount' (Client.getPool_tokens poolAccount) ->
    Client.calculateRequiredWSOLLiquidity getAccount poolAccount weight
    = Client.calculateRequiredWSOLLiquidity getAccount' poolAccount weight.

(** The arithmetic weighted sum of balances. *)
Fixpoint weightedSum (balances weights : list Z) : Z :=
  match balances, weights with
  | b :: balances', w :: weights' => b * w + weightedSum balances' weights'
  | _, _ => 0
  end.

Definition vaultX : PublicKey := [x0a].
Definition vaultY : PublicKey := [x0b].

Definition poolXY : Client.PoolAccount :=
  Client.mkPoolAccount
    [Client.mkToken vaultX [x01] 20; Client.mkToken vaultY [x02] 40;
     Client.mkToken [] [] 0] 2.

Definition balancesXY (x y : Z) (k : PublicKey) : option Z :=
  match k with
  | [x0a] => Some x
  | [x0b] => Some y
  | _ => None
  end.

(** C3, as stated, fails: with weights 20 and 40, the reserves
    (10000, 20000) and (40000, 10000) lie on the same product curve, and
    the seed for a new asset of weight 30 is 33333 for the first and 40000
    for the second. *)
Lemma seed_not_from_product_invariant : ~ seed_follows_product_invariant.
Proof.
  intros H.
  specialize (H (balancesXY 10000 20000) (balancesXY 40000 10000) poolXY 30).
  assert (E : vaultProduct (balancesXY 10000 20000) (Client.getPool_tokens poolXY)
              = vaultProduct (balancesXY 40000 10000) (Client.getPool_tokens poolXY))
    by (vm_compute; reflexivity).
  specialize (H E). vm_compute in H. discriminate H.
Qed.

Lemma accumulateBase_sum getAccount toks balances base :
  map (fun t => getAccount (Client.vaultAccount t)) toks = map Some balances ->
  Client.accumulateBase getAccount toks base
  = Some (base + weightedSum balances (map Client.weight toks)).
Proof.
  revert balances base.
  induction toks as [|t toks IH]; intros balances base H.
  - destruct balances; [|discriminate]. simpl. f_equal. lia.
  - destruct balances as [|b balances]; [discriminate|].
    simpl in H. injection H as Hb Hrest.
    simpl. rewrite Hb, (IH balances _ Hrest). f_equal. lia.
Qed.

Lemma weightedSum_nonneg balances weights :
  Forall (fun b => 0 <= b) balances ->
  Forall (fun w => 0 <= w) weights ->
  0 <= weightedSum balances weights.
Proof.
  intros Hb. revert weights.
  induction Hb as [|b balances Hb0 _ IH]; intros weights Hw; simpl; [lia|].
  destruct Hw as [|w weights Hw0 Hw]; [lia|].
  specialize (IH weights Hw). nia.
Qed.

(** C3, amended. The seed that [calculateRequiredWSOLLiquidity] returns is
    the arithmetic weighted sum of the vault balances of the tokens in use,
    divided by the new weight and rounded down. *)
Theorem seed_is_arithmetic_weighted_sum :
  forall (getAccount : PublicKey -> option Z) (poolAccount : Client.PoolAccount)
         (weight : BN) (balances : list Z),
    map (fun t => getAccount (Client.vaultAccount t))
        (Client.getPool_tokens poolAccount) = map Some balances ->
    Forall (fun b => 0 <= b) balances ->
    Forall (fun t => 0 <= Client.weight t) (Client.getPool_tokens poolAccount) ->
    0 < weight ->
    let base := weightedSum balances
                  (map Client.weight (Client.getPool_tokens poolAccount)) in
    Client.calculateRequiredWSOLLiquidity getAccount poolAccount weight
    = Some (base / weight)
    /\ (base / weight) * weight <= base < (base / weight + 1) * weight.
Proof.
  intros getAccount poolAccount weight balances Hread Hbal Hw Hpos base.
  assert (Hbase : 0 <= base).
  { apply weightedSum_nonneg; [exact Hbal|].
    rewrite Forall_map. exact Hw. }
  split.
  - unfold Client.calculateRequiredWSOLLiquidity.
    rewrite (accumulateBase_sum _ _ _ _ Hread). fold base.
    unfold Client.BN_div.
    destruct (Z.eqb_spec weight 0); [lia|].
    rewrite Z.add_0_l, Z.quot_div_nonneg by lia. reflexivity.
  - pose proof (Z.div_mod base weight ltac:(lia)).
    pose proof (Z.mod_pos_bound base weight Hpos). nia.
Qed.

Lemma seed_is_arithmetic_weighted_sum_witness :
  Client.calculateRequiredWSOLLiquidity (balancesXY 10000 20000) poolXY 30
  = Some 33333
  /\ 33333 * 30 <= 1000000 < 33334 * 30.
Proof.
  apply (seed_is_arithmetic_weighted_sum (balancesXY 10000 20000) poolXY 30
           [10000; 20000]).
  - reflexivity.
  - repeat constructor; lia.
  - repeat constructor; simpl; lia.
  - lia.
Defined.

(** ** The field arithmetic of the curve test *)

(** [mulP] is the product modulo [2^255 - 19]. *)
Lemma mulP_spec (a b : bigZ) :
  BigZ.to_Z (Web3.mulP a b) = (BigZ.to_Z a * BigZ.to_Z b) mod (2 ^ 255 - 19).
Proof.
  unfold Web3.mulP, Web3.modP.
  rewrite BigZ.spec_modulo, BigZ.spec_mul. reflexivity.
Qed.

(** ** The vault addresses *)

(** The seeds that the two derivations hand to
    [findProgramAddressSync]. *)
Definition clientVaultSeeds (pool mint : PublicKey) : list (list byte) :=
  [Web3.Buffer_from "vault"; pool; mint].

Definition perfTestVaultSeeds (pool mint : PublicKey) : list (list byte) :=
  [Web3.Buffer_from "anyswap_vault"; pool; mint].

Lemma vault_seeds_differ (pool mint : PublicKey) :
  clientVaultSeeds pool mint <> perfTestVaultSeeds pool mint.
Proof.
  unfold clientVaultSeeds, perfTestVaultSeeds. intros H.
  injection H as H _. vm_compute in H. discriminate H.
Qed.

(** The helper of [utils.ts] and the method of [AnySwap] agree. *)
Lemma utils_getVault_agrees (programId pool mint : PublicKey) :
  Utils.getVault programId pool mint = AnySwap.getVault programId pool mint.
Proof. unfold Utils.getVault, AnySwap.getVault. reflexivity. Qed.

(** The mint of wrapped SOL, [So11111111111111111111111111111111111111112]. *)
Definition wsolMint : PublicKey :=
  map Web3.Zbyte
    [0x06; 0x9b; 0x88; 0x57; 0xfe; 0xab; 0x81; 0x84; 0xfb; 0x68; 0x7f; 0x63;
     0x46; 0x18; 0xc0; 0x35; 0xda; 0xc4; 0x39; 0xdc; 0x1a; 0xeb; 0x3b; 0x55;
     0x98; 0xa0; 0xf0; 0x00; 0x00; 0x00; 0x00; 0x01].

(** A pool key (the encoding of the Ed25519 base point) and a program
    id. *)
Definition samplePool : PublicKey := map Web3.Zbyte (0x58 :: repeat 0x66 31).
Definition sampleProgram : PublicKey := repeat x01 32.

(** Test vectors of the embedded digest and curve test. *)
Example sha256_abc :
  map Web3.byteZ (Web3.sha256 (Web3.Buffer_from "abc"))
  = [0xba; 0x78; 0x16; 0xbf; 0x8f; 0x01; 0xcf; 0xea; 0x41; 0x41; 0x40; 0xde;
     0x5d; 0xae; 0x22; 0x23; 0xb0; 0x03; 0x61; 0xa3; 0x96; 0x17; 0x7a; 0x9c;
     0xb4; 0x10; 0xff; 0x61; 0xf2; 0x00; 0x15; 0xad].
Proof. vm_compute. reflexivity. Qed.

Example sha256_two_blocks :
  map Web3.byteZ
    (Web3.sha256
       (Web3.Buffer_from "abcdbcdecdefdefgefghfghighijhijkijkljklmklmnlmnomnopnopq"))
  = [0x24; 0x8d; 0x6a; 0x61; 0xd2; 0x06; 0x38; 0xb8; 0xe5; 0xc0; 0x26; 0x93;
     0x0c; 0x3e; 0x60; 0x39; 0xa3; 0x3c; 0xe4; 0x59; 0x64; 0xff; 0x21; 0x67;
     0xf6; 0xec; 0xed; 0xd4; 0x19; 0xdb; 0x06; 0xc1].
Proof. vm_compute. reflexivity. Qed.

Example base_point_on_curve : Web3.isOnCurve samplePool = true.
Proof. vm_compute. reflexivity. Qed.

Example two_not_on_curve :
  Web3.isOnCurve (map Web3.Zbyte (2 :: repeat 0 31)) = false.
Proof. vm_compute. reflexivity. Qed.

(** C10 fails on the code: for the pool, the mint and the program above,
    [getVault] (seed "vault") and the performance test (seed
    "anyswap_vault") derive two different addresses. *)
Theorem perfTest_vault_is_another_address :
  exists a b,
    AnySwap.getVault sampleProgram samplePool wsolMint = inl a
    /\ PerfTest.vault sampleProgram samplePool wsolMint = inl b
    /\ nth 0 a x00 = x7a /\ nth 0 b x00 = x1e
    /\ a <> b.
Proof.
  do 2 eexists.
  split; [vm_compute; reflexivity|].
  split; [vm_compute; reflexivity|].
  split; [reflexivity|]. split; [reflexivity|].
  intros H. discriminate H.
Qed.

(** ** The swap form *)

Section SwapFormFacts.

Variable Number : Type.
Variable parseFloat : string -> Number.
Variable isPositive : Number -> bool.
Variable scaleFloor : Number -> Z -> Z.
Variable newPublicKey : string -> option PublicKey.
Variable getAssociatedTokenAddress : PublicKey -> PublicKey -> option PublicKey.

Let legsOf := SwapForm.legsOf Number parseFloat scaleFloor newPublicKey
                getAssociatedTokenAddress.

Lemma legsOf_length c owner pool ts legs :
  legsOf c owner pool ts = Some legs -> List.length legs = List.length ts.
Proof.
  revert legs. induction ts as [|t ts IH]; intros legs H; simpl in H.
  - injection H as <-. reflexivity.
  - destruct (SwapForm.legOf _ _ _ _ _ _ _ _ t); [|discriminate].
    fold legsOf in H.
    destruct (legsOf c owner pool ts) as [rest|]; [|discriminate].
    injection H as <-. simpl. f_equal. now apply IH.
Qed.

Lemma inputTokens_spec ts t :
  In t (SwapForm.inputTokens Number parseFloat isPositive ts) ->
  In t ts /\ SwapForm.status t = SwapForm.input.
Proof.
  unfold SwapForm.inputTokens. rewrite filter_In. intros [Hin Hb].
  split; [exact Hin|].
  apply andb_prop in Hb. destruct Hb as [Hs _].
  destruct (SwapForm.status t); simpl in Hs; congruence.
Qed.

Lemma outputTokens_spec ts t :
  In t (SwapForm.outputTokens Number parseFloat isPositive ts) ->
  In t ts /\ SwapForm.status t = SwapForm.output.
Proof.
  unfold SwapForm.outputTokens. rewrite filter_In. intros [Hin Hb].
  split; [exact Hin|].
  apply andb_prop in Hb. destruct Hb as [Hs _].
  destruct (SwapForm.status t); simpl in Hs; congruence.
Qed.

End SwapFormFacts.

Lemma isIn_intos (inlets outlets : list AnySwap.Leg) :
  map AnySwap.isIn (AnySwap.intos_of inlets outlets)
  = repeat true (List.length inlets) ++ repeat false (List.length outlets).
Proof.
  unfold AnySwap.intos_of. rewrite map_app, !map_map. simpl. f_equal.
  - induction inlets; simpl; congruence.
  - induction outlets; simpl; congruence.
Qed.

(** Tokens of one mint carry one status. *)
Definition oneStatusPerMint (ts : list SwapForm.TokenSwapItem) : Prop :=
  forall t t', In t ts -> In t' ts ->
    SwapForm.mint t = SwapForm.mint t' -> SwapForm.status t = SwapForm.status t'.

Lemma reachable_oneStatusPerMint ts :
  SwapForm.reachable ts -> oneStatusPerMint ts.
Proof.
  induction 1 as [infos|m st ts _ IH|m v ts _ IH|ts _ IH]; intros t t' Ht Ht' E.
  - apply in_map_iff in Ht. destruct Ht as (i & <- & _).
    apply in_map_iff in Ht'. destruct Ht' as (i' & <- & _). reflexivity.
  - unfold SwapForm.handleStatusChange in Ht, Ht'.
    apply in_map_iff in Ht. destruct Ht as (u & <- & Hu).
    apply in_map_iff in Ht'. destruct Ht' as (u' & <- & Hu').
    destruct (String.eqb_spec (SwapForm.mint u) m) as [Em|Em];
      destruct (String.eqb_spec (SwapForm.mint u') m) as [Em'|Em'];
      simpl in *; try congruence.
    now apply IH.
  - unfold SwapForm.handleAmountChange in Ht, Ht'.
    apply in_map_iff in Ht. destruct Ht as (u & <- & Hu).
    apply in_map_iff in Ht'. destruct Ht' as (u' & <- & Hu').
    destruct (String.eqb (SwapForm.mint u) m), (String.eqb (SwapForm.mint u') m);
      simpl in *; now apply IH.
  - unfold SwapForm.clearAmounts in Ht, Ht'.
    apply in_map_iff in Ht. destruct Ht as (u & <- & Hu).
    apply in_map_iff in Ht'. destruct Ht' as (u' & <- & Hu').
    simpl in *. now apply IH.
Qed.

(** C8, as stated for every swap request. *)
Definition every_swap_request_is_checked : Prop :=
  forall (wallet pool : PublicKey) (inlets outlets : list AnySwap.Leg)
         (owner : option PublicKey) (tx : AnySwap.SwapTx),
    AnySwap.swap wallet pool inlets outlets owner = Returned tx ->
    inlets <> [] /\ outlets <> []
    /\ (forall i o, In i inlets -> In o outlets -> AnySwap.vault i <> AnySwap.vault o).

(** C8, as stated, fails: the method [AnySwap.swap], through which the
    clients submit a swap, checks neither: it hands over a transaction for
    a request without any input and output, and for a request that names
    one vault as input and as output. *)
Lemma swap_sends_unchecked_requests :
  ~ every_swap_request_is_checked
  /\ (exists tx, AnySwap.swap [x09] [x08] [] [] None = Returned tx)
  /\ (exists tx,
        AnySwap.swap [x09] [x08] [AnySwap.mkLeg 5 [x01] [x02]]
          [AnySwap.mkLeg 0 [x01] [x02]] None = Returned tx).
Proof.
  split; [|split].
  - intros H.
    destruct (H [x09] [x08] [] [] None
                (AnySwap.mkSwapTx [x08] [x09] [] [] [] 400000) eq_refl)
      as (Hin & _).
    now apply Hin.
  - eexists. reflexivity.
  - eexists. reflexivity.
Qed.

(** C8, amended. A click on the swap button with no input token or no output token
    ends in one of the two early returns, before any transaction exists;
    whenever a swap is submitted, there is an input and an output, the
    transaction marks exactly the inputs as inputs, no token entry has both
    roles, and in every state that the form can reach no mint has both
    roles. *)
Theorem handleSwap_needs_input_and_output :
  forall (Number : Type) (parseFloat : string -> Number)
         (isPositive : Number -> bool) (scaleFloor : Number -> Z -> Z)
         (newPublicKey : string -> option PublicKey)
         (getAssociatedTokenAddress : PublicKey -> PublicKey -> option PublicKey)
         (s : SwapForm.FormState)
         (ins outs : list SwapForm.TokenSwapItem) (outcome : SwapForm.Outcome),
    ins = SwapForm.inputTokens Number parseFloat isPositive (SwapForm.tokens s) ->
    outs = SwapForm.outputTokens Number parseFloat isPositive (SwapForm.tokens s) ->
    outcome = SwapForm.handleSwap Number parseFloat isPositive scaleFloor
                newPublicKey getAssociatedTokenAddress s ->
    ((ins = [] \/ outs = []) ->
       outcome = SwapForm.MissingFields \/ outcome = SwapForm.NeedInputAndOutput)
    /\ (forall tx, outcome = SwapForm.Submitted tx ->
          ins <> [] /\ outs <> []
          /\ AnySwap.is_in_token tx
             = repeat true (List.length ins) ++ repeat false (List.length outs)
          /\ (forall t, In t ins -> ~ In t outs)
          /\ (SwapForm.reachable (SwapForm.tokens s) ->
              forall t t', In t ins -> In t' outs ->
                SwapForm.mint t <> SwapForm.mint t')).
Proof.
  intros Number parseFloat isPositive scaleFloor newPublicKey ata s ins outs
         outcome Hins Houts Hout.
  unfold SwapForm.handleSwap in Hout. rewrite <- Hins, <- Houts in Hout.
  split.
  - intros Hempty.
    destruct (SwapForm.client s); [|now left].
    destruct (SwapForm.publicKey s); [|now left].
    destruct (_ || _); [now left|].
    right. destruct Hempty as [-> | ->]; simpl in Hout; [exact Hout|].
    now rewrite orb_true_r in Hout.
  - intros tx Htx. rewrite Htx in Hout. clear Htx.
    destruct (SwapForm.client s) as [c|]; [|discriminate].
    destruct (SwapForm.publicKey s) as [owner|]; [|discriminate].
    destruct (_ || _); [discriminate|].
    destruct (Nat.eqb (List.length ins) 0) eqn:Ei; [discriminate|].
    destruct (Nat.eqb (List.length outs) 0) eqn:Eo; [discriminate|].
    simpl in Hout.
    destruct (newPublicKey (SwapForm.poolAddress s)) as [pool|]; [|discriminate].
    destruct (SwapForm.legsOf _ _ _ _ _ c owner pool ins) as [inlets|] eqn:Li;
      [|discriminate].
    destruct (SwapForm.legsOf _ _ _ _ _ c owner pool outs) as [outlets|] eqn:Lo;
      [|discriminate].
    apply legsOf_length in Li. apply legsOf_length in Lo.
    rewrite swap_by_count in Hout.
    destruct (AnySwap.cu_of _) as [cu|msg]; [|discriminate].
    injection Hout as ->. simpl.
    split; [intros ->; discriminate|].
    split; [intros ->; discriminate|].
    split; [rewrite isIn_intos; congruence|].
    split.
    + intros t Ht Ht'. rewrite Hins in Ht. rewrite Houts in Ht'.
      apply inputTokens_spec in Ht. apply outputTokens_spec in Ht'.
      destruct Ht as [_ Ht], Ht' as [_ Ht']. congruence.
    + intros Hreach t t' Ht Ht' E. rewrite Hins in Ht. rewrite Houts in Ht'.
      apply inputTokens_spec in Ht. apply outputTokens_spec in Ht'.
      destruct Ht as [Hin Ht], Ht' as [Hin' Ht'].
      pose proof (reachable_oneStatusPerMint _ Hreach t t' Hin Hin' E).
      congruence.
Qed.

Definition sampleTokens : list SwapForm.TokenSwapItem :=
  SwapForm.handleAmountChange "B" "2"
    (SwapForm.handleAmountChange "A" "1"
       (SwapForm.handleStatusChange "B" SwapForm.output
          (SwapForm.handleStatusChange "A" SwapForm.input
             (map (fun i => SwapForm.loadedItem (fst (fst i)) (snd (fst i)) (snd i))
                  [("A"%string, 9, "20"%string); ("B"%string, 9, "40"%string);
                   ("C"%string, 9, "40"%string)])))).

Definition sampleForm : SwapForm.FormState :=
  SwapForm.mkForm (Some (SwapForm.mkClient sampleProgram samplePool))
    (Some samplePool) "P" true sampleTokens.

(** A stand-in for the JavaScript environment: amounts are read as their
    length, keys as the text padded to 32 bytes. *)
Definition sampleParse (s : string) : Z := Z.of_nat (String.length s).
Definition sampleScale (x d : Z) : Z := x * 10 ^ d.
Definition sampleKey (s : string) : option PublicKey :=
  Some (firstn 32 (list_byte_of_string s ++ repeat x00 32)).
Definition sampleAta (mintKey owner : PublicKey) : option PublicKey := Some mintKey.

Lemma sampleTokens_reachable : SwapForm.reachable sampleTokens.
Proof.
  unfold sampleTokens. do 2 apply SwapForm.reach_amount.
  do 2 apply SwapForm.reach_status. apply SwapForm.reach_load.
Qed.

Lemma handleSwap_needs_input_and_output_witness :
  exists tx,
    SwapForm.handleSwap Z sampleParse (Z.ltb 0) sampleScale sampleKey sampleAta
      sampleForm = SwapForm.Submitted tx
    /\ AnySwap.is_in_token tx = [true; false]
    /\ (forall t t',
          In t (SwapForm.inputTokens Z sampleParse (Z.ltb 0) sampleTokens) ->
          In t' (SwapForm.outputTokens Z sampleParse (Z.ltb 0) sampleTokens) ->
          SwapForm.mint t <> SwapForm.mint t').
Proof.
  assert (E : exists tx,
             SwapForm.handleSwap Z sampleParse (Z.ltb 0) sampleScale sampleKey
               sampleAta sampleForm = SwapForm.Submitted tx)
    by (vm_compute; eexists; reflexivity).
  destruct E as [tx E]. exists tx. split; [exact E|].
  pose proof (proj2 (handleSwap_needs_input_and_output Z sampleParse (Z.ltb 0)
                       sampleScale sampleKey sampleAta sampleForm
                       (SwapForm.inputTokens Z sampleParse (Z.ltb 0)
                          (SwapForm.tokens sampleForm))
                       (SwapForm.outputTokens Z sampleParse (Z.ltb 0)
                          (SwapForm.tokens sampleForm))
                       (SwapForm.handleSwap Z sampleParse (Z.ltb 0) sampleScale
                          sampleKey sampleAta sampleForm)
                       eq_refl eq_refl eq_refl) tx E) as H.
  destruct H as (_ & _ & Hflags & _ & Hmints).
  split.
  - rewrite Hflags. reflexivity.
  - exact (Hmints sampleTokens_reachable).
Defined.

(** ** The pool engine: requests and look-ups *)

Import Engine.

Lemma distinct_NoDup (l : list AssetId) : distinct l = true -> NoDup l.
Proof.
  induction l as [|a l IH]; simpl; intros H; [constructor|].
  apply andb_prop in H. destruct H as [Ha Hl].
  constructor; [|now apply IH].
  intros Hin. apply negb_true_iff in Ha.
  assert (existsb (Nat.eqb a) l = true); [|congruence].
  apply existsb_exists. exists a. split; [exact Hin|apply Nat.eqb_refl].
Qed.


Lemma find_none_fst (B : Type) (l : list (AssetId * B)) (a : AssetId) :
  ~ In a (map fst l) -> find (fun e => Nat.eqb (fst e) a) l = None.
Proof.
  induction l as [|[b y] l IH]; simpl; intros Hnot; [reflexivity|].
  destruct (Nat.eqb_spec b a) as [->|_]; [exfalso; auto|].
  apply IH. auto.
Qed.

(** What a validated request is. *)
Record valid_request (budget : nat) (p : Pool) (req : SwapRequest) : Prop := {
  vr_inputs : inputs req <> [];
  vr_outputs : outputs req <> [];
  vr_amounts : Forall (fun e => 0 <= snd e) (inputs req);
  vr_solved : (List.length (filter isSolve (outputs req)) <= 1)%nat;
  vr_distinct : NoDup (participants req);
  vr_registered : Forall (fun a => registered p a = true) (participants req);
  vr_budget : (List.length (participants req) <= budget)%nat
}.

Lemma validate_None budget p req :
  validate budget p req = None -> valid_request budget p req.
Proof.
  unfold validate. intros H.
  destruct (Nat.eqb (List.length (inputs req)) 0) eqn:Ei; [discriminate|].
  destruct (Nat.eqb (List.length (outputs req)) 0) eqn:Eo; [discriminate|].
  simpl in H.
  destruct (forallb (fun e => 0 <=? snd e) (inputs req)) eqn:Ea; [|discriminate].
  destruct (forallb (fun e => 0 <=? specAmount (snd e)) (outputs req)) eqn:Eb;
    [|discriminate].
  simpl in H.
  destruct (Nat.ltb 1 (List.length (filter isSolve (outputs req)))) eqn:Es;
    [discriminate|].
  destruct (distinct (participants req)) eqn:Ed; [|discriminate].
  destruct (forallb (registered p) (participants req)) eqn:Er; [|discriminate].
  destruct (Nat.ltb budget (List.length (participants req))) eqn:Eg; [discriminate|].
  simpl in H. constructor.
  - intros E. rewrite E in Ei. discriminate.
  - intros E. rewrite E in Eo. discriminate.
  - apply Forall_forall. intros e He.
    rewrite forallb_forall in Ea. specialize (Ea e He). lia.
  - apply Nat.ltb_ge in Es. exact Es.
  - now apply distinct_NoDup.
  - apply Forall_forall. intros a Ha. rewrite forallb_forall in Er. now apply Er.
  - apply Nat.ltb_ge in Eg. exact Eg.
Qed.





Lemma roleOf_output req a :
  (exists x, roleOf req a = Some (RoleExact x))
  \/ (exists m, roleOf req a = Some (RoleSolve m)) ->
  In a (map fst (outputs req)).
Proof.
  unfold roleOf.
  destruct (find _ _) as [[b g]|] eqn:F.
  - intros [[x E]|[m E]]; discriminate.
  - match goal with |- context [find ?f (outputs req)] =>
      destruct (find f (outputs req)) as [[b o]|] eqn:G
    end.
    + intros _. apply find_some in G. destruct G as [Hin Hb].
      simpl in Hb. apply Nat.eqb_eq in Hb. subst b.
      apply in_map_iff. now exists (a, o).
    + intros [[x E]|[m E]]; discriminate.
Qed.



Lemma registered_reserveOf p a :
  registered p a = true -> exists r, reserveOf p a = Some r.
Proof.
  unfold registered, reserveOf.
  destruct (findSlot a (assets p)) as [s|]; [|discriminate].
  intros _. now exists (reserve s).
Qed.

(** ** The pool engine: the solver *)

Lemma bisect_ok (ok : Z -> bool) fuel lo hi :
  ok hi = true -> ok (bisect ok fuel lo hi) = true.
Proof.
  revert lo hi. induction fuel as [|fuel IH]; intros lo hi H; simpl; [exact H|].
  destruct (lo <? hi); [|exact H].
  destruct (ok ((lo + hi) / 2)) eqn:E; apply IH; assumption.
Qed.

Lemma bisect_range (ok : Z -> bool) fuel lo hi :
  lo <= hi -> lo <= bisect ok fuel lo hi <= hi.
Proof.
  revert lo hi. induction fuel as [|fuel IH]; intros lo hi H; simpl; [lia|].
  destruct (Z.ltb_spec lo hi) as [Hlt|Hge]; [|lia].
  assert (lo <= (lo + hi) / 2 < hi).
  { split; [apply Z.div_le_lower_bound; lia|apply Z.div_lt_upper_bound; lia]. }
  destruct (ok ((lo + hi) / 2)).
  - specialize (IH lo ((lo + hi) / 2) ltac:(lia)). lia.
  - specialize (IH ((lo + hi) / 2 + 1) hi ltac:(lia)). lia.
Qed.

(** With enough fuel the bisection returns the least value that passes a
    monotone test. *)
Lemma bisect_least (ok : Z -> bool) fuel lo hi :
  (forall y y', lo <= y -> y <= y' -> ok y = true -> ok y' = true) ->
  hi - lo < 2 ^ Z.of_nat fuel ->
  forall y, lo <= y < bisect ok fuel lo hi -> ok y = false.
Proof.
  revert lo hi.
  induction fuel as [|fuel IH]; intros lo hi Hmono Hfuel y Hy; simpl in Hy.
  - simpl in Hfuel. lia.
  - rewrite Nat2Z.inj_succ, Z.pow_succ_r in Hfuel by lia.
    destruct (Z.ltb_spec lo hi) as [Hlt|Hge]; [|lia].
    assert (Hmid : lo <= (lo + hi) / 2 < hi).
    { split; [apply Z.div_le_lower_bound; lia|apply Z.div_lt_upper_bound; lia]. }
    assert (Hhalf : 2 * ((lo + hi) / 2) <= lo + hi < 2 * ((lo + hi) / 2) + 2).
    { pose proof (Z.div_mod (lo + hi) 2 ltac:(lia)).
      pose proof (Z.mod_pos_bound (lo + hi) 2 ltac:(lia)). lia. }
    destruct (ok ((lo + hi) / 2)) eqn:E.
    + apply (IH lo ((lo + hi) / 2)); [exact Hmono|lia|exact Hy].
    + destruct (Z.le_gt_cases y ((lo + hi) / 2)) as [Hle|Hgt].
      * destruct (ok y) eqn:Ey; [|reflexivity].
        rewrite (Hmono y _ (proj1 Hy) Hle Ey) in E. discriminate.
      * apply (IH ((lo + hi) / 2 + 1) hi); [|lia|lia].
        intros z z' Hz. apply Hmono. lia.
Qed.

Lemma leastReserve_ok (ok : Z -> bool) hi :
  ok hi = true -> ok (leastReserve ok hi) = true.
Proof. apply bisect_ok. Qed.

Lemma leastReserve_range (ok : Z -> bool) hi :
  1 <= hi -> 1 <= leastReserve ok hi <= hi.
Proof. apply bisect_range. Qed.

Lemma leastReserve_small (ok : Z -> bool) hi :
  hi < 1 -> leastReserve ok hi = hi.
Proof.
  intros H. unfold leastReserve. simpl.
  destruct (Z.ltb_spec 1 hi); [lia|reflexivity].
Qed.

Lemma leastReserve_least (ok : Z -> bool) hi :
  (forall y y', 1 <= y -> y <= y' -> ok y = true -> ok y' = true) ->
  forall y, 1 <= y < leastReserve ok hi -> ok y = false.
Proof.
  intros Hmono y Hy. unfold leastReserve in *.
  apply (bisect_least ok (S (Z.to_nat (Z.log2_up hi))) 1 hi Hmono); [|exact Hy].
  destruct (Z.le_gt_cases hi 1) as [Hle|Hgt].
  - pose proof (Z.pow_pos_nonneg 2 (Z.of_nat (S (Z.to_nat (Z.log2_up hi))))). lia.
  - rewrite Nat2Z.inj_succ, Z2Nat.id by apply Z.log2_up_nonneg.
    rewrite Z.pow_succ_r by apply Z.log2_up_nonneg.
    pose proof (Z.log2_up_spec hi Hgt). lia.
Qed.

Definition positiveReserves (slots : list Slot) : Prop :=
  Forall (fun s => 0 < reserve s) slots.

Lemma forallb_positive slots :
  forallb (fun s => 0 <? reserve s) slots = true -> positiveReserves slots.
Proof.
  intros H. apply Forall_forall. intros s Hs.
  rewrite forallb_forall in H. specialize (H s Hs). lia.
Qed.

Lemma working_positive_at p req r y slots :
  positiveReserves (working p req r slots) -> 1 <= y ->
  positiveReserves (working p req y slots).
Proof.
  unfold positiveReserves, working. rewrite !Forall_map.
  intros H Hy. eapply Forall_impl; [|exact H].
  intros s. simpl. unfold newReserve.
  destruct (roleOf req (assetId s)) as [[g|x|m]|]; lia.
Qed.

(** What an accepted quote guarantees. *)
Record quoted (p : Pool) (req : SwapRequest) (y : Z) : Prop := {
  q_net : Forall (fun e => 0 <= netOf p (snd e)) (inputs req);
  q_before : positiveReserves (touched req (assets p));
  q_after : positiveReserves (working p req y (touched req (assets p)));
  q_preserves : preserves p req y = true
}.

Lemma quoteSwap_Ok p req y : quoteSwap p req = Ok y -> quoted p req y.
Proof.
  unfold quoteSwap. intros H.
  destruct (forallb (fun e => 0 <=? netOf p (snd e)) (inputs req)) eqn:En;
    [|discriminate].
  destruct (forallb (fun s => 0 <? reserve s) (touched req (assets p))) eqn:Eb;
    [|discriminate].
  simpl in H.
  assert (Hnet : Forall (fun e => 0 <= netOf p (snd e)) (inputs req)).
  { apply Forall_forall. intros e He. rewrite forallb_forall in En.
    specialize (En e He). lia. }
  apply forallb_positive in Eb.
  destruct (solveTarget req) as [[a minimum]|].
  - destruct (reserveOf p a) as [r|]; [|discriminate].
    destruct (forallb _ (working p req r _)) eqn:Ew; [|discriminate].
    simpl in H. apply forallb_positive in Ew.
    destruct (preserves p req r) eqn:Ep; [|discriminate].
    injection H as <-. constructor; try assumption.
    + destruct (Z.le_gt_cases 1 r) as [Hr|Hr].
      * apply (working_positive_at p req r); [exact Ew|].
        apply (leastReserve_range (preserves p req) r Hr).
      * now rewrite leastReserve_small by lia.
    + now apply leastReserve_ok.
  - destruct (forallb _ (working p req 0 _)) eqn:Ew; [|discriminate].
    simpl in H. apply forallb_positive in Ew.
    destruct (preserves p req 0) eqn:Ep; [|discriminate].
    injection H as <-. now constructor.
Qed.

Lemma swap_Ok budget p req p' settled :
  swap budget p req = Ok (p', settled) ->
  exists y,
    valid_request budget p req /\ quoted p req y
    /\ p' = withAssets p (working p req y (assets p))
    /\ settled = map (settledOf p y) (outputs req)
    /\ forallb (fun o => meetsTolerance (snd (settledOf p y o)) o) (outputs req) = true.
Proof.
  unfold swap. intros H.
  destruct (validate budget p req) eqn:Ev; [discriminate|].
  destruct (quoteSwap p req) as [y|] eqn:Eq; [|discriminate].
  destruct (forallb _ (outputs req)) eqn:Et; [|discriminate].
  injection H as <- <-. exists y.
  split; [now apply validate_None|].
  split; [now apply quoteSwap_Ok|]. auto.
Qed.


(** ** Fee retention *)










(** ** The invariant across a swap *)

Definition nonnegWeights (slots : list Slot) : Prop :=
  Forall (fun s => 0 <= weight s) slots.

Definition untouched (req : SwapRequest) (slots : list Slot) : list Slot :=
  filter (fun s => match roleOf req (assetId s) with Some _ => false | None => true end)
         slots.

Lemma invariantProduct_pos slots :
  positiveReserves slots -> nonnegWeights slots -> 0 < invariantProduct slots.
Proof.
  induction 1 as [|s slots Hs _ IH]; intros Hw; simpl; [lia|].
  inversion Hw as [|? ? Hw0 Hw']; subst.
  apply Z.mul_pos_pos; [apply Z.pow_pos_nonneg; assumption|now apply IH].
Qed.

Lemma ln_IZR_pow (r w : Z) :
  0 < r -> 0 <= w -> ln (IZR (r ^ w)) = (IZR w * ln (IZR r))%R.
Proof.
  intros Hr Hw.
  rewrite <- (Z2Nat.id w Hw) at 1.
  rewrite <- pow_IZR, ln_pow by (apply IZR_lt; exact Hr).
  now rewrite INR_IZR_INZ, Z2Nat.id.
Qed.

(** On positive reserves the sum of logarithms is the logarithm of the
    product. *)
Lemma logInvariant_ln slots :
  positiveReserves slots -> nonnegWeights slots ->
  logInvariant slots = ln (IZR (invariantProduct slots)).
Proof.
  induction 1 as [|s slots Hs Hrest IH]; intros Hw; simpl.
  - now rewrite ln_1.
  - inversion Hw as [|? ? Hw0 Hw']; subst.
    rewrite mult_IZR, ln_mult.
    + rewrite ln_IZR_pow by assumption. now rewrite IH.
    + apply IZR_lt. now apply Z.pow_pos_nonneg.
    + apply IZR_lt. now apply invariantProduct_pos.
Qed.

Lemma logInvariant_split req slots :
  logInvariant slots
  = (logInvariant (touched req slots) + logInvariant (untouched req slots))%R.
Proof.
  unfold touched, untouched.
  induction slots as [|s slots IH]; simpl; [lra|].
  destruct (roleOf req (assetId s)); simpl; rewrite IH; lra.
Qed.

Lemma touched_working p req y slots :
  touched req (working p req y slots) = working p req y (touched req slots).
Proof.
  unfold touched, working.
  induction slots as [|s slots IH]; simpl; [reflexivity|].
  destruct (roleOf req (assetId s)); simpl; now rewrite IH.
Qed.

Lemma untouched_working p req y slots :
  untouched req (working p req y slots) = untouched req slots.
Proof.
  unfold untouched, working.
  induction slots as [|s slots IH]; simpl; [reflexivity|].
  destruct (roleOf req (assetId s)) eqn:R; simpl; [exact IH|].
  rewrite IH. f_equal. unfold newReserve. rewrite R. now destruct s.
Qed.

Lemma working_weights p req y slots :
  nonnegWeights slots -> nonnegWeights (working p req y slots).
Proof.
  unfold nonnegWeights, working. rewrite Forall_map. intros H.
  eapply Forall_impl; [|exact H]. intros s Hs. exact Hs.
Qed.

Lemma touched_weights req slots :
  nonnegWeights slots -> nonnegWeights (touched req slots).
Proof.
  unfold nonnegWeights, touched. intros H. apply Forall_forall.
  intros s Hs. apply filter_In in Hs. rewrite Forall_forall in H. now apply H.
Qed.

Lemma ln_IZR_le (a b : Z) : 0 < a -> a <= b -> (ln (IZR a) <= ln (IZR b))%R.
Proof.
  intros Ha Hab. destruct (Z.eq_dec a b) as [->|Hne]; [lra|].
  left. apply ln_increasing; [apply IZR_lt; exact Ha|apply IZR_lt; lia].
Qed.

(** The product form of the invariant over the touched slots does not
    decrease, and the logarithmic invariant of the whole pool follows. *)
Lemma quoted_product_monotone p req y :
  quoted p req y ->
  invariantProduct (touched req (assets p))
  <= invariantProduct (touched req (working p req y (assets p))).
Proof.
  intros Q. rewrite touched_working.
  pose proof (q_preserves _ _ _ Q) as H. unfold preserves in H. lia.
Qed.

Lemma quoted_log_monotone p req y :
  nonnegWeights (assets p) -> quoted p req y ->
  (logInvariant (assets p) <= logInvariant (working p req y (assets p)))%R.
Proof.
  intros Hw Q.
  rewrite (logInvariant_split req (assets p)).
  rewrite (logInvariant_split req (working p req y (assets p))).
  rewrite untouched_working.
  apply Rplus_le_compat_r.
  rewrite (logInvariant_ln (touched req (assets p)));
    [|exact (q_before _ _ _ Q)|now apply touched_weights].
  rewrite (logInvariant_ln (touched req (working p req y (assets p)))).
  - apply ln_IZR_le; [|now apply quoted_product_monotone].
    apply invariantProduct_pos; [exact (q_before _ _ _ Q)|now apply touched_weights].
  - rewrite touched_working. exact (q_after _ _ _ Q).
  - apply touched_weights. now apply working_weights.
Qed.

Lemma swap_log_monotone budget p req p' settled :
  nonnegWeights (assets p) ->
  swap budget p req = Ok (p', settled) ->
  (logInvariant (assets p) <= logInvariant (assets p'))%R
  /\ nonnegWeights (assets p').
Proof.
  intros Hw Hswap. apply swap_Ok in Hswap.
  destruct Hswap as (y & _ & Q & -> & _ & _). simpl.
  split; [now apply quoted_log_monotone|now apply working_weights].
Qed.

Lemma wf_nonnegWeights p : wf_pool p -> nonnegWeights (assets p).
Proof.
  intros W. eapply Forall_impl; [|exact (wf_weight _ W)].
  intros s Hs. simpl in Hs. lia.
Qed.

(** The payout of the solved output is rounded down: the solver leaves
    the least reserve that keeps the invariant, so one more unit paid out
    would lower it. *)
Lemma preserves_monotone p req :
  nonnegWeights (assets p) ->
  positiveReserves (working p req 1 (touched req (assets p))) ->
  forall y y', 1 <= y -> y <= y' ->
    preserves p req y = true -> preserves p req y' = true.
Proof.
  intros Hw Hpos y y' Hy Hyy'. unfold preserves. intros H.
  apply Z.leb_le in H. apply Z.leb_le. eapply Z.le_trans; [exact H|].
  apply touched_weights with (req := req) in Hw.
  revert Hw Hpos. generalize (touched req (assets p)) as slots.
  induction slots as [|s slots IH]; intros Hw Hpos; simpl; [lia|].
  inversion Hw as [|? ? Hw0 Hw']; subst.
  inversion Hpos as [|? ? Hp0 Hp']; subst. simpl in Hp0.
  specialize (IH Hw' Hp').
  assert (Hrest : 0 < invariantProduct (working p req y slots)).
  { apply invariantProduct_pos; [|now apply working_weights].
    now apply (working_positive_at p req 1). }
  assert (Hhead : 0 < newReserve p req y s <= newReserve p req y' s).
  { unfold newReserve in *. destruct (roleOf req (assetId s)) as [[g|x|m]|]; lia. }
  apply Z.mul_le_mono_nonneg.
  - apply Z.pow_nonneg. lia.
  - apply Z.pow_le_mono_l. lia.
  - lia.
  - exact IH.
Qed.

Lemma quoteSwap_rounds_down p req y a minimum :
  nonnegWeights (assets p) ->
  quoteSwap p req = Ok y -> solveTarget req = Some (a, minimum) ->
  forall y', 1 <= y' < y -> preserves p req y' = false.
Proof.
  intros Hw Hq Ht y' Hy'. unfold quoteSwap in Hq. rewrite Ht in Hq.
  destruct (negb _); [discriminate|].
  destruct (negb _); [discriminate|].
  destruct (reserveOf p a) as [r|]; [|discriminate].
  destruct (forallb _ (working p req r _)) eqn:Ew; [|discriminate].
  simpl in Hq. apply forallb_positive in Ew.
  destruct (preserves p req r); [|discriminate].
  injection Hq as <-.
  apply (leastReserve_least (preserves p req) r); [|exact Hy'].
  intros z z'. apply preserves_monotone; [exact Hw|].
  apply (working_positive_at p req r); [exact Ew|lia].
Qed.


(** C1, amended. Over any sequence of swap calls the logarithmic weighted
    invariant computed from the reserves after the calls is greater than
    or equal to the one computed from the reserves before, whatever the
    fee. *)
Theorem swaps_invariant_monotone :
  forall (budget : nat) (reqs : list SwapRequest) (p : Pool),
    Forall (fun s => 0 < weight s) (assets p) ->
    (logInvariant (assets (swaps budget p reqs)) >= logInvariant (assets p))%R.
Proof.
  intros budget reqs p Hw.
  assert (Hnn : nonnegWeights (assets p)).
  { eapply Forall_impl; [|exact Hw]. intros s Hs. simpl in Hs. lia. }
  clear Hw. revert p Hnn.
  induction reqs as [|req reqs IH]; intros p Hnn; simpl; [lra|].
  destruct (swap budget p req) as [[p' settled]|e] eqn:E.
  - destruct (swap_log_monotone _ _ _ _ _ Hnn E) as [Hle Hnn'].
    specialize (IH p' Hnn'). lra.
  - now apply IH.
Qed.

(** ** The scenario of the specification *)

Definition assetX : AssetId := 0%nat.
Definition assetY : AssetId := 1%nat.

Definition scenarioPool (adminId : Identity) (supply : Z) : Pool :=
  mkPool adminId 3 10000 [mkSlot assetX 20 10000; mkSlot assetY 40 20000] supply.

Definition scenarioRequest : SwapRequest :=
  mkRequest [(assetX, 10000)] [(assetY, Solve 0)].



Lemma scenario_weights adminId supply :
  Forall (fun s => 0 < weight s) (assets (scenarioPool adminId supply)).
Proof. repeat constructor. Qed.







Lemma swaps_invariant_monotone_witness :
  (logInvariant (assets (swaps 6 (scenarioPool 7%nat 30000)
                           [scenarioRequest; scenarioRequest]))
   >= logInvariant (assets (scenarioPool 7%nat 30000)))%R.
Proof.
  apply (swaps_invariant_monotone 6 [scenarioRequest; scenarioRequest]
           (scenarioPool 7%nat 30000)).
  apply scenario_weights.
Defined.

(** ** A swap on the curve *)

Definition edgePool : Pool :=
  mkPool 7%nat 3 10000 [mkSlot assetX 1 2; mkSlot assetY 1 4] 8.

Definition edgeRequest : SwapRequest :=
  mkRequest [(assetX, 2)] [(assetY, Solve 0)].

Definition edgeAfter : Pool :=
  mkPool 7%nat 3 10000 [mkSlot assetX 1 4; mkSlot assetY 1 2] 8.

Lemma edgePool_wf : wf_pool edgePool.
Proof.
  constructor; simpl; try lia.
  - unfold assetCount, CAPACITY. simpl. lia.
  - repeat constructor; simpl; intuition discriminate.
  - repeat constructor.
  - repeat constructor; simpl; lia.
Qed.

(** C1, as stated, fails in its strict part: with fee 3/10000, a swap of
    2 X into reserves (2, 4) of equal weights pays no fee (it rounds to
    zero), credits 2 X, pays out 2 Y and leaves the invariant exactly where
    it was, although the fee absorbs nothing of the input and the payout is
    not zero. *)
Lemma swap_invariant_not_strict :
  wf_pool edgePool
  /\ 0 < feeNumerator edgePool
  /\ swap 6 edgePool edgeRequest = Ok (edgeAfter, [(assetY, 2)])
  /\ feeOf edgePool 2 = 0 /\ netOf edgePool 2 = 2
  /\ ~ (logInvariant (assets edgeAfter) > logInvariant (assets edgePool))%R.
Proof.
  split; [exact edgePool_wf|].
  split; [reflexivity|].
  split; [vm_compute; reflexivity|].
  split; [reflexivity|]. split; [reflexivity|].
  unfold logInvariant. simpl. lra.
Qed.

(** ** The first swap of the integration test *)

(** A solved swap is settled at [y] as soon as [y] keeps the invariant and
    [y - 1] does not. *)
Lemma swap_solved_at budget p req a minimum r y :
  nonnegWeights (assets p) ->
  validate budget p req = None ->
  forallb (fun e => 0 <=? netOf p (snd e)) (inputs req) = true ->
  forallb (fun s => 0 <? reserve s) (touched req (assets p)) = true ->
  solveTarget req = Some (a, minimum) ->
  reserveOf p a = Some r ->
  forallb (fun s => 0 <? reserve s) (working p req r (touched req (assets p))) = true ->
  1 <= y <= r ->
  preserves p req y = true ->
  preserves p req (y - 1) = false ->
  forallb (fun o => meetsTolerance (snd (settledOf p y o)) o) (outputs req) = true ->
  swap budget p req
  = Ok (withAssets p (working p req y (assets p)), map (settledOf p y) (outputs req)).
Proof.
  intros Hw Hv Hn Hb Ht Hr Hwk Hy Hok Hbelow Htol.
  assert (Hmono : forall z z', 1 <= z -> z <= z' ->
                    preserves p req z = true -> preserves p req z' = true).
  { intros z z'. apply preserves_monotone; [exact Hw|].
    apply (working_positive_at p req r); [now apply forallb_positive|lia]. }
  assert (Hr_ok : preserves p req r = true) by (apply (Hmono y r); lia || exact Hok).
  assert (Hleast : leastReserve (preserves p req) r = y).
  { pose proof (leastReserve_range (preserves p req) r ltac:(lia)) as Hrange.
    pose proof (leastReserve_ok (preserves p req) r Hr_ok) as Hz.
    destruct (Z.lt_trichotomy (leastReserve (preserves p req) r) y) as [Hlt|[E|Hgt]].
    - assert (Hc : preserves p req (y - 1) = true)
        by (apply (Hmono (leastReserve (preserves p req) r)); lia || exact Hz).
      rewrite Hc in Hbelow. discriminate.
    - exact E.
    - assert (Hc : preserves p req y = false)
        by (apply (leastReserve_least (preserves p req) r Hmono); lia).
      rewrite Hc in Hok. discriminate. }
  unfold swap. rewrite Hv. unfold quoteSwap.
  rewrite Hn, Hb, Ht, Hr, Hwk, Hr_ok. simpl. rewrite Hleast, Htol. reflexivity.
Qed.

(** The engine settles the first swap of the integration test (10000
    tokens of nine decimals of an asset of weight 40 against another of
    weight 40, both with reserve 20000, fee 3/10000) at the payout that
    the test expects, 6665333199986. *)
Example integration_test_swap1 :
  swap 6
    (mkPool 7%nat 3 10000
       [mkSlot 0%nat 20 10000000000000; mkSlot 1%nat 40 20000000000000;
        mkSlot 2%nat 40 20000000000000] 0)
    (mkRequest [(1%nat, 10000000000000)] [(2%nat, Solve 0)])
  = Ok (mkPool 7%nat 3 10000
          [mkSlot 0%nat 20 10000000000000; mkSlot 1%nat 40 29997000000000;
           mkSlot 2%nat 40 13334666800014] 0,
        [(2%nat, 6665333199986)]).
Proof.
  rewrite (swap_solved_at _ _ _ 2%nat 0 20000000000000 13334666800014);
    try (vm_compute; reflexivity).
  - repeat constructor; simpl; lia.
  - lia.
Qed.

(** ** Liquidity round trip *)

(** Shares for the first contribution, where one is needed to run the
    engine: the sum of the amounts. *)
Definition sumShares (slots : list Slot) (amounts : list Z) : Z :=
  fold_right Z.add 0 amounts.

Definition thinPool : Pool :=
  mkPool 7%nat 3 10000 [mkSlot assetX 20 1000; mkSlot assetY 40 2000] 3.

Definition thinPoolFunded : Pool :=
  mkPool 7%nat 3 10000 [mkSlot assetX 20 1500; mkSlot assetY 40 3000] 4.

Definition thinPoolAfter : Pool :=
  mkPool 7%nat 3 10000 [mkSlot assetX 20 1125; mkSlot assetY 40 2250] 3.

(** C5, as stated, fails: in a pool with reserves (1000, 2000) and 3
    shares outstanding, the proportional contribution (500, 1000) mints 1
    share, and burning that share returns (375, 750). *)
Lemma round_trip_not_within_one :
  proportional (assets thinPool) [500; 1000]
  /\ addLiquidity sumShares thinPool [500; 1000] = Ok (thinPoolFunded, 1)
  /\ removeLiquidity thinPoolFunded 1 = Ok (thinPoolAfter, [375; 750])
  /\ 1 < 500 - 375 /\ 1 < 1000 - 750.
Proof.
  split.
  - exists 1, 2. repeat split; try lia. repeat constructor.
  - repeat split; try reflexivity; lia.
Qed.

Lemma proportional_ratio (r c n d S : Z) :
  0 < r -> 0 < d -> c * d = r * n -> c * S / r = n * S / d.
Proof.
  intros Hr Hd E.
  rewrite <- (Z.div_mul_cancel_r (c * S) r d) by lia.
  replace (c * S * d) with (c * d * S) by ring. rewrite E.
  replace (r * n * S) with (r * (n * S)) by ring.
  apply Z.div_mul_cancel_l; lia.
Qed.

Lemma round_trip_slot (r c S m : Z) :
  0 < r -> 0 < S -> 0 <= c -> m = c * S / r ->
  (r + c) * m / (S + m) <= c
  /\ (r <= S + m -> c - (r + c) * m / (S + m) <= 1).
Proof.
  intros Hr HS Hc Hm.
  assert (Hm0 : 0 <= m) by (subst m; apply Z.div_pos; nia).
  pose proof (Z.div_mod (c * S) r ltac:(lia)) as Ed.
  pose proof (Z.mod_pos_bound (c * S) r Hr) as Bd.
  rewrite <- Hm in Ed.
  split.
  - apply Z.div_le_upper_bound; nia.
  - intros Hle.
    assert ((c - 1) <= (r + c) * m / (S + m)); [|lia].
    apply Z.div_le_lower_bound; nia.
Qed.

Lemma minimum_constant (x : Z) (n : nat) :
  minimum (repeat x (S n)) = Some x.
Proof.
  assert (E : forall l, minimum (x :: l)
                        = match minimum l with
                          | None => Some x
                          | Some m => Some (Z.min x m)
                          end) by reflexivity.
  induction n as [|n IH]; [reflexivity|].
  change (repeat x (S (S n))) with (x :: repeat x (S n)).
  rewrite E, IH, Z.min_id. reflexivity.
Qed.

Lemma shareRatios_proportional (S n d : Z) slots amounts :
  0 < d ->
  positiveReserves slots ->
  Forall2 (fun s c => c * d = reserve s * n) slots amounts ->
  shareRatios S slots amounts = repeat (n * S / d) (List.length slots).
Proof.
  intros Hd Hpos H. induction H as [|s c slots amounts E _ IH]; [reflexivity|].
  inversion Hpos as [|? ? Hs Hpos']; subst. simpl.
  destruct (Z.ltb_spec 0 (reserve s)) as [_|]; [|lia].
  rewrite (proportional_ratio _ _ n d S Hs Hd E). now rewrite IH.
Qed.

Lemma round_trip_slots (S m n d : Z) slots amounts :
  0 < S -> 0 < d -> 0 <= n -> m = n * S / d ->
  positiveReserves slots ->
  Forall2 (fun s c => c * d = reserve s * n) slots amounts ->
  Forall2
    (fun sc w =>
       w <= snd sc /\ (reserve (fst sc) <= S + m -> snd sc - w <= 1))
    (combine slots amounts)
    (map (fun s => reserve s * m / (S + m)) (deposit slots amounts)).
Proof.
  intros HS Hd Hn Hm Hpos H.
  induction H as [|s c slots amounts E _ IH]; simpl; [constructor|].
  pose proof (Forall_inv Hpos) as Hs. pose proof (Forall_inv_tail Hpos) as Hpos'.
  simpl in Hs.
  constructor; [|now apply IH].
  simpl. apply round_trip_slot; try assumption.
  - nia.
  - rewrite Hm. symmetry. now apply (proportional_ratio _ _ n d S).
Qed.

(** C5, amended. In a pool with shares outstanding and a positive reserve
    of every asset, a contribution proportional to the reserves is
    accepted, and burning the minted shares at once is accepted and
    returns, for each asset, [floor(reserve_i * burnShares / lpShareSupply)]
    of the reserves and supply after the contribution; that amount is at
    most the contribution, and within one unit of it for every asset whose
    reserve before the contribution does not exceed the share supply after
    it. *)
Theorem liquidity_round_trip :
  forall (initialShares : list Slot -> list Z -> Z) (p : Pool) (amounts : list Z),
    0 < lpShareSupply p ->
    assets p <> [] ->
    positiveReserves (assets p) ->
    proportional (assets p) amounts ->
    exists (p1 p2 : Pool) (minted : Z) (withdrawn : list Z),
      addLiquidity initialShares p amounts = Ok (p1, minted)
      /\ removeLiquidity p1 minted = Ok (p2, withdrawn)
      /\ withdrawn
         = map (fun s => reserve s * minted / lpShareSupply p1) (assets p1)
      /\ Forall2
           (fun sc w =>
              w <= snd sc
              /\ (reserve (fst sc) <= lpShareSupply p1 -> snd sc - w <= 1))
           (combine (assets p) amounts) withdrawn.
Proof.
  intros initialShares p amounts HS Hne Hpos (n & d & Hn & Hd & Hprop).
  set (m := n * lpShareSupply p / d).
  assert (Hm : 0 <= m) by (apply Z.div_pos; nia).
  assert (Hlen : List.length amounts = assetCount p).
  { unfold assetCount. symmetry. eapply Forall2_length. exact Hprop. }
  assert (Hnonneg : forallb (fun c => 0 <=? c) amounts = true).
  { apply forallb_forall. intros c Hc. apply Z.leb_le.
    assert (Hall : Forall (fun c => 0 <= c) amounts).
    { clear - Hprop Hpos Hn Hd.
      induction Hprop as [|s c slots amounts' E _ IH]; [constructor|].
      inversion Hpos as [|? ? Hs Hpos']; subst. constructor; [nia|now apply IH]. }
    rewrite Forall_forall in Hall. now apply Hall. }
  assert (Hmint : quoteMintedShares initialShares p amounts = Some m).
  { unfold quoteMintedShares.
    destruct (Z.eqb_spec (lpShareSupply p) 0) as [E|_]; [lia|].
    rewrite (shareRatios_proportional _ n d _ _ Hd Hpos Hprop).
    destruct (assets p) as [|s slots]; [contradiction|].
    apply minimum_constant. }
  eexists _, _, m, _.
  split.
  { unfold addLiquidity. rewrite Hlen, Nat.eqb_refl, Hnonneg, Hmint. reflexivity. }
  split.
  { unfold removeLiquidity. simpl.
    destruct (Z.ltb_spec m 0); [lia|].
    destruct (Z.leb_spec (lpShareSupply p + m) 0); [lia|].
    destruct (Z.ltb_spec (lpShareSupply p + m) m); [lia|]. reflexivity. }
  split; [reflexivity|].
  simpl. now apply (round_trip_slots _ _ n d).
Qed.

Definition deepPool : Pool :=
  mkPool 7%nat 3 10000 [mkSlot assetX 20 1000; mkSlot assetY 40 2000] 3000.

Lemma liquidity_round_trip_witness :
  exists (p1 p2 : Pool) (minted : Z) (withdrawn : list Z),
    addLiquidity sumShares deepPool [333; 666] = Ok (p1, minted)
    /\ removeLiquidity p1 minted = Ok (p2, withdrawn)
    /\ withdrawn
       = map (fun s => reserve s * minted / lpShareSupply p1) (assets p1)
    /\ Forall2
         (fun sc w =>
            w <= snd sc
            /\ (reserve (fst sc) <= lpShareSupply p1 -> snd sc - w <= 1))
         (combine (assets deepPool) [333; 666]) withdrawn.
Proof.
  apply (liquidity_round_trip sumShares deepPool [333; 666]).
  - reflexivity.
  - discriminate.
  - repeat constructor.
  - exists 333, 1000. repeat split; try lia. repeat constructor.
Defined.

(** ** Registration of an asset *)













(** ** Further properties of the swap engine *)

(** Tolerance enforcement: a committed swap settles the solved output at
    no less than its declared minimum. *)
Lemma swap_meets_tolerance budget p req p' settled a minimum :
  swap budget p req = Ok (p', settled) ->
  In (a, Solve minimum) (outputs req) ->
  exists payout, In (a, payout) settled /\ minimum <= payout.
Proof.
  intros Hswap Hin. apply swap_Ok in Hswap.
  destruct Hswap as (y & _ & _ & _ & -> & Htol).
  rewrite forallb_forall in Htol. specialize (Htol _ Hin).
  unfold meetsTolerance in Htol. cbn [snd] in Htol. apply Z.leb_le in Htol.
  exists (snd (settledOf p y (a, Solve minimum))). split; [|exact Htol].
  apply in_map_iff. exists (a, Solve minimum). split; [|exact Hin].
  unfold settledOf. reflexivity.
Qed.

Lemma working_ids p req y slots :
  map assetId (working p req y slots) = map assetId slots.
Proof.
  unfold working. rewrite map_map. reflexivity.
Qed.

(** A committed swap keeps the invariants of the data model. *)
Lemma swap_preserves_wf budget p req p' settled :
  wf_pool p -> swap budget p req = Ok (p', settled) -> wf_pool p'.
Proof.
  intros W Hswap. apply swap_Ok in Hswap.
  destruct Hswap as (y & _ & Q & -> & _ & _).
  constructor; simpl.
  - exact (wf_fee_num _ W).
  - exact (wf_fee_den _ W).
  - unfold assetCount. simpl. unfold working. rewrite length_map.
    exact (wf_count _ W).
  - rewrite working_ids. exact (wf_unique _ W).
  - unfold working. rewrite Forall_map.
    eapply Forall_impl; [|exact (wf_weight _ W)]. intros s Hs. exact Hs.
  - apply Forall_forall. intros s' Hs'.
    unfold working in Hs'. apply in_map_iff in Hs'.
    destruct Hs' as (s & <- & Hs). simpl.
    destruct (roleOf req (assetId s)) as [role|] eqn:R.
    + pose proof (q_after _ _ _ Q) as Hafter.
      unfold positiveReserves in Hafter. rewrite Forall_forall in Hafter.
      assert (Hin : In (withReserve s (newReserve p req y s))
                       (working p req y (touched req (assets p)))).
      { unfold working. apply in_map_iff. exists s. split; [reflexivity|].
        unfold touched. apply filter_In. split; [exact Hs|]. now rewrite R. }
      specialize (Hafter _ Hin). simpl in Hafter. lia.
    + unfold newReserve. rewrite R.
      pose proof (wf_reserve _ W) as Hres. rewrite Forall_forall in Hres.
      now apply Hres.
  - exact (wf_supply _ W).
Qed.

(** * Further properties of the clients *)

(** ** The transaction that [AnySwap.swap] builds *)

Lemma intos_nth (inlets outlets : list AnySwap.Leg) (k : nat) (leg : AnySwap.Leg) :
  nth_error (inlets ++ outlets) k = Some leg ->
  nth_error (AnySwap.intos_of inlets outlets) k
  = Some (AnySwap.mkInto (AnySwap.amount leg) (AnySwap.vault leg)
            (AnySwap.user leg) (Nat.ltb k (List.length inlets))).
Proof.
  unfold AnySwap.intos_of. revert k.
  induction inlets as [|inlet inlets IH]; intros k H.
  - simpl in *. rewrite nth_error_map, H. simpl.
    destruct k; reflexivity.
  - destruct k as [|k]; simpl in *.
    + injection H as ->. reflexivity.
    + rewrite (IH k H). reflexivity.
Qed.

Lemma accounts_of_nth (intos : list AnySwap.Into) (k : nat) (item : AnySwap.Into) :
  nth_error intos k = Some item ->
  nth_error (AnySwap.accounts_of intos) (2 * k)
  = Some (mkMeta (AnySwap.into_user item) true false)
  /\ nth_error (AnySwap.accounts_of intos) (2 * k + 1)
     = Some (mkMeta (AnySwap.into_vault item) true false).
Proof.
  revert k. induction intos as [|i intos IH]; intros k H.
  - destruct k; discriminate.
  - destruct k as [|k].
    + injection H as ->. split; reflexivity.
    + replace (2 * S k)%nat with (S (S (2 * k))) by lia.
      replace (S (S (2 * k)) + 1)%nat with (S (S (2 * k + 1))) by lia.
      simpl in H. exact (IH k H).
Qed.

Lemma accounts_of_length (intos : list AnySwap.Into) :
  List.length (AnySwap.accounts_of intos) = (2 * List.length intos)%nat.
Proof.
  induction intos as [|i intos IH]; [reflexivity|].
  unfold AnySwap.accounts_of in *. simpl. rewrite IH. lia.
Qed.

Lemma swap_Returned_lengths wallet pool inlets outlets owner tx :
  AnySwap.swap wallet pool inlets outlets owner = Returned tx ->
  List.length (AnySwap.amounts_tolerance tx)
  = (List.length inlets + List.length outlets)%nat
  /\ List.length (AnySwap.is_in_token tx)
     = (List.length inlets + List.length outlets)%nat
  /\ List.length (AnySwap.remainingAccounts tx)
     = (2 * (List.length inlets + List.length outlets))%nat.
Proof.
  intros Hswap. rewrite swap_by_count in Hswap.
  destruct (AnySwap.cu_of _) as [cu|msg]; [|discriminate].
  apply Returned_inj in Hswap. rewrite <- Hswap.
  cbn [AnySwap.amounts_tolerance AnySwap.is_in_token AnySwap.remainingAccounts].
  rewrite !length_map, accounts_of_length, intos_length. auto.
Qed.

Lemma cu_of_Returned (n : nat) (cu : Z) :
  AnySwap.cu_of n = Returned cu ->
  (n <= 6)%nat
  /\ cu = (if Nat.eqb n 2 then 400000 else 400000 + 200000 * Z.of_nat n).
Proof.
  unfold AnySwap.cu_of.
  destruct (Nat.eqb_spec n 2) as [E2|E2].
  - intros H. apply Returned_inj in H. split; [lia|now symmetry].
  - destruct (Nat.leb_spec n 6) as [E6|E6]; [|discriminate].
    intros H. apply Returned_inj in H. split; [lia|now symmetry].
Qed.

(** X1. In a transaction of [AnySwap.swap] the participants are laid out
    in one order, the inlets before the outlets: the amount and the
    direction flag of the k-th participant stand at index k, its user
    account at index 2k of the remaining accounts and its vault at index
    2k+1, both writable and not signing; the two argument arrays have one
    entry per participant and the remaining accounts two. *)
Theorem swap_transaction_layout :
  forall (wallet pool : PublicKey) (inlets outlets : list AnySwap.Leg)
         (owner : option PublicKey) (tx : AnySwap.SwapTx)
         (k : nat) (leg : AnySwap.Leg),
    AnySwap.swap wallet pool inlets outlets owner = Returned tx ->
    nth_error (inlets ++ outlets) k = Some leg ->
    nth_error (AnySwap.amounts_tolerance tx) k = Some (AnySwap.amount leg)
    /\ nth_error (AnySwap.is_in_token tx) k = Some (Nat.ltb k (List.length inlets))
    /\ nth_error (AnySwap.remainingAccounts tx) (2 * k)
       = Some (mkMeta (AnySwap.user leg) true false)
    /\ nth_error (AnySwap.remainingAccounts tx) (2 * k + 1)
       = Some (mkMeta (AnySwap.vault leg) true false)
    /\ List.length (AnySwap.amounts_tolerance tx) = List.length (inlets ++ outlets)
    /\ List.length (AnySwap.is_in_token tx) = List.length (inlets ++ outlets)
    /\ List.length (AnySwap.remainingAccounts tx)
       = (2 * List.length (inlets ++ outlets))%nat.
Proof.
  intros wallet pool inlets outlets owner tx k leg Hswap Hleg.
  destruct (swap_Returned_lengths _ _ _ _ _ _ Hswap) as (Hla & Hlf & Hlr).
  rewrite length_app, Hla, Hlf, Hlr.
  rewrite swap_by_count in Hswap.
  destruct (AnySwap.cu_of _) as [cu|msg]; [|discriminate].
  apply Returned_inj in Hswap. rewrite <- Hswap.
  cbn [AnySwap.amounts_tolerance AnySwap.is_in_token AnySwap.remainingAccounts].
  pose proof (intos_nth inlets outlets k leg Hleg) as Hinto.
  destruct (accounts_of_nth _ _ _ Hinto) as [Hu Hv]. cbn in Hu, Hv.
  rewrite !nth_error_map, Hinto.
  repeat split; assumption.
Qed.

Lemma swap_transaction_layout_witness :
  exists tx,
    AnySwap.swap [x09] [x08] [AnySwap.mkLeg 5 [x01] [x02]]
      [AnySwap.mkLeg 7 [x03] [x04]] None = Returned tx
    /\ nth_error (AnySwap.amounts_tolerance tx) 1 = Some 7
    /\ nth_error (AnySwap.is_in_token tx) 1 = Some false
    /\ nth_error (AnySwap.remainingAccounts tx) 2 = Some (mkMeta [x04] true false)
    /\ nth_error (AnySwap.remainingAccounts tx) 3 = Some (mkMeta [x03] true false)
    /\ List.length (AnySwap.remainingAccounts tx) = 4%nat.
Proof.
  eexists. split; [reflexivity|].
  pose proof (swap_transaction_layout [x09] [x08] [AnySwap.mkLeg 5 [x01] [x02]]
                [AnySwap.mkLeg 7 [x03] [x04]] None _ 1%nat
                (AnySwap.mkLeg 7 [x03] [x04]) eq_refl eq_refl) as H.
  destruct H as (Ha & Hf & Hu & Hv & _ & _ & Hn).
  repeat split; assumption.
Defined.

(** X2. [AnySwap.swap] hands a transaction over exactly when at most six
    tokens take part. It does not ask for an input and an output: a request
    with one token or none is sent as well, with a limit of
    400000 + 200000 * count compute units. *)
Theorem swap_returns_iff_at_most_six :
  forall (wallet pool : PublicKey) (inlets outlets : list AnySwap.Leg)
         (owner : option PublicKey),
    ((exists tx, AnySwap.swap wallet pool inlets outlets owner = Returned tx)
     <-> (List.length inlets + List.length outlets <= 6)%nat)
    /\ (forall tx,
          AnySwap.swap wallet pool inlets outlets owner = Returned tx ->
          (List.length inlets + List.length outlets < 2)%nat ->
          AnySwap.units tx
          = 400000 + 200000 * Z.of_nat (List.length inlets + List.length outlets)).
Proof.
  intros wallet pool inlets outlets owner. rewrite swap_by_count.
  set (n := (List.length inlets + List.length outlets)%nat).
  split; [split|].
  - intros [tx Htx].
    destruct (Nat.le_gt_cases n 6) as [Hle|Hgt]; [exact Hle|].
    rewrite (cu_of_above_six n Hgt) in Htx. discriminate Htx.
  - intros Hle. unfold AnySwap.cu_of.
    destruct (Nat.eqb n 2); [eexists; reflexivity|].
    destruct (Nat.leb_spec n 6); [eexists; reflexivity|lia].
  - intros tx Htx Hlt. unfold AnySwap.cu_of in Htx.
    destruct (Nat.eqb_spec n 2); [lia|].
    destruct (Nat.leb_spec n 6); [|lia].
    apply Returned_inj in Htx. rewrite <- Htx. reflexivity.
Qed.

(** ** The swap form and the limit of six tokens *)

Lemma sampleForm_submitted :
  exists tx,
    SwapForm.handleSwap Z sampleParse (Z.ltb 0) sampleScale sampleKey sampleAta
      sampleForm = SwapForm.Submitted tx.
Proof. vm_compute. eexists. reflexivity. Qed.

(** X3. Whenever the swap form submits a transaction, between two and six
    tokens take part in it (those that are selected as input or output and
    carry a positive amount); the transaction has one amount per such
    token, two remaining accounts per such token, and the compute-unit
    limit of that count; with seven or more no transaction is submitted. *)
Theorem handleSwap_submits_two_to_six :
  forall (Number : Type) (parseFloat : string -> Number)
         (isPositive : Number -> bool) (scaleFloor : Number -> Z -> Z)
         (newPublicKey : string -> option PublicKey)
         (getAssociatedTokenAddress : PublicKey -> PublicKey -> option PublicKey)
         (s : SwapForm.FormState) (tx : AnySwap.SwapTx) (n : nat),
    SwapForm.handleSwap Number parseFloat isPositive scaleFloor newPublicKey
      getAssociatedTokenAddress s = SwapForm.Submitted tx ->
    n = (List.length (SwapForm.inputTokens Number parseFloat isPositive
                        (SwapForm.tokens s))
         + List.length (SwapForm.outputTokens Number parseFloat isPositive
                          (SwapForm.tokens s)))%nat ->
    (2 <= n <= 6)%nat
    /\ List.length (AnySwap.amounts_tolerance tx) = n
    /\ List.length (AnySwap.remainingAccounts tx) = (2 * n)%nat
    /\ AnySwap.units tx
       = (if Nat.eqb n 2 then 400000 else 400000 + 200000 * Z.of_nat n).
Proof.
  intros Number parseFloat isPositive scaleFloor newPublicKey ata s tx n Hout Hn.
  unfold SwapForm.handleSwap in Hout.
  destruct (SwapForm.client s) as [c|]; [|discriminate].
  destruct (SwapForm.publicKey s) as [owner|]; [|discriminate].
  destruct (_ || _); [discriminate|].
  destruct (Nat.eqb_spec (List.length (SwapForm.inputTokens Number parseFloat
                                          isPositive (SwapForm.tokens s))) 0)
    as [|Hi]; [discriminate|].
  destruct (Nat.eqb_spec (List.length (SwapForm.outputTokens Number parseFloat
                                          isPositive (SwapForm.tokens s))) 0)
    as [|Ho]; [discriminate|].
  cbn [orb] in Hout.
  destruct (newPublicKey (SwapForm.poolAddress s)) as [pool|]; [|discriminate].
  destruct (SwapForm.legsOf _ _ _ _ _ c owner pool
              (SwapForm.inputTokens Number parseFloat isPositive (SwapForm.tokens s)))
    as [inlets|] eqn:Li; [|discriminate].
  destruct (SwapForm.legsOf _ _ _ _ _ c owner pool
              (SwapForm.outputTokens Number parseFloat isPositive (SwapForm.tokens s)))
    as [outlets|] eqn:Lo; [|discriminate].
  apply legsOf_length in Li. apply legsOf_length in Lo.
  rewrite <- Li in Hi. rewrite <- Lo in Ho. rewrite <- Li, <- Lo in Hn.
  destruct (AnySwap.swap (SwapForm.wallet c) pool inlets outlets None)
    as [tx'|msg] eqn:Hswap; [|discriminate].
  assert (Etx : tx' = tx) by (injection Hout; auto). rewrite Etx in Hswap.
  destruct (swap_Returned_lengths _ _ _ _ _ _ Hswap) as (Ha & _ & Hr).
  apply swap_units_all_counts in Hswap. rewrite <- Hn in Hswap, Ha, Hr.
  apply cu_of_Returned in Hswap. destruct Hswap as [Hle Hcu].
  split; [lia|]. split; [exact Ha|]. split; [exact Hr|exact Hcu].
Qed.

Lemma handleSwap_submits_two_to_six_witness :
  exists tx,
    SwapForm.handleSwap Z sampleParse (Z.ltb 0) sampleScale sampleKey sampleAta
      sampleForm = SwapForm.Submitted tx
    /\ List.length (AnySwap.amounts_tolerance tx) = 2%nat
    /\ List.length (AnySwap.remainingAccounts tx) = 4%nat
    /\ AnySwap.units tx = 400000.
Proof.
  destruct sampleForm_submitted as [tx E]. exists tx. split; [exact E|].
  destruct (handleSwap_submits_two_to_six Z sampleParse (Z.ltb 0) sampleScale
              sampleKey sampleAta sampleForm tx 2%nat E eq_refl)
    as (_ & Ha & Hr & Hu).
  repeat split; assumption.
Defined.

Section SwapFormSelection.

Variable Number : Type.
Variable parseFloat : string -> Number.
Variable isPositive : Number -> bool.

Let selected (role : SwapForm.Status) (ts : list SwapForm.TokenSwapItem) :=
  filter (fun t => SwapForm.Status_eqb (SwapForm.status t) role
                   && SwapForm.hasAmount Number parseFloat isPositive t) ts.

Lemma deselect_selected (role : SwapForm.Status) (m : string)
    (ts : list SwapForm.TokenSwapItem) :
  role <> SwapForm.none ->
  selected role (SwapForm.handleStatusChange m SwapForm.none ts)
  = filter (fun t => negb (String.eqb (SwapForm.mint t) m)) (selected role ts).
Proof.
  intros Hrole. unfold selected, SwapForm.handleStatusChange.
  induction ts as [|t ts IH]; [reflexivity|].
  cbn [map filter]. rewrite IH.
  destruct (String.eqb (SwapForm.mint t) m) eqn:Em.
  - replace (SwapForm.Status_eqb
               (SwapForm.status
                  (SwapForm.mkItem (SwapForm.mint t) (SwapForm.decimals t)
                     (SwapForm.weight t) SwapForm.none
                     (if SwapForm.Status_eqb SwapForm.none SwapForm.none
                      then EmptyString else SwapForm.amount t))) role)
      with false by (destruct role; [reflexivity|reflexivity|contradiction]).
    cbn [andb].
    destruct (SwapForm.Status_eqb (SwapForm.status t) role
              && SwapForm.hasAmount Number parseFloat isPositive t);
      [|reflexivity].
    cbn [filter]. rewrite Em. reflexivity.
  - destruct (SwapForm.Status_eqb (SwapForm.status t) role
              && SwapForm.hasAmount Number parseFloat isPositive t);
      [|reflexivity].
    cbn [filter]. rewrite Em. reflexivity.
Qed.

Lemma cleared_selected (role : SwapForm.Status) (ts : list SwapForm.TokenSwapItem) :
  selected role (SwapForm.clearAmounts ts) = [].
Proof.
  unfold selected, SwapForm.clearAmounts.
  induction ts as [|t ts IH]; [reflexivity|].
  cbn [map filter]. rewrite IH.
  unfold SwapForm.hasAmount. cbn [SwapForm.amount String.eqb negb andb].
  rewrite andb_false_r. reflexivity.
Qed.

End SwapFormSelection.

(** X4. Setting a mint to "none" in the swap form takes exactly the
    entries of that mint out of the swap: the inputs and the outputs that
    the next click would use are the former ones without that mint, in the
    same order. *)
Theorem handleStatusChange_none_deselects :
  forall (Number : Type) (parseFloat : string -> Number)
         (isPositive : Number -> bool) (m : string)
         (ts : list SwapForm.TokenSwapItem),
    SwapForm.inputTokens Number parseFloat isPositive
      (SwapForm.handleStatusChange m SwapForm.none ts)
    = filter (fun t => negb (String.eqb (SwapForm.mint t) m))
        (SwapForm.inputTokens Number parseFloat isPositive ts)
    /\ SwapForm.outputTokens Number parseFloat isPositive
         (SwapForm.handleStatusChange m SwapForm.none ts)
       = filter (fun t => negb (String.eqb (SwapForm.mint t) m))
           (SwapForm.outputTokens Number parseFloat isPositive ts).
Proof.
  intros Number parseFloat isPositive m ts. split.
  - apply (deselect_selected Number parseFloat isPositive SwapForm.input).
    discriminate.
  - apply (deselect_selected Number parseFloat isPositive SwapForm.output).
    discriminate.
Qed.

(** X5. After a successful swap the form keeps the selections and clears
    the amounts, and a second click is then refused before any transaction
    is built: it ends in one of the two early returns. *)
Theorem handleSwap_after_clearing :
  forall (Number : Type) (parseFloat : string -> Number)
         (isPositive : Number -> bool) (scaleFloor : Number -> Z -> Z)
         (newPublicKey : string -> option PublicKey)
         (getAssociatedTokenAddress : PublicKey -> PublicKey -> option PublicKey)
         (s : SwapForm.FormState),
    map SwapForm.status (SwapForm.clearAmounts (SwapForm.tokens s))
    = map SwapForm.status (SwapForm.tokens s)
    /\ (SwapForm.handleSwap Number parseFloat isPositive scaleFloor newPublicKey
          getAssociatedTokenAddress
          (SwapForm.mkForm (SwapForm.client s) (SwapForm.publicKey s)
             (SwapForm.poolAddress s) (SwapForm.connection s)
             (SwapForm.clearAmounts (SwapForm.tokens s)))
        = SwapForm.MissingFields
        \/ SwapForm.handleSwap Number parseFloat isPositive scaleFloor newPublicKey
             getAssociatedTokenAddress
             (SwapForm.mkForm (SwapForm.client s) (SwapForm.publicKey s)
                (SwapForm.poolAddress s) (SwapForm.connection s)
                (SwapForm.clearAmounts (SwapForm.tokens s)))
           = SwapForm.NeedInputAndOutput).
Proof.
  intros Number parseFloat isPositive scaleFloor newPublicKey ata s. split.
  - unfold SwapForm.clearAmounts. rewrite map_map. reflexivity.
  - unfold SwapForm.handleSwap. cbn [SwapForm.client SwapForm.publicKey
      SwapForm.poolAddress SwapForm.connection SwapForm.tokens].
    destruct (SwapForm.client s); [|now left].
    destruct (SwapForm.publicKey s); [|now left].
    destruct (_ || _); [now left|].
    right. unfold SwapForm.inputTokens.
    rewrite (cleared_selected Number parseFloat isPositive SwapForm.input).
    reflexivity.
Qed.

(** ** The seed liquidity: failures and order *)

(** What one slot adds to [base]. *)
Definition slotValue (getAccount : PublicKey -> option Z)
    (t : Client.AnySwapPoolToken) : Z :=
  match getAccount (Client.vaultAccount t) with
  | Some vaultAmount => vaultAmount * Client.weight t
  | None => 0
  end.

Definition readable (getAccount : PublicKey -> option Z)
    (t : Client.AnySwapPoolToken) : bool :=
  match getAccount (Client.vaultAccount t) with
  | Some _ => true
  | None => false
  end.

Lemma accumulateBase_closed getAccount toks base :
  Client.accumulateBase getAccount toks base
  = if forallb (readable getAccount) toks
    then Some (base + fold_right Z.add 0 (map (slotValue getAccount) toks))
    else None.
Proof.
  revert base. induction toks as [|t toks IH]; intros base.
  - simpl. f_equal. lia.
  - cbn [Client.accumulateBase forallb map fold_right].
    unfold readable at 1, slotValue at 1.
    destruct (getAccount (Client.vaultAccount t)) as [b|]; [|reflexivity].
    rewrite IH. cbn [andb].
    destruct (forallb (readable getAccount) toks); [|reflexivity].
    f_equal. lia.
Qed.

Lemma forallb_readable_perm getAccount toks toks' :
  Permutation toks toks' ->
  forallb (readable getAccount) toks = forallb (readable getAccount) toks'.
Proof.
  induction 1 as [|t l l' _ IH|t u l|l l' l'' _ IH1 _ IH2]; cbn [forallb].
  - reflexivity.
  - now rewrite IH.
  - now rewrite !andb_assoc, (andb_comm (readable getAccount u)).
  - congruence.
Qed.

Lemma sum_slotValue_perm getAccount toks toks' :
  Permutation toks toks' ->
  fold_right Z.add 0 (map (slotValue getAccount) toks)
  = fold_right Z.add 0 (map (slotValue getAccount) toks').
Proof.
  induction 1 as [|t l l' _ IH|t u l|l l' l'' _ IH1 _ IH2]; cbn [map fold_right].
  - reflexivity.
  - now rewrite IH.
  - lia.
  - congruence.
Qed.

(** After the fetch, the computation fails in exactly two cases: the new
    weight is zero, or the vault account of one of the tokens in use cannot
    be read. *)
Lemma seed_fails_fetched :
  forall (getAccount : PublicKey -> option Z) (poolAccount : Client.PoolAccount)
         (weight : BN),
    (Client.calculateRequiredWSOLLiquidity getAccount poolAccount weight = None
     <-> weight = 0
         \/ exists t, In t (Client.getPool_tokens poolAccount)
                      /\ getAccount (Client.vaultAccount t) = None)
    /\ (Client.tokenCount poolAccount = 0%nat -> weight <> 0 ->
        Client.calculateRequiredWSOLLiquidity getAccount poolAccount weight
        = Some 0).
Proof.
  intros getAccount poolAccount weight.
  unfold Client.calculateRequiredWSOLLiquidity.
  rewrite accumulateBase_closed. split; [split|].
  - destruct (forallb (readable getAccount) (Client.getPool_tokens poolAccount))
      eqn:Hall.
    + unfold Client.BN_div. destruct (Z.eqb_spec weight 0); [now left|discriminate].
    + intros _. right.
      assert (Hex : existsb (fun t => negb (readable getAccount t))
                      (Client.getPool_tokens poolAccount) = true).
      { clear -Hall. induction (Client.getPool_tokens poolAccount) as [|t l IH];
          [discriminate|].
        cbn [forallb existsb] in *.
        destruct (readable getAccount t); cbn [negb andb orb] in *; auto. }
      apply existsb_exists in Hex. destruct Hex as (t & Hin & Ht).
      exists t. split; [exact Hin|]. unfold readable in Ht.
      destruct (getAccount (Client.vaultAccount t)); [discriminate|reflexivity].
  - intros [-> | (t & Hin & Ht)].
    + destruct (forallb _ _); reflexivity.
    + assert (Hall : forallb (readable getAccount)
                       (Client.getPool_tokens poolAccount) = false).
      { apply not_true_is_false. intros Hall.
        rewrite forallb_forall in Hall. specialize (Hall t Hin).
        unfold readable in Hall. rewrite Ht in Hall. discriminate. }
      rewrite Hall. reflexivity.
  - intros Hcount Hw. unfold Client.getPool_tokens. rewrite Hcount.
    cbn [firstn forallb map fold_right]. unfold Client.BN_div.
    destruct (Z.eqb_spec weight 0); [contradiction|reflexivity].
Qed.

Lemma calculateRequiredWSOLLiquidity_of_fetched fetch getAccount programId pool weight :
  Client.calculateRequiredWSOLLiquidity_of fetch getAccount programId pool weight
  = match fetch pool with
    | None => None
    | Some poolAccount =>
        match Utils.getPoolMint programId pool with
        | inr _ => None
        | inl _ =>
            Client.calculateRequiredWSOLLiquidity getAccount poolAccount weight
        end
    end.
Proof.
  unfold Client.calculateRequiredWSOLLiquidity_of, Client.getPool,
    Client.calculateRequiredWSOLLiquidity.
  destruct (fetch pool) as [poolAccount|]; [|reflexivity].
  destruct (Utils.getPoolMint programId pool) as [lpMint|e]; reflexivity.
Qed.

(** X6. [calculateRequiredWSOLLiquidity] fails in exactly these cases:
    [getPool] fails, because the pool account cannot be fetched or the LP
    mint of the pool cannot be derived; the new weight is zero; or the
    vault account of one of the tokens in use cannot be read. For a
    fetched pool without tokens it returns zero for every weight other
    than zero. *)
Theorem seed_fails_iff :
  forall (fetch : PublicKey -> option Client.PoolAccount)
         (getAccount : PublicKey -> option Z) (programId pool : PublicKey)
         (weight : BN),
    (Client.calculateRequiredWSOLLiquidity_of fetch getAccount programId pool weight
     = None
     <-> fetch pool = None
         \/ (exists e, Utils.getPoolMint programId pool = inr e)
         \/ weight = 0
         \/ exists poolAccount t,
              fetch pool = Some poolAccount
              /\ In t (Client.getPool_tokens poolAccount)
              /\ getAccount (Client.vaultAccount t) = None)
    /\ (forall poolAccount lpMint,
          fetch pool = Some poolAccount ->
          Utils.getPoolMint programId pool = inl lpMint ->
          Client.tokenCount poolAccount = 0%nat -> weight <> 0 ->
          Client.calculateRequiredWSOLLiquidity_of fetch getAccount programId pool
            weight = Some 0).
Proof.
  intros fetch getAccount programId pool weight.
  rewrite calculateRequiredWSOLLiquidity_of_fetched.
  split; [split|].
  - destruct (fetch pool) as [poolAccount|] eqn:Hfetch; [|now left].
    destruct (Utils.getPoolMint programId pool) as [lpMint|e] eqn:Hmint;
      [|intros _; right; left; now exists e].
    intros Hnone.
    apply (proj1 (seed_fails_fetched getAccount poolAccount weight)) in Hnone.
    destruct Hnone as [Hw|(t & Hin & Ht)].
    + right. right. now left.
    + right. right. right. now exists poolAccount, t.
  - intros [Hfetch|[[e He]|[Hw|(poolAccount & t & Hfetch & Hin & Ht)]]].
    + now rewrite Hfetch.
    + destruct (fetch pool); [|reflexivity]. now rewrite He.
    + destruct (fetch pool) as [poolAccount|]; [|reflexivity].
      destruct (Utils.getPoolMint programId pool); [|reflexivity].
      apply (proj1 (seed_fails_fetched getAccount poolAccount weight)). now left.
    + rewrite Hfetch. destruct (Utils.getPoolMint programId pool); [|reflexivity].
      apply (proj1 (seed_fails_fetched getAccount poolAccount weight)).
      right. now exists t.
  - intros poolAccount lpMint Hfetch Hmint Hcount Hw.
    rewrite Hfetch, Hmint.
    now apply (proj2 (seed_fails_fetched getAccount poolAccount weight)).
Qed.

(** X7. The seed does not depend on the order of the tokens in the pool:
    two pool accounts whose slots in use are permutations of each other
    give the same result, failures included. *)
Theorem seed_order_independent :
  forall (getAccount : PublicKey -> option Z)
         (poolAccount poolAccount' : Client.PoolAccount) (weight : BN),
    Permutation (Client.getPool_tokens poolAccount)
                (Client.getPool_tokens poolAccount') ->
    Client.calculateRequiredWSOLLiquidity getAccount poolAccount weight
    = Client.calculateRequiredWSOLLiquidity getAccount poolAccount' weight.
Proof.
  intros getAccount poolAccount poolAccount' weight Hperm.
  unfold Client.calculateRequiredWSOLLiquidity.
  rewrite !accumulateBase_closed.
  rewrite (forallb_readable_perm getAccount _ _ Hperm).
  rewrite (sum_slotValue_perm getAccount _ _ Hperm). reflexivity.
Qed.

Lemma seed_order_independent_witness :
  Client.calculateRequiredWSOLLiquidity (balancesXY 10000 20000) poolXY 30
  = Client.calculateRequiredWSOLLiquidity (balancesXY 10000 20000)
      (Client.mkPoolAccount
         [Client.mkToken vaultY [x02] 40; Client.mkToken vaultX [x01] 20] 2) 30.
Proof.
  apply (seed_order_independent (balancesXY 10000 20000) poolXY
           (Client.mkPoolAccount
              [Client.mkToken vaultY [x02] 40; Client.mkToken vaultX [x01] 20] 2) 30).
  apply perm_swap.
Defined.

(** ** The remaining accounts of the liquidity methods *)

(** The pair of entries for index [i]. *)
Definition pairAt (userTokenAccounts vaultAccounts : list PublicKey) (i : nat)
    : list IndexedMeta :=
  [mkIndexedMeta (nth_error userTokenAccounts i) true false;
   mkIndexedMeta (nth_error vaultAccounts i) true false].

Lemma anySwap_liquidityAccounts_pairs (userTokenAccounts vaultAccounts : list PublicKey) :
  AnySwap.liquidityAccounts userTokenAccounts vaultAccounts
  = flat_map (pairAt userTokenAccounts vaultAccounts)
      (seq 0 (List.length userTokenAccounts)).
Proof.
  unfold AnySwap.liquidityAccounts.
  enough (H : forall rest done,
             List.concat
               (mapIndexed
                  (fun userAccount index =>
                     [mkIndexedMeta (Some userAccount) true false;
                      mkIndexedMeta (nth_error vaultAccounts index) true false])
                  (List.length done) rest)
             = flat_map (pairAt (done ++ rest) vaultAccounts)
                 (seq (List.length done) (List.length rest)))
    by exact (H userTokenAccounts []).
  induction rest as [|x rest IH]; intros done; [reflexivity|].
  cbn [mapIndexed List.concat List.length seq flat_map].
  unfold pairAt at 1.
  rewrite nth_error_app2, Nat.sub_diag by lia. cbn [nth_error app].
  do 2 f_equal.
  specialize (IH (done ++ [x])).
  rewrite length_app, Nat.add_1_r, <- app_assoc in IH. exact IH.
Qed.

Lemma client_liquidityAccounts_pairs (userTokenAccounts vaultAccounts : list PublicKey) :
  Client.liquidityAccounts userTokenAccounts vaultAccounts
  = flat_map (pairAt userTokenAccounts vaultAccounts)
      (seq 0 (List.length userTokenAccounts)).
Proof.
  unfold Client.liquidityAccounts.
  enough (H : forall indices remainingAccounts,
             fold_left
               (fun remainingAccounts i =>
                  remainingAccounts
                  ++ [mkIndexedMeta (nth_error userTokenAccounts i) true false]
                  ++ [mkIndexedMeta (nth_error vaultAccounts i) true false])
               indices remainingAccounts
             = remainingAccounts
               ++ flat_map (pairAt userTokenAccounts vaultAccounts) indices)
    by exact (H _ []).
  induction indices as [|i indices IH]; intros remainingAccounts.
  - cbn. now rewrite app_nil_r.
  - cbn [fold_left flat_map]. rewrite IH, <- app_assoc. reflexivity.
Qed.

Lemma pairs_nth (a b : nat -> IndexedMeta) (count start k : nat) :
  (k < count)%nat ->
  nth_error (flat_map (fun i => [a i; b i]) (seq start count)) (2 * k)
  = Some (a (start + k)%nat)
  /\ nth_error (flat_map (fun i => [a i; b i]) (seq start count)) (2 * k + 1)
     = Some (b (start + k)%nat).
Proof.
  revert start k. induction count as [|count IH]; intros start k Hk; [lia|].
  destruct k as [|k].
  - rewrite Nat.add_0_r. split; reflexivity.
  - replace (2 * S k)%nat with (S (S (2 * k))) by lia.
    replace (S (S (2 * k)) + 1)%nat with (S (S (2 * k + 1))) by lia.
    replace (start + S k)%nat with (S start + k)%nat by lia.
    cbn [seq flat_map app nth_error]. apply IH. lia.
Qed.

Lemma pairs_length (f : nat -> list IndexedMeta) (indices : list nat) :
  (forall i, List.length (f i) = 2%nat) ->
  List.length (flat_map f indices) = (2 * List.length indices)%nat.
Proof.
  intros Hf. induction indices as [|i indices IH]; [reflexivity|].
  cbn [flat_map List.length]. rewrite length_app, Hf, IH. lia.
Qed.

(** X8. The class [AnySwap] (with [map] and [flat]) and the class
    [Client] (with a loop and [push]) build the same remaining accounts
    for [addLiquidity] and [removeLiquidity], for all arrays of user
    accounts and of vaults, whatever their lengths. *)
Theorem liquidityAccounts_agree :
  forall (userTokenAccounts vaultAccounts : list PublicKey),
    AnySwap.liquidityAccounts userTokenAccounts vaultAccounts
    = Client.liquidityAccounts userTokenAccounts vaultAccounts.
Proof.
  intros. now rewrite anySwap_liquidityAccounts_pairs, client_liquidityAccounts_pairs.
Qed.

(** X9. The remaining accounts of [addLiquidity] and [removeLiquidity]
    follow the array of user accounts: two writable, non-signing entries
    per user account, the user account at index 2k and the k-th vault at
    index 2k+1. The lengths of the two arrays are not compared: a vault
    that is missing becomes an entry with an undefined key, and vaults
    beyond the last user account are left out. *)
Theorem liquidityAccounts_layout :
  forall (userTokenAccounts vaultAccounts : list PublicKey) (k : nat)
         (userAccount : PublicKey),
    nth_error userTokenAccounts k = Some userAccount ->
    nth_error (AnySwap.liquidityAccounts userTokenAccounts vaultAccounts) (2 * k)
    = Some (mkIndexedMeta (Some userAccount) true false)
    /\ nth_error (AnySwap.liquidityAccounts userTokenAccounts vaultAccounts)
         (2 * k + 1)
       = Some (mkIndexedMeta (nth_error vaultAccounts k) true false)
    /\ List.length (AnySwap.liquidityAccounts userTokenAccounts vaultAccounts)
       = (2 * List.length userTokenAccounts)%nat.
Proof.
  intros userTokenAccounts vaultAccounts k userAccount Hk.
  rewrite anySwap_liquidityAccounts_pairs.
  assert (Hlt : (k < List.length userTokenAccounts)%nat)
    by (apply nth_error_Some; congruence).
  destruct (pairs_nth
              (fun i => mkIndexedMeta (nth_error userTokenAccounts i) true false)
              (fun i => mkIndexedMeta (nth_error vaultAccounts i) true false)
              _ 0 k Hlt) as [Hu Hv].
  cbn [Nat.add] in Hu, Hv. rewrite Hk in Hu.
  split; [exact Hu|]. split; [exact Hv|].
  rewrite pairs_length by reflexivity. now rewrite length_seq.
Qed.

Lemma liquidityAccounts_layout_witness :
  nth_error (AnySwap.liquidityAccounts [[x01]; [x02]] [[x0a]]) 2
  = Some (mkIndexedMeta (Some [x02]) true false)
  /\ nth_error (AnySwap.liquidityAccounts [[x01]; [x02]] [[x0a]]) 3
     = Some (mkIndexedMeta None true false)
  /\ List.length (AnySwap.liquidityAccounts [[x01]; [x02]] [[x0a]]) = 4%nat.
Proof.
  apply (liquidityAccounts_layout [[x01]; [x02]] [[x0a]] 1%nat [x02]).
  reflexivity.
Defined.

(** ** The derived addresses *)

Lemma compress_length (h : list Web3.word) (block : list Z) :
  List.length (Web3.compress h block) = 8%nat.
Proof.
  unfold Web3.compress. rewrite length_map, length_combine. reflexivity.
Qed.

Lemma sha256_length (msg : list byte) : List.length (Web3.sha256 msg) = 32%nat.
Proof.
  unfold Web3.sha256. rewrite length_map.
  set (padded := Web3.pad (map Web3.byteZ msg)).
  assert (Hh : forall blocks h, List.length h = 8%nat ->
                 List.length (fold_left Web3.compress blocks h) = 8%nat).
  { induction blocks as [|b blocks IH]; intros h Hlen; [exact Hlen|].
    cbn [fold_left]. apply IH, compress_length. }
  specialize (Hh (Web3.blocks (List.length padded) padded) Web3.initialHash eq_refl).
  revert Hh. generalize (fold_left Web3.compress
                           (Web3.blocks (List.length padded) padded)
                           Web3.initialHash).
  intros h Hh.
  assert (Hflat : forall ws : list Web3.word,
             List.length (flat_map (fun w => Web3.bigEndian 4 (Uint63.to_Z w)) ws)
             = (4 * List.length ws)%nat).
  { induction ws as [|w ws IH]; [reflexivity|].
    cbn [flat_map List.length]. rewrite length_app, IH.
    unfold Web3.bigEndian. rewrite length_map, length_seq. lia. }
  rewrite Hflat, Hh. reflexivity.
Qed.

(** The buffer that is hashed for a list of seeds and a bump. *)
Definition derivationBuffer (seeds : list (list byte)) (bump : Z)
    (programId : PublicKey) : list byte :=
  List.concat (seeds ++ [[Web3.Zbyte bump]]) ++ programId
  ++ Web3.Buffer_from "ProgramDerivedAddress".

Lemma createProgramAddressSync_inl seeds bump programId address :
  Web3.createProgramAddressSync (seeds ++ [[Web3.Zbyte bump]]) programId
  = inl address ->
  address = Web3.sha256 (derivationBuffer seeds bump programId)
  /\ Web3.isOnCurve address = false
  /\ Forall (fun seed => (List.length seed <= 32)%nat) seeds.
Proof.
  unfold Web3.createProgramAddressSync. fold (derivationBuffer seeds bump programId).
  destruct (existsb _ _) eqn:Hlong; [discriminate|].
  destruct (Web3.isOnCurve (Web3.sha256 (derivationBuffer seeds bump programId)))
    eqn:Hcurve; [discriminate|].
  intros H. injection H as <-. split; [reflexivity|]. split; [exact Hcurve|].
  apply Forall_forall. intros seed Hin.
  destruct (Nat.ltb_spec 32 (List.length seed)) as [Hgt|Hle]; [|exact Hle].
  assert (Hex : existsb (fun seed => Nat.ltb 32 (List.length seed))
                  (seeds ++ [[Web3.Zbyte bump]]) = true).
  { apply existsb_exists. exists seed. split.
    - apply in_or_app. now left.
    - now apply Nat.ltb_lt. }
  congruence.
Qed.

Lemma createProgramAddressSync_on_curve seeds bump programId e :
  Web3.createProgramAddressSync (seeds ++ [[Web3.Zbyte bump]]) programId = inr e ->
  e <> Web3.MaxSeedLengthExceeded ->
  Web3.isOnCurve (Web3.sha256 (derivationBuffer seeds bump programId)) = true.
Proof.
  unfold Web3.createProgramAddressSync. fold (derivationBuffer seeds bump programId).
  destruct (existsb _ _); [intros H; injection H as <-; contradiction|].
  destruct (Web3.isOnCurve _); [reflexivity|discriminate].
Qed.

Lemma findNonce_inl count nonce seeds programId address bump :
  Web3.findNonce count nonce seeds programId = inl (address, bump) ->
  nonce - Z.of_nat count < bump <= nonce
  /\ Web3.createProgramAddressSync (seeds ++ [[Web3.Zbyte bump]]) programId
     = inl address
  /\ forall b, bump < b <= nonce ->
       Web3.isOnCurve (Web3.sha256 (derivationBuffer seeds b programId)) = true.
Proof.
  revert nonce. induction count as [|count IH]; intros nonce H; [discriminate|].
  cbn [Web3.findNonce] in H.
  destruct (Web3.createProgramAddressSync (seeds ++ [[Web3.Zbyte nonce]]) programId)
    as [a|e] eqn:Hcreate.
  - injection H as <- <-. split; [lia|]. split; [exact Hcreate|]. intros b Hb. lia.
  - assert (Hrec : Web3.findNonce count (nonce - 1) seeds programId
                   = inl (address, bump) /\ e <> Web3.MaxSeedLengthExceeded).
    { destruct e; [discriminate| |]; (split; [exact H|discriminate]). }
    destruct Hrec as [Hrec He].
    destruct (IH _ Hrec) as (Hrange & Hbump & Habove).
    split; [lia|]. split; [exact Hbump|].
    intros b Hb. destruct (Z.eq_dec b nonce) as [->|Hne].
    + exact (createProgramAddressSync_on_curve _ _ _ _ Hcreate He).
    + apply Habove. lia.
Qed.

Lemma findProgramAddressSync_inl seeds programId address bump :
  Web3.findProgramAddressSync seeds programId = inl (address, bump) ->
  1 <= bump <= 255
  /\ address = Web3.sha256 (derivationBuffer seeds bump programId)
  /\ List.length address = 32%nat
  /\ Web3.isOnCurve address = false
  /\ Forall (fun seed => (List.length seed <= 32)%nat) seeds
  /\ forall b, bump < b <= 255 ->
       Web3.isOnCurve (Web3.sha256 (derivationBuffer seeds b programId)) = true.
Proof.
  unfold Web3.findProgramAddressSync. intros H.
  apply findNonce_inl in H. destruct H as (Hrange & Hcreate & Habove).
  apply createProgramAddressSync_inl in Hcreate.
  destruct Hcreate as (Haddr & Hcurve & Hseeds).
  split; [lia|]. split; [exact Haddr|].
  split; [rewrite Haddr; apply sha256_length|].
  repeat split; assumption.
Qed.

Lemma getPoolAuthority_eq programId pool :
  AnySwap.getPoolAuthority programId pool
  = Web3.findProgramAddressSync [Web3.Buffer_from "anyswap_authority"; pool]
      programId.
Proof. unfold AnySwap.getPoolAuthority. reflexivity. Qed.

Lemma getVault_eq programId pool mint :
  AnySwap.getVault programId pool mint
  = addressOf (Web3.findProgramAddressSync
                 [Web3.Buffer_from "vault"; pool; mint] programId).
Proof. unfold AnySwap.getVault. reflexivity. Qed.

Lemma addressOf_inl (r : (PublicKey * Z) + Web3.PdaError) (address : PublicKey) :
  addressOf r = inl address -> exists bump, r = inl (address, bump).
Proof.
  destruct r as [[a bump]|e]; [|discriminate].
  intros H. exists bump. injection H as ->. reflexivity.
Qed.

Lemma sample_poolAuthority :
  exists authority bump,
    AnySwap.getPoolAuthority sampleProgram samplePool = inl (authority, bump).
Proof. vm_compute. do 2 eexists. reflexivity. Qed.

(** X10. The pool authority that [getPoolAuthority] returns is a 32-byte
    SHA-256 digest that is not a point of the Ed25519 curve, so that no
    private key signs for it, and its bump is the canonical one: between 1
    and 255, and the highest for which the digest is off the curve. *)
Theorem getPoolAuthority_canonical :
  forall (programId pool authority : PublicKey) (bump : Z),
    AnySwap.getPoolAuthority programId pool = inl (authority, bump) ->
    1 <= bump <= 255
    /\ authority
       = Web3.sha256
           (derivationBuffer [Web3.Buffer_from "anyswap_authority"; pool] bump
              programId)
    /\ List.length authority = 32%nat
    /\ Web3.isOnCurve authority = false
    /\ forall b, bump < b <= 255 ->
         Web3.isOnCurve
           (Web3.sha256
              (derivationBuffer [Web3.Buffer_from "anyswap_authority"; pool] b
                 programId)) = true.
Proof.
  intros programId pool authority bump H.
  rewrite getPoolAuthority_eq in H.
  apply findProgramAddressSync_inl in H.
  destruct H as (Hb & Ha & Hl & Hc & _ & Habove).
  split; [exact Hb|]. split; [exact Ha|]. split; [exact Hl|].
  split; [exact Hc|exact Habove].
Qed.

Lemma getPoolAuthority_canonical_witness :
  exists authority bump,
    AnySwap.getPoolAuthority sampleProgram samplePool = inl (authority, bump)
    /\ 1 <= bump <= 255
    /\ List.length authority = 32%nat
    /\ Web3.isOnCurve authority = false.
Proof.
  destruct sample_poolAuthority as (authority & bump & E).
  exists authority, bump. split; [exact E|].
  destruct (getPoolAuthority_canonical sampleProgram samplePool authority bump E)
    as (Hb & _ & Hl & Hc & _).
  split; [exact Hb|]. split; [exact Hl|exact Hc].
Defined.

Lemma sample_vault :
  exists vault, AnySwap.getVault sampleProgram samplePool wsolMint = inl vault.
Proof. vm_compute. eexists. reflexivity. Qed.

(** X11. A vault address that [getVault] returns is a 32-byte digest off
    the Ed25519 curve, derived from the seed "vault", the pool key and the
    mint key, neither of which is longer than 32 bytes; the helper of
    [utils.ts] returns the same address. *)
Theorem getVault_off_curve :
  forall (programId pool mint vault : PublicKey),
    AnySwap.getVault programId pool mint = inl vault ->
    List.length vault = 32%nat
    /\ Web3.isOnCurve vault = false
    /\ (List.length pool <= 32)%nat /\ (List.length mint <= 32)%nat
    /\ (exists bump,
          1 <= bump <= 255
          /\ vault = Web3.sha256
                       (derivationBuffer [Web3.Buffer_from "vault"; pool; mint]
                          bump programId))
    /\ Utils.getVault programId pool mint = inl vault.
Proof.
  intros programId pool mint vault H.
  assert (Hutils : Utils.getVault programId pool mint = inl vault)
    by (rewrite utils_getVault_agrees; exact H).
  rewrite getVault_eq in H. apply addressOf_inl in H. destruct H as [bump Hfind].
  apply findProgramAddressSync_inl in Hfind.
  destruct Hfind as (Hb & Ha & Hl & Hc & Hseeds & _).
  apply Forall_inv_tail in Hseeds.
  pose proof (Forall_inv Hseeds) as Hpool.
  pose proof (Forall_inv (Forall_inv_tail Hseeds)) as Hmint.
  split; [exact Hl|]. split; [exact Hc|]. split; [exact Hpool|].
  split; [exact Hmint|]. split; [|exact Hutils].
  exists bump. split; [lia|exact Ha].
Qed.

Lemma getVault_off_curve_witness :
  exists vault,
    AnySwap.getVault sampleProgram samplePool wsolMint = inl vault
    /\ List.length vault = 32%nat
    /\ Web3.isOnCurve vault = false.
Proof.
  destruct sample_vault as (vault & E). exists vault. split; [exact E|].
  destruct (getVault_off_curve sampleProgram samplePool wsolMint vault E)
    as (Hl & Hc & _).
  split; assumption.
Defined.

(** ** The storage context *)

Lemma existsb_eqb_In (pool : string) (l : list string) :
  existsb (fun p => String.eqb p pool) l = true <-> In pool l.
Proof.
  rewrite existsb_exists. split.
  - intros (p & Hin & Hp). apply String.eqb_eq in Hp. now subst.
  - intros Hin. exists pool. split; [exact Hin|apply String.eqb_refl].
Qed.

Lemma existsb_mint_In (m : string) (l : list Storage.CreatedTokenInfo) :
  existsb (fun t => String.eqb (Storage.mint t) m) l = true
  <-> In m (map Storage.mint l).
Proof.
  rewrite existsb_exists, in_map_iff. split.
  - intros (t & Hin & Ht). apply String.eqb_eq in Ht. now exists t.
  - intros (t & Ht & Hin). exists t. split; [exact Hin|].
    rewrite Ht. apply String.eqb_refl.
Qed.

Lemma addPool_eq (pool : string) (st : Storage.State) :
  Storage.addPool pool st
  = if existsb (fun p => String.eqb p pool) (Storage.pools st)
    then st
    else Storage.mkState (Storage.pools st ++ [pool]) (Storage.tokens st)
           (Some (Storage.pools st ++ [pool])) (Storage.savedTokens st).
Proof.
  unfold Storage.addPool, Storage.addPoolUpdater.
  destruct (existsb _ (Storage.pools st)); reflexivity.
Qed.

Lemma addToken_eq (token : Storage.CreatedTokenInfo) (st : Storage.State) :
  Storage.addToken token st
  = if existsb (fun t => String.eqb (Storage.mint t) (Storage.mint token))
         (Storage.tokens st)
    then st
    else Storage.mkState (Storage.pools st) (Storage.tokens st ++ [token])
           (Storage.savedPools st) (Some (Storage.tokens st ++ [token])).
Proof.
  unfold Storage.addToken, Storage.addTokenUpdater.
  destruct (existsb _ (Storage.tokens st)); reflexivity.
Qed.

Lemma step_no_duplicates (st : Storage.State) (a : Storage.Action) :
  NoDup (Storage.pools st) ->
  NoDup (map Storage.mint (Storage.tokens st)) ->
  NoDup (Storage.pools (Storage.step st a))
  /\ NoDup (map Storage.mint (Storage.tokens (Storage.step st a))).
Proof.
  intros Hp Ht. destruct a as [pool| |token|]; cbn [Storage.step].
  - rewrite addPool_eq.
    destruct (existsb _ (Storage.pools st)) eqn:E; [now split|].
    cbn [Storage.pools Storage.tokens]. split; [|exact Ht].
    apply NoDup_snoc; [exact Hp|].
    intros Hin. apply existsb_eqb_In in Hin. congruence.
  - cbn [Storage.clearPools Storage.pools Storage.tokens]. split; [constructor|exact Ht].
  - rewrite addToken_eq.
    destruct (existsb _ (Storage.tokens st)) eqn:E; [now split|].
    cbn [Storage.pools Storage.tokens]. split; [exact Hp|].
    rewrite map_app. cbn [map]. apply NoDup_snoc; [exact Ht|].
    intros Hin. apply existsb_mint_In in Hin. congruence.
  - cbn [Storage.clearTokens Storage.pools Storage.tokens]. split; [exact Hp|constructor].
Qed.

(** X12. The storage context never holds a pool address twice, nor two
    tokens of one mint: if the lists are free of duplicates, they stay so
    through every sequence of [addPool], [clearPools], [addToken] and
    [clearTokens]. *)
Theorem storage_no_duplicates :
  forall (actions : list Storage.Action) (st : Storage.State),
    NoDup (Storage.pools st) ->
    NoDup (map Storage.mint (Storage.tokens st)) ->
    NoDup (Storage.pools (Storage.run actions st))
    /\ NoDup (map Storage.mint (Storage.tokens (Storage.run actions st))).
Proof.
  unfold Storage.run.
  induction actions as [|a actions IH]; intros st Hp Ht; [now split|].
  cbn [fold_left].
  destruct (step_no_duplicates st a Hp Ht) as [Hp' Ht'].
  exact (IH _ Hp' Ht').
Qed.

Definition sampleToken (n s : string) : Storage.CreatedTokenInfo :=
  Storage.mkCreatedToken n s 9 "M".

Lemma storage_no_duplicates_witness :
  NoDup (Storage.pools
           (Storage.run [Storage.AddPool "P"; Storage.AddPool "Q"; Storage.AddPool "P";
                         Storage.AddToken (sampleToken "a" "A");
                         Storage.AddToken (sampleToken "b" "B")]
              (Storage.mount None None)))
  /\ NoDup (map Storage.mint
              (Storage.tokens
                 (Storage.run [Storage.AddPool "P"; Storage.AddPool "Q";
                               Storage.AddPool "P";
                               Storage.AddToken (sampleToken "a" "A");
                               Storage.AddToken (sampleToken "b" "B")]
                    (Storage.mount None None)))).
Proof.
  apply (storage_no_duplicates
           [Storage.AddPool "P"; Storage.AddPool "Q"; Storage.AddPool "P";
            Storage.AddToken (sampleToken "a" "A");
            Storage.AddToken (sampleToken "b" "B")]
           (Storage.mount None None)); simpl; constructor.
Defined.

Lemma addPool_facts (pool : string) (st : Storage.State) :
  firstn (List.length (Storage.pools st))
         (Storage.pools (Storage.addPool pool st)) = Storage.pools st
  /\ In pool (Storage.pools (Storage.addPool pool st))
  /\ Storage.addPool pool (Storage.addPool pool st) = Storage.addPool pool st.
Proof.
  rewrite (addPool_eq pool (Storage.addPool pool st)).
  rewrite (addPool_eq pool st).
  destruct (existsb (fun p => String.eqb p pool) (Storage.pools st)) eqn:Ep.
  - split; [apply firstn_all|]. split; [now apply existsb_eqb_In|].
    now rewrite Ep.
  - cbn [Storage.pools]. split.
    + rewrite firstn_app, Nat.sub_diag, firstn_all. apply app_nil_r.
    + split; [apply in_or_app; right; now left|].
      assert (Hp : existsb (fun p => String.eqb p pool) (Storage.pools st ++ [pool])
                   = true)
        by (apply existsb_eqb_In, in_or_app; right; now left).
      now rewrite Hp.
Qed.

Lemma find_existsb (m : string) (l : list Storage.CreatedTokenInfo) :
  existsb (fun t => String.eqb (Storage.mint t) m) l
  = match find (fun t => String.eqb (Storage.mint t) m) l with
    | Some _ => true
    | None => false
    end.
Proof.
  induction l as [|t l IH]; [reflexivity|]. cbn [existsb find].
  destruct (String.eqb (Storage.mint t) m); [reflexivity|exact IH].
Qed.

Lemma find_snoc (token : Storage.CreatedTokenInfo) (l : list Storage.CreatedTokenInfo) :
  find (fun t => String.eqb (Storage.mint t) (Storage.mint token)) l = None ->
  find (fun t => String.eqb (Storage.mint t) (Storage.mint token)) (l ++ [token])
  = Some token.
Proof.
  induction l as [|t l IH]; cbn [find app].
  - now rewrite String.eqb_refl.
  - destruct (String.eqb (Storage.mint t) (Storage.mint token));
      [discriminate|exact IH].
Qed.

Lemma addToken_facts (token : Storage.CreatedTokenInfo) (st : Storage.State) :
  firstn (List.length (Storage.tokens st))
         (Storage.tokens (Storage.addToken token st)) = Storage.tokens st
  /\ find (fun t => String.eqb (Storage.mint t) (Storage.mint token))
          (Storage.tokens (Storage.addToken token st))
     = Some match find (fun t => String.eqb (Storage.mint t) (Storage.mint token))
                       (Storage.tokens st) with
            | Some first => first
            | None => token
            end
  /\ Storage.addToken token (Storage.addToken token st) = Storage.addToken token st.
Proof.
  rewrite (addToken_eq token (Storage.addToken token st)).
  rewrite (addToken_eq token st).
  destruct (existsb (fun t => String.eqb (Storage.mint t) (Storage.mint token))
              (Storage.tokens st)) eqn:Et.
  - split; [apply firstn_all|].
    split; [|now rewrite Et].
    rewrite find_existsb in Et.
    destruct (find _ (Storage.tokens st)); [reflexivity|discriminate].
  - cbn [Storage.tokens]. split.
    + rewrite firstn_app, Nat.sub_diag, firstn_all. apply app_nil_r.
    + split.
      * rewrite find_existsb in Et.
        destruct (find _ (Storage.tokens st)) eqn:Ef; [discriminate|].
        now apply find_snoc.
      * assert (Ht : existsb (fun t => String.eqb (Storage.mint t) (Storage.mint token))
                       (Storage.tokens st ++ [token]) = true)
          by (apply existsb_mint_In; rewrite map_app; apply in_or_app; right;
              now left).
        now rewrite Ht.
Qed.

(** X13. [addPool] only ever appends: the pools that were saved keep
    their places, the pool that is added is in the list afterwards, and
    adding it a second time changes nothing. [addToken] does the same by
    mint, so that for a mint that is already saved the first entry stays
    and the new name and symbol are dropped. *)
Theorem storage_add_is_append_once :
  forall (pool : string) (token : Storage.CreatedTokenInfo) (st : Storage.State),
    (firstn (List.length (Storage.pools st))
            (Storage.pools (Storage.addPool pool st)) = Storage.pools st
     /\ In pool (Storage.pools (Storage.addPool pool st))
     /\ Storage.addPool pool (Storage.addPool pool st) = Storage.addPool pool st)
    /\ (firstn (List.length (Storage.tokens st))
               (Storage.tokens (Storage.addToken token st)) = Storage.tokens st
        /\ find (fun t => String.eqb (Storage.mint t) (Storage.mint token))
                (Storage.tokens (Storage.addToken token st))
           = Some match find (fun t => String.eqb (Storage.mint t) (Storage.mint token))
                             (Storage.tokens st) with
                  | Some first => first
                  | None => token
                  end
        /\ Storage.addToken token (Storage.addToken token st)
           = Storage.addToken token st).
Proof.
  intros pool token st. split; [apply addPool_facts|apply addToken_facts].
Qed.

Lemma step_reload (st : Storage.State) (a : Storage.Action) :
  Storage.mount (Storage.savedPools st) (Storage.savedTokens st) = st ->
  Storage.mount (Storage.savedPools (Storage.step st a))
                (Storage.savedTokens (Storage.step st a))
  = Storage.step st a.
Proof.
  intros H. destruct st as [ps ts sp stk]. unfold Storage.mount in H.
  cbn [Storage.savedPools Storage.savedTokens] in H.
  injection H as Hp Ht.
  destruct a as [pool| |token|]; cbn [Storage.step].
  - rewrite addPool_eq. cbn [Storage.pools Storage.tokens Storage.savedTokens].
    destruct (existsb _ ps).
    + unfold Storage.mount. cbn [Storage.savedPools Storage.savedTokens]. congruence.
    + unfold Storage.mount. cbn [Storage.savedPools Storage.savedTokens]. congruence.
  - unfold Storage.clearPools, Storage.mount.
    cbn [Storage.savedPools Storage.savedTokens Storage.tokens]. congruence.
  - rewrite addToken_eq. cbn [Storage.pools Storage.tokens Storage.savedPools].
    destruct (existsb _ ts).
    + unfold Storage.mount. cbn [Storage.savedPools Storage.savedTokens]. congruence.
    + unfold Storage.mount. cbn [Storage.savedPools Storage.savedTokens]. congruence.
  - unfold Storage.clearTokens, Storage.mount.
    cbn [Storage.savedPools Storage.savedTokens Storage.pools]. congruence.
Qed.

(** X14. With one call per event, as the components make them, and no
    other tab writing, what the storage context shows is what
    [localStorage] holds: after the page has loaded the two items and a
    sequence of events has run, each with one call of [addPool],
    [clearPools], [addToken] or [clearTokens], loading the page again
    gives the same pools and the same tokens. *)
Theorem storage_reload :
  forall (storedPools : option (list string))
         (storedTokens : option (list Storage.CreatedTokenInfo))
         (actions : list Storage.Action),
    Storage.mount
      (Storage.savedPools (Storage.run actions (Storage.mount storedPools storedTokens)))
      (Storage.savedTokens (Storage.run actions (Storage.mount storedPools storedTokens)))
    = Storage.run actions (Storage.mount storedPools storedTokens).
Proof.
  intros storedPools storedTokens actions. unfold Storage.run.
  assert (H0 : Storage.mount
                 (Storage.savedPools (Storage.mount storedPools storedTokens))
                 (Storage.savedTokens (Storage.mount storedPools storedTokens))
               = Storage.mount storedPools storedTokens) by reflexivity.
  revert H0. generalize (Storage.mount storedPools storedTokens).
  induction actions as [|a actions IH]; intros st H0; [exact H0|].
  cbn [fold_left]. apply IH, step_reload, H0.
Qed.

(** ** The administration forms *)

(** A stand-in for [parseInt] on the texts of the examples. *)
Definition sampleParseInt (s : string) : option Z :=
  if String.eqb s "5" then Some 5
  else if String.eqb s "1000" then Some 1000
  else if String.eqb s "40" then Some 40
  else None.

(** X15. The fee form never submits a fee that is not a fraction: in every
    call that it hands to [modifyFee] the numerator is the parsed numerator
    text and is not negative, the denominator is the parsed denominator
    text and is positive, both are below 2^53, and the admin is the wallet
    of the client. *)
Theorem handleModifyFee_submits_valid_fee :
  forall (parseInt : string -> option Z) (newPublicKey : string -> option PublicKey)
         (s : ModifyFeeForm.FormState) (call : ModifyFeeCall),
    ModifyFeeForm.handleModifyFee parseInt newPublicKey s
    = ModifyFeeForm.Submitted call ->
    parseInt (ModifyFeeForm.feeNumerator s) = Some (mf_feeNumerator call)
    /\ parseInt (ModifyFeeForm.feeDenominator s) = Some (mf_feeDenominator call)
    /\ 0 <= mf_feeNumerator call < 2 ^ 53
    /\ 0 < mf_feeDenominator call < 2 ^ 53
    /\ newPublicKey (ModifyFeeForm.poolAddress s) = Some (mf_pool call)
    /\ exists c, ModifyFeeForm.client s = Some c
                 /\ mf_admin call = SwapForm.wallet c.
Proof.
  intros parseInt newPublicKey s call H.
  unfold ModifyFeeForm.handleModifyFee in H.
  destruct (ModifyFeeForm.client s) as [c|]; [|discriminate].
  destruct (ModifyFeeForm.publicKey s); [|discriminate].
  destruct (String.eqb _ _); [discriminate|].
  destruct (parseInt (ModifyFeeForm.feeNumerator s)) as [numerator|]; [|discriminate].
  destruct (parseInt (ModifyFeeForm.feeDenominator s)) as [denominator|];
    [|discriminate].
  destruct (Z.ltb_spec numerator 0) as [|Hn]; [discriminate|].
  destruct (Z.leb_spec denominator 0) as [|Hd]; [discriminate|].
  cbn [orb] in H.
  destruct (newPublicKey (ModifyFeeForm.poolAddress s)) as [pool|]; [|discriminate].
  destruct (BN_ofNumber numerator) as [n|] eqn:En; [|discriminate].
  destruct (BN_ofNumber denominator) as [d|] eqn:Ed; [|discriminate].
  apply BN_ofNumber_Some in En, Ed. destruct En as [-> Hn53], Ed as [-> Hd53].
  injection H as <-. cbn.
  repeat split; try reflexivity; try lia.
  exists c. split; reflexivity.
Qed.

Definition sampleFeeForm : ModifyFeeForm.FormState :=
  ModifyFeeForm.mkForm (Some (SwapForm.mkClient sampleProgram samplePool))
    (Some samplePool) "P" "5" "1000".

Lemma handleModifyFee_submits_valid_fee_witness :
  exists call,
    ModifyFeeForm.handleModifyFee sampleParseInt sampleKey sampleFeeForm
    = ModifyFeeForm.Submitted call
    /\ 0 <= mf_feeNumerator call < 2 ^ 53
    /\ 0 < mf_feeDenominator call < 2 ^ 53.
Proof.
  eexists. split; [reflexivity|].
  destruct (handleModifyFee_submits_valid_fee sampleParseInt sampleKey
              sampleFeeForm _ eq_refl) as (_ & _ & Hn & Hd & _).
  split; [exact Hn|exact Hd].
Defined.

(** X16. The weight form changes one weight per transaction: every call
    that it hands to the batched [modifyTokenWeight] carries exactly one
    weight, positive and equal to the parsed text, and exactly one
    remaining account, the selected mint, read-only and not signing. *)
Theorem handleModifyWeight_submits_one_weight :
  forall (parseInt : string -> option Z) (newPublicKey : string -> option PublicKey)
         (s : ModifyWeightForm.FormState) (call : ModifyTokenWeightCall),
    ModifyWeightForm.handleModifyWeight parseInt newPublicKey s
    = ModifyWeightForm.Submitted call ->
    exists weight mint,
      mw_args call = WeightArray [weight]
      /\ mw_remainingAccounts call = [mkMeta mint false false]
      /\ mw_mint call = None
      /\ parseInt (ModifyWeightForm.newWeight s) = Some weight
      /\ 0 < weight < 2 ^ 53
      /\ newPublicKey (ModifyWeightForm.selectedMint s) = Some mint
      /\ newPublicKey (ModifyWeightForm.poolAddress s) = Some (mw_pool call).
Proof.
  intros parseInt newPublicKey s call H.
  unfold ModifyWeightForm.handleModifyWeight in H.
  destruct (ModifyWeightForm.client s) as [c|]; [|discriminate].
  destruct (ModifyWeightForm.publicKey s); [|discriminate].
  destruct (_ || _); [discriminate|].
  destruct (parseInt (ModifyWeightForm.newWeight s)) as [weightNum|]; [|discriminate].
  destruct (Z.leb_spec weightNum 0) as [|Hw]; [discriminate|].
  destruct (newPublicKey (ModifyWeightForm.selectedMint s)) as [mint|]; [|discriminate].
  destruct (newPublicKey (ModifyWeightForm.poolAddress s)) as [pool|]; [|discriminate].
  destruct (BN_ofNumber weightNum) as [weight|] eqn:Ew; [|discriminate].
  apply BN_ofNumber_Some in Ew. destruct Ew as [-> Hw53].
  injection H as <-. exists weightNum, mint. cbn.
  repeat split; try reflexivity; lia.
Qed.

Definition sampleWeightForm : ModifyWeightForm.FormState :=
  ModifyWeightForm.mkForm (Some (SwapForm.mkClient sampleProgram samplePool))
    (Some samplePool) "P" "M" "40".

Lemma handleModifyWeight_submits_one_weight_witness :
  exists call,
    ModifyWeightForm.handleModifyWeight sampleParseInt sampleKey sampleWeightForm
    = ModifyWeightForm.Submitted call
    /\ exists weight mint,
         mw_args call = WeightArray [weight]
         /\ mw_remainingAccounts call = [mkMeta mint false false]
         /\ 0 < weight < 2 ^ 53.
Proof.
  eexists. split; [reflexivity|].
  destruct (handleModifyWeight_submits_one_weight sampleParseInt sampleKey
              sampleWeightForm _ eq_refl) as (w & m & Hw & Hr & _ & _ & Hpos & _).
  exists w, m. split; [exact Hw|]. split; [exact Hr|exact Hpos].
Defined.

Lemma addTokenToPool_accounts (vaults : list PublicKey) :
  flat_map (fun vault => [mkMeta vault false false]) vaults
  = map (fun vault => mkMeta vault false false) vaults.
Proof.
  induction vaults as [|v vaults IH]; [reflexivity|].
  cbn [flat_map map app]. now rewrite IH.
Qed.

(** X17. The token form hands to [addTokenToPool] a positive weight and,
    as remaining accounts, the vaults of the slots in use of the fetched
    pool account, in slot order, read-only and not signing, and none of
    the padding slots; these are the accounts that [AdminClient] falls back
    to when it is given no vault list. A mint entered by hand takes
    precedence over the selected one. *)
Theorem handleAddToken_passes_vaults_in_use :
  forall (Number : Type) (parseInt : string -> option Z)
         (parseFloat : string -> Number) (isNaN isNegative : Number -> bool)
         (scaleFloor : Number -> Z -> Z)
         (newPublicKey : string -> option PublicKey)
         (getMint : PublicKey -> option Z)
         (fetchPool : PublicKey -> option Client.PoolAccount)
         (s : AddTokenForm.FormState) (call : AddTokenToPoolCall),
    AddTokenForm.handleAddToken Number parseInt parseFloat isNaN isNegative
      scaleFloor newPublicKey getMint fetchPool s = AddTokenForm.Submitted call ->
    exists weight liquidity poolInfo,
      at_args call = WeightAndLiquidity weight liquidity
      /\ parseInt (AddTokenForm.weight s) = Some weight /\ 0 < weight
      /\ fetchPool (at_pool call) = Some poolInfo
      /\ at_remainingAccounts call
         = AdminClient.addTokenToPool_remainingAccounts [] (Some poolInfo)
      /\ map pubkey (at_remainingAccounts call)
         = map Client.vaultAccount
             (firstn (Client.tokenCount poolInfo) (Client.tokens poolInfo))
      /\ Forall (fun meta => isWritable meta = false /\ isSigner meta = false)
           (at_remainingAccounts call)
      /\ (List.length (at_remainingAccounts call) <= Client.tokenCount poolInfo)%nat
      /\ newPublicKey
           (if String.eqb (AddTokenForm.customMint s) EmptyString
            then AddTokenForm.selectedMint s else AddTokenForm.customMint s)
         = Some (at_mint call).
Proof.
  intros Number parseInt parseFloat isNaN isNegative scaleFloor newPublicKey
         getMint fetchPool s call H.
  unfold AddTokenForm.handleAddToken in H.
  destruct (AddTokenForm.client s) as [c|]; [|discriminate].
  destruct (AddTokenForm.publicKey s); [|discriminate].
  destruct (_ || _); [discriminate|].
  unfold AddTokenForm.mintAddressOf in H.
  destruct (String.eqb (if String.eqb (AddTokenForm.customMint s) EmptyString
                        then AddTokenForm.selectedMint s
                        else AddTokenForm.customMint s) EmptyString);
    [discriminate|].
  destruct (parseInt (AddTokenForm.weight s)) as [weightNum|]; [|discriminate].
  destruct (isNaN _); [discriminate|].
  destruct (Z.leb_spec weightNum 0) as [|Hw]; [discriminate|].
  destruct (isNegative _); [discriminate|].
  cbn [orb] in H.
  destruct (newPublicKey (if String.eqb (AddTokenForm.customMint s) EmptyString
                          then AddTokenForm.selectedMint s
                          else AddTokenForm.customMint s)) as [mint|]; [|discriminate].
  destruct (newPublicKey (AddTokenForm.poolAddress s)) as [pool|]; [|discriminate].
  destruct (getMint mint) as [decimals|]; [|discriminate].
  destruct (fetchPool pool) as [poolInfo|] eqn:Hfetch; [|discriminate].
  destruct (BN_ofNumber weightNum) as [w|] eqn:Ew; [|discriminate].
  destruct (BN_ofNumber (scaleFloor _ _)) as [l|]; [|discriminate].
  apply BN_ofNumber_Some in Ew. destruct Ew as [-> _].
  injection H as <-. exists weightNum, l, poolInfo.
  unfold AnySwap.addTokenToPool, AnySwap.getPoolInfo_tokens,
    AdminClient.addTokenToPool_remainingAccounts, AdminClient.vaultAccountsOf.
  cbn [at_args at_pool at_mint at_remainingAccounts List.length Nat.eqb].
  rewrite addTokenToPool_accounts.
  split; [reflexivity|]. split; [reflexivity|]. split; [exact Hw|].
  split; [exact Hfetch|]. split; [reflexivity|].
  split; [rewrite map_map; cbn [pubkey]; apply map_id|].
  split; [apply Forall_forall; intros meta Hin; apply in_map_iff in Hin;
          destruct Hin as (v & <- & _); split; reflexivity|].
  split; [|reflexivity].
  rewrite !length_map, length_firstn. lia.
Qed.

Definition samplePoolInfo : Client.PoolAccount :=
  Client.mkPoolAccount
    [Client.mkToken vaultX [x01] 20; Client.mkToken vaultY [x02] 40;
     Client.mkToken [] [] 0; Client.mkToken [] [] 0] 2.

Definition sampleTokenForm : AddTokenForm.FormState :=
  AddTokenForm.mkForm (Some (SwapForm.mkClient sampleProgram samplePool))
    (Some samplePool) "P" true "S" "M" "40" "1000".

Lemma handleAddToken_passes_vaults_in_use_witness :
  exists call,
    AddTokenForm.handleAddToken Z sampleParseInt sampleParse (fun _ => false)
      (fun x => x <? 0) sampleScale sampleKey (fun _ => Some 2)
      (fun _ => Some samplePoolInfo) sampleTokenForm = AddTokenForm.Submitted call
    /\ Forall (fun meta => isWritable meta = false /\ isSigner meta = false)
         (at_remainingAccounts call)
    /\ sampleKey "M" = Some (at_mint call).
Proof.
  eexists. split; [reflexivity|].
  destruct (handleAddToken_passes_vaults_in_use Z sampleParseInt sampleParse
              (fun _ => false) (fun x => x <? 0) sampleScale sampleKey
              (fun _ => Some 2) (fun _ => Some samplePoolInfo) sampleTokenForm
              _ eq_refl) as (w & l & info & _ & _ & _ & _ & _ & _ & Hro & _ & Hm).
  split; [exact Hro|exact Hm].
Defined.

(** ** The liquidity form *)

Section AddLiquidityFacts.

Variable Number : Type.
Variable parseFloat : string -> Number.
Variable scaleFloor : Number -> Z -> Z.
Variable newPublicKey : string -> option PublicKey.
Variable getAssociatedTokenAddress : PublicKey -> PublicKey -> option PublicKey.

Lemma collect_lengths c owner pool inputs amounts userTokenAccounts vaultAccounts :
  AddLiquidityForm.collect Number parseFloat scaleFloor newPublicKey
    getAssociatedTokenAddress c owner pool inputs
  = Some (amounts, userTokenAccounts, vaultAccounts) ->
  List.length amounts = List.length inputs
  /\ List.length userTokenAccounts = List.length inputs
  /\ List.length vaultAccounts = List.length inputs.
Proof.
  revert amounts userTokenAccounts vaultAccounts.
  induction inputs as [|input inputs IH]; intros amounts users vaults H.
  - cbn [AddLiquidityForm.collect] in H. injection H as <- <- <-. auto.
  - cbn [AddLiquidityForm.collect] in H.
    destruct (newPublicKey _) as [mintKey|]; [|discriminate].
    destruct (BN_ofNumber _) as [amountBN|]; [|discriminate].
    destruct (getAssociatedTokenAddress _ _) as [userTokenAccount|]; [|discriminate].
    destruct (AnySwap.getVault _ _ _) as [vault|]; [|discriminate].
    destruct (AddLiquidityForm.collect _ _ _ _ _ c owner pool inputs)
      as [[[amounts' users'] vaults']|]; [|discriminate].
    destruct (IH _ _ _ eq_refl) as (Ha & Hu & Hv).
    injection H as <- <- <-. cbn [List.length]. auto.
Qed.

End AddLiquidityFacts.

Lemma liquidityAccounts_defined (userTokenAccounts vaultAccounts : list PublicKey) :
  List.length vaultAccounts = List.length userTokenAccounts ->
  Forall (fun meta => indexedKey meta <> None)
    (AnySwap.liquidityAccounts userTokenAccounts vaultAccounts).
Proof.
  intros Hlen. rewrite anySwap_liquidityAccounts_pairs.
  apply Forall_forall. intros meta Hin.
  apply in_flat_map in Hin. destruct Hin as (i & Hi & Hmeta).
  apply in_seq in Hi.
  assert (Hu : nth_error userTokenAccounts i <> None) by (apply nth_error_Some; lia).
  assert (Hv : nth_error vaultAccounts i <> None) by (apply nth_error_Some; lia).
  destruct Hmeta as [<-|[<-|[]]]; assumption.
Qed.

(** X18. The liquidity form calls [addLiquidity] with one amount, one
    user account and one vault for every token of the pool that it shows,
    so that the remaining accounts that [addLiquidity] builds are two per
    token and none of them has an undefined key; no token of the form has
    an empty amount. *)
Theorem handleAddLiquidity_passes_pairs :
  forall (Number : Type) (parseFloat : string -> Number)
         (isNonPositive : Number -> bool) (scaleFloor : Number -> Z -> Z)
         (newPublicKey : string -> option PublicKey)
         (getAssociatedTokenAddress : PublicKey -> PublicKey -> option PublicKey)
         (lpAccountReady : PublicKey -> bool)
         (s : AddLiquidityForm.FormState) (args : AddLiquidityForm.AddLiquidityArgs),
    AddLiquidityForm.handleAddLiquidity Number parseFloat isNonPositive scaleFloor
      newPublicKey getAssociatedTokenAddress lpAccountReady s
    = AddLiquidityForm.Called args ->
    List.length (AddLiquidityForm.al_amounts args)
    = List.length (AddLiquidityForm.tokenInputs s)
    /\ List.length (AddLiquidityForm.al_userTokenAccounts args)
       = List.length (AddLiquidityForm.tokenInputs s)
    /\ List.length (AddLiquidityForm.al_vaultAccounts args)
       = List.length (AddLiquidityForm.tokenInputs s)
    /\ List.length
         (AnySwap.liquidityAccounts (AddLiquidityForm.al_userTokenAccounts args)
            (AddLiquidityForm.al_vaultAccounts args))
       = (2 * List.length (AddLiquidityForm.tokenInputs s))%nat
    /\ Forall (fun meta => indexedKey meta <> None)
         (AnySwap.liquidityAccounts (AddLiquidityForm.al_userTokenAccounts args)
            (AddLiquidityForm.al_vaultAccounts args))
    /\ Forall (fun t => AddLiquidityForm.amount t <> EmptyString)
         (AddLiquidityForm.tokenInputs s).
Proof.
  intros Number parseFloat isNonPositive scaleFloor newPublicKey ata ready s args H.
  unfold AddLiquidityForm.handleAddLiquidity in H.
  destruct (AddLiquidityForm.client s) as [c|]; [|discriminate].
  destruct (AddLiquidityForm.publicKey s) as [owner|]; [|discriminate].
  destruct (_ || _); [discriminate|].
  destruct (AddLiquidityForm.hasEmptyAmount Number parseFloat isNonPositive
              (AddLiquidityForm.tokenInputs s)) eqn:Hempty; [discriminate|].
  destruct (newPublicKey (AddLiquidityForm.poolAddress s)) as [pool|]; [|discriminate].
  destruct (AnySwap.getPoolMint _ pool) as [poolMint|]; [|discriminate].
  destruct (ata poolMint owner) as [userPoolAta|]; [|discriminate].
  destruct (ready userPoolAta); [|discriminate].
  destruct (AddLiquidityForm.collect _ _ _ _ _ c owner pool _)
    as [[[amounts users] vaults]|] eqn:Hcollect; [|discriminate].
  apply collect_lengths in Hcollect. destruct Hcollect as (Ha & Hu & Hv).
  assert (Eargs : AddLiquidityForm.mkArgs pool amounts users vaults = args)
    by (injection H; auto).
  rewrite <- Eargs.
  cbn [AddLiquidityForm.al_amounts AddLiquidityForm.al_userTokenAccounts
       AddLiquidityForm.al_vaultAccounts].
  split; [exact Ha|]. split; [exact Hu|]. split; [exact Hv|].
  split.
  - rewrite anySwap_liquidityAccounts_pairs, pairs_length by reflexivity.
    rewrite length_seq, Hu. reflexivity.
  - split; [apply liquidityAccounts_defined; congruence|].
    apply Forall_forall. intros t Ht E.
    unfold AddLiquidityForm.hasEmptyAmount in Hempty.
    assert (Hex : existsb
                    (fun t => String.eqb (AddLiquidityForm.amount t) EmptyString
                              || isNonPositive (parseFloat (AddLiquidityForm.amount t)))
                    (AddLiquidityForm.tokenInputs s) = true).
    { apply existsb_exists. exists t. split; [exact Ht|]. now rewrite E. }
    congruence.
Qed.

Definition sampleLiquidityForm : AddLiquidityForm.FormState :=
  AddLiquidityForm.mkForm (Some (SwapForm.mkClient sampleProgram samplePool))
    (Some samplePool) "P" true true
    [AddLiquidityForm.mkInput "A" "1" 9 "20"].

Lemma sampleLiquidityForm_called :
  exists args,
    AddLiquidityForm.handleAddLiquidity Z sampleParse (fun x => x <=? 0) sampleScale
      sampleKey sampleAta (fun _ => true) sampleLiquidityForm
    = AddLiquidityForm.Called args.
Proof. vm_compute. eexists. reflexivity. Qed.

Lemma handleAddLiquidity_passes_pairs_witness :
  exists args,
    AddLiquidityForm.handleAddLiquidity Z sampleParse (fun x => x <=? 0) sampleScale
      sampleKey sampleAta (fun _ => true) sampleLiquidityForm
    = AddLiquidityForm.Called args
    /\ List.length (AddLiquidityForm.al_amounts args) = 1%nat
    /\ List.length
         (AnySwap.liquidityAccounts (AddLiquidityForm.al_userTokenAccounts args)
            (AddLiquidityForm.al_vaultAccounts args)) = 2%nat.
Proof.
  destruct sampleLiquidityForm_called as [args E]. exists args. split; [exact E|].
  destruct (handleAddLiquidity_passes_pairs Z sampleParse (fun x => x <=? 0)
              sampleScale sampleKey sampleAta (fun _ => true) sampleLiquidityForm
              args E) as (Ha & _ & _ & Hr & _).
  split; [exact Ha|exact Hr].
Defined.

(** ** What the swap form sends for each token *)

Section SwapFormLegs.

Variable Number : Type.
Variable parseFloat : string -> Number.
Variable scaleFloor : Number -> Z -> Z.
Variable newPublicKey : string -> option PublicKey.
Variable getAssociatedTokenAddress : PublicKey -> PublicKey -> option PublicKey.

Let legOf := SwapForm.legOf Number parseFloat scaleFloor newPublicKey
               getAssociatedTokenAddress.
Let legsOf := SwapForm.legsOf Number parseFloat scaleFloor newPublicKey
                getAssociatedTokenAddress.

Lemma legOf_Some c owner pool t leg :
  legOf c owner pool t = Some leg ->
  exists mintKey,
    newPublicKey (SwapForm.mint t) = Some mintKey
    /\ AnySwap.amount leg
       = scaleFloor (parseFloat (SwapForm.amount t)) (SwapForm.decimals t)
    /\ getAssociatedTokenAddress mintKey owner = Some (AnySwap.user leg)
    /\ AnySwap.getVault (SwapForm.programId c) pool mintKey = inl (AnySwap.vault leg).
Proof.
  unfold legOf, SwapForm.legOf.
  destruct (newPublicKey (SwapForm.mint t)) as [mintKey|] eqn:Hmint; [|discriminate].
  destruct (getAssociatedTokenAddress mintKey owner) as [userAccount|] eqn:Huser;
    [|discriminate].
  destruct (AnySwap.getVault (SwapForm.programId c) pool mintKey) as [vault|]
    eqn:Hvault; [|discriminate].
  destruct (BN_ofNumber
              (scaleFloor (parseFloat (SwapForm.amount t)) (SwapForm.decimals t)))
    as [amountBN|] eqn:Hbn; [|discriminate].
  apply BN_ofNumber_Some in Hbn. destruct Hbn as [Hbn _].
  intros H. exists mintKey.
  assert (E : AnySwap.mkLeg amountBN vault userAccount = leg) by (injection H; auto).
  rewrite <- E. cbn [AnySwap.amount AnySwap.user AnySwap.vault].
  split; [reflexivity|]. split; [exact Hbn|]. split; [exact Huser|exact Hvault].
Qed.

Lemma legsOf_nth c owner pool ts legs k t :
  legsOf c owner pool ts = Some legs ->
  nth_error ts k = Some t ->
  exists leg, nth_error legs k = Some leg /\ legOf c owner pool t = Some leg.
Proof.
  revert legs k. induction ts as [|t0 ts IH]; intros legs k H Hk.
  - destruct k; discriminate.
  - unfold legsOf in H. cbn [SwapForm.legsOf] in H.
    fold legOf in H. fold legsOf in H.
    destruct (legOf c owner pool t0) as [leg0|] eqn:E0; [|discriminate].
    destruct (legsOf c owner pool ts) as [rest|] eqn:Erest; [|discriminate].
    assert (E : leg0 :: rest = legs) by (injection H; auto).
    rewrite <- E. destruct k as [|k]; cbn [nth_error] in *.
    + exists leg0. split; [reflexivity|]. congruence.
    + exact (IH rest k eq_refl Hk).
Qed.

Lemma legsOf_app c owner pool ts ts' legs legs' :
  legsOf c owner pool ts = Some legs ->
  legsOf c owner pool ts' = Some legs' ->
  legsOf c owner pool (ts ++ ts') = Some (legs ++ legs').
Proof.
  revert legs. induction ts as [|t0 ts IH]; intros legs H H'.
  - cbn in H. assert (E : [] = legs) by (injection H; auto).
    rewrite <- E. exact H'.
  - unfold legsOf in H |- *. cbn [SwapForm.legsOf app] in H |- *.
    fold legOf in H |- *. fold legsOf in H |- *.
    destruct (legOf c owner pool t0) as [leg0|]; [|discriminate].
    destruct (legsOf c owner pool ts) as [rest|] eqn:Erest; [|discriminate].
    assert (E : leg0 :: rest = legs) by (injection H; auto).
    rewrite <- E, (IH rest eq_refl H'). reflexivity.
Qed.

End SwapFormLegs.

Lemma swap_layout_at wallet pool inlets outlets owner tx k leg :
  AnySwap.swap wallet pool inlets outlets owner = Returned tx ->
  nth_error (inlets ++ outlets) k = Some leg ->
  nth_error (AnySwap.amounts_tolerance tx) k = Some (AnySwap.amount leg)
  /\ nth_error (AnySwap.is_in_token tx) k = Some (Nat.ltb k (List.length inlets))
  /\ nth_error (AnySwap.remainingAccounts tx) (2 * k)
     = Some (mkMeta (AnySwap.user leg) true false)
  /\ nth_error (AnySwap.remainingAccounts tx) (2 * k + 1)
     = Some (mkMeta (AnySwap.vault leg) true false)
  /\ AnySwap.tx_pool tx = pool
  /\ AnySwap.tx_owner tx = orWallet owner wallet.
Proof.
  intros Hswap Hleg. rewrite swap_by_count in Hswap.
  destruct (AnySwap.cu_of _) as [cu|msg]; [|discriminate].
  apply Returned_inj in Hswap. rewrite <- Hswap.
  cbn [AnySwap.amounts_tolerance AnySwap.is_in_token AnySwap.remainingAccounts
       AnySwap.tx_pool AnySwap.tx_owner].
  pose proof (intos_nth inlets outlets k leg Hleg) as Hinto.
  destruct (accounts_of_nth _ _ _ Hinto) as [Hu Hv]. cbn in Hu, Hv.
  rewrite !nth_error_map, Hinto.
  repeat split; assumption.
Qed.

(** X19. For every token that takes part in a swap submitted by the form
    (the inputs, then the outputs), the transaction carries at the token's
    index the amount typed in, scaled by the decimals of the token and
    rounded down, and as its two remaining accounts the associated token
    account of the connected wallet for that mint and the vault that
    [getVault] derives for the pool and that mint; the pool is the parsed
    pool address and the owner is the wallet of the client. *)
Theorem handleSwap_sends_selected_tokens :
  forall (Number : Type) (parseFloat : string -> Number)
         (isPositive : Number -> bool) (scaleFloor : Number -> Z -> Z)
         (newPublicKey : string -> option PublicKey)
         (getAssociatedTokenAddress : PublicKey -> PublicKey -> option PublicKey)
         (s : SwapForm.FormState) (tx : AnySwap.SwapTx)
         (k : nat) (t : SwapForm.TokenSwapItem),
    SwapForm.handleSwap Number parseFloat isPositive scaleFloor newPublicKey
      getAssociatedTokenAddress s = SwapForm.Submitted tx ->
    nth_error
      (SwapForm.inputTokens Number parseFloat isPositive (SwapForm.tokens s)
       ++ SwapForm.outputTokens Number parseFloat isPositive (SwapForm.tokens s)) k
    = Some t ->
    exists (c : SwapForm.ClientHandle) (owner pool mintKey userAccount vault : PublicKey),
      SwapForm.client s = Some c
      /\ SwapForm.publicKey s = Some owner
      /\ newPublicKey (SwapForm.poolAddress s) = Some pool
      /\ newPublicKey (SwapForm.mint t) = Some mintKey
      /\ getAssociatedTokenAddress mintKey owner = Some userAccount
      /\ AnySwap.getVault (SwapForm.programId c) pool mintKey = inl vault
      /\ nth_error (AnySwap.amounts_tolerance tx) k
         = Some (scaleFloor (parseFloat (SwapForm.amount t)) (SwapForm.decimals t))
      /\ nth_error (AnySwap.remainingAccounts tx) (2 * k)
         = Some (mkMeta userAccount true false)
      /\ nth_error (AnySwap.remainingAccounts tx) (2 * k + 1)
         = Some (mkMeta vault true false)
      /\ AnySwap.tx_pool tx = pool
      /\ AnySwap.tx_owner tx = SwapForm.wallet c.
Proof.
  intros Number parseFloat isPositive scaleFloor newPublicKey ata s tx k t Hout Hk.
  unfold SwapForm.handleSwap in Hout.
  destruct (SwapForm.client s) as [c|]; [|discriminate].
  destruct (SwapForm.publicKey s) as [owner|]; [|discriminate].
  destruct (_ || _); [discriminate|].
  destruct (_ || _); [discriminate|].
  destruct (newPublicKey (SwapForm.poolAddress s)) as [pool|]; [|discriminate].
  destruct (SwapForm.legsOf _ _ _ _ _ c owner pool
              (SwapForm.inputTokens Number parseFloat isPositive (SwapForm.tokens s)))
    as [inlets|] eqn:Li; [|discriminate].
  destruct (SwapForm.legsOf _ _ _ _ _ c owner pool
              (SwapForm.outputTokens Number parseFloat isPositive (SwapForm.tokens s)))
    as [outlets|] eqn:Lo; [|discriminate].
  destruct (AnySwap.swap (SwapForm.wallet c) pool inlets outlets None)
    as [tx'|msg] eqn:Hswap; [|discriminate].
  assert (Etx : tx' = tx) by (injection Hout; auto). rewrite Etx in Hswap.
  pose proof (legsOf_app _ _ _ _ _ _ _ _ _ _ _ _ Li Lo) as Lall.
  destruct (legsOf_nth _ _ _ _ _ _ _ _ _ _ k t Lall Hk) as (leg & Hleg & Hof).
  apply legOf_Some in Hof.
  destruct Hof as (mintKey & Hmint & Hamount & Huser & Hvault).
  destruct (swap_layout_at _ _ _ _ _ _ k leg Hswap Hleg)
    as (Ha & _ & Hu & Hv & Hp & Ho).
  exists c, owner, pool, mintKey, (AnySwap.user leg), (AnySwap.vault leg).
  rewrite <- Hamount.
  repeat split; assumption.
Qed.

Lemma handleSwap_sends_selected_tokens_witness :
  exists tx,
    SwapForm.handleSwap Z sampleParse (Z.ltb 0) sampleScale sampleKey sampleAta
      sampleForm = SwapForm.Submitted tx
    /\ nth_error (AnySwap.amounts_tolerance tx) 1 = Some (sampleScale 1 9)
    /\ exists userAccount,
         nth_error (AnySwap.remainingAccounts tx) 2
         = Some (mkMeta userAccount true false).
Proof.
  destruct sampleForm_submitted as [tx E]. exists tx. split; [exact E|].
  destruct (handleSwap_sends_selected_tokens Z sampleParse (Z.ltb 0) sampleScale
              sampleKey sampleAta sampleForm tx 1%nat
              (SwapForm.mkItem "B" 9 "40" SwapForm.output "2") E eq_refl)
    as (c & owner & pool & mintKey & userAccount & vault & _ & _ & _ & _ & _ & _
        & Ha & Hu & _).
  split; [exact Ha|]. exists userAccount. exact Hu.
Defined.

(** X20. Editing the swap form never touches the token list itself: a
    change of status, a change of amount and the clearing after a swap keep
    the number of entries, their order, and the mint, the decimals and the
    weight of every entry; a change of amount keeps every status, and a
    change of status to input or output keeps every amount. *)
Theorem swap_form_edits_keep_tokens :
  forall (m value : string) (st : SwapForm.Status)
         (ts : list SwapForm.TokenSwapItem),
    let identity :=
      map (fun t => (SwapForm.mint t, SwapForm.decimals t, SwapForm.weight t)) in
    identity (SwapForm.handleStatusChange m st ts) = identity ts
    /\ identity (SwapForm.handleAmountChange m value ts) = identity ts
    /\ identity (SwapForm.clearAmounts ts) = identity ts
    /\ map SwapForm.status (SwapForm.handleAmountChange m value ts)
       = map SwapForm.status ts
    /\ (st <> SwapForm.none ->
        map SwapForm.amount (SwapForm.handleStatusChange m st ts)
        = map SwapForm.amount ts).
Proof.
  intros m value st ts identity. subst identity.
  unfold SwapForm.handleStatusChange, SwapForm.handleAmountChange,
    SwapForm.clearAmounts.
  rewrite !map_map.
  repeat split.
  - apply map_ext. intros t. now destruct (String.eqb (SwapForm.mint t) m).
  - apply map_ext. intros t. now destruct (String.eqb (SwapForm.mint t) m).
  - apply map_ext. intros t. now destruct (String.eqb (SwapForm.mint t) m).
  - intros Hst. apply map_ext. intros t.
    destruct (String.eqb (SwapForm.mint t) m); [|reflexivity].
    destruct st; [reflexivity|reflexivity|contradiction].
Qed.
